(** * cipher_trapdoor_sets: a shallow embedding of the algebraic core

    The C++ templates of [include/cipher_trapdoor_sets] are rendered as
    functions over the hash width [N] (a [nat]), byte arrays
    [std::array<uint8_t, N>] as lists of [Z] read by index, [std::size_t]
    as [Z] with its 64-bit wrap-around written out, exceptions as a
    [result] type, and [double] as IEEE 754 binary64: the rationals it
    represents, every operation rounded to nearest with ties to even, and
    the special values. *)

From Stdlib Require Import ZArith QArith Qreduction Qpower Qround Lqa.
From Stdlib Require Import List Bool String Lia.
From Stdlib Require Import DecimalString Permutation.
Import ListNotations.
Open Scope Z_scope.

(** ** Exceptions

    Every throw site of the modelled code throws [std::invalid_argument],
    but for the empty compound, which throws [std::runtime_error]; the
    constructors below name the kind each throw site stands for. *)

Inductive error : Type :=
| IncompatibleKey      (* "Incompatible ... key(s)", "Incompatible signatures" *)
| SizeMismatch         (* "Signature size mismatch" *)
| InvalidThreshold     (* "Threshold k cannot exceed total n" *)
| InsufficientShares   (* "Insufficient shares for reconstruction" *)
| EmptyCompound        (* "Cannot multiply empty compound", a runtime_error *)
| TruncatedInput.      (* "Insufficient bytes for ... deserialization" *)

(** [Undefined] marks executions the C++ standard leaves undefined (an
    out-of-range [operator[]]); it is not an exception. *)
Inductive result (A : Type) : Type :=
| Ok (a : A)
| Throw (e : error)
| Undefined.

Arguments Ok {A} a.
Arguments Throw {A} e.
Arguments Undefined {A}.

Definition bind {A B : Type} (r : result A) (k : A -> result B) : result B :=
  match r with
  | Ok a => k a
  | Throw e => Throw e
  | Undefined => Undefined
  end.

Notation "x <- r ;; k" := (bind r (fun x => k))
  (at level 100, r at next level, right associativity).

Definition is_ok {A : Type} (r : result A) : bool :=
  match r with Ok _ => true | _ => false end.

(** [std::size_t] on the 64-bit targets the library is built for. *)
Definition size_max : Z := 2 ^ 64.
Definition is_size_t (z : Z) : Prop := 0 <= z < size_max.
Definition wrap64 (z : Z) : Z := z mod size_max.

Module core.

(** ** [double]

    A finite value is the rational it stands for, kept in lowest terms so
    that equal numbers are equal terms.  Signed zeros are identified; a
    zero divisor is taken as +0.0, which is what a converted
    [std::size_t] gives. *)

Inductive double : Type :=
| Fin (q : Q)
| Inf (negative : bool)
| NaN.

Definition Qnegative (q : Q) : bool := (Qnum q <? 0)%Z.
Definition Qzero (q : Q) : bool := (Qnum q =? 0)%Z.

Definition fin (q : Q) : double := Fin (Qred q).

(** *** Rounding to binary64

    [Qlog2 q] is the binary exponent of a positive [q]:
    [2^(Qlog2 q) <= q < 2^(Qlog2 q + 1)]. *)
Definition Qlog2 (q : Q) : Z :=
  let k := Z.log2 (Qnum q) - Z.log2 (Z.pos (Qden q)) in
  if Qle_bool (2 ^ k) q then k else k - 1.

(** The nearest integer, ties to the even one. *)
Definition rne (x : Q) : Z :=
  let f := Qfloor x in
  match (x - inject_Z f ?= 1 # 2)%Q with
  | Lt => f
  | Gt => f + 1
  | Eq => if Z.even f then f else f + 1
  end.

(** The exponent of the last place of a positive [q]: 53 significant
    bits, and no finer than [2^-1074], the spacing of the subnormals. *)
Definition exponent (q : Q) : Z := Z.max (-1074) (Qlog2 q - 52).

Definition round_pos (q : Q) : Q :=
  (inject_Z (rne (q / 2 ^ exponent q)) * 2 ^ exponent q)%Q.

(** The nearest number of the binary64 grid, before the overflow test. *)
Definition round_q (q : Q) : Q :=
  match (q ?= 0)%Q with
  | Eq => 0%Q
  | Gt => round_pos q
  | Lt => (- round_pos (- q))%Q
  end.

(** Rounding a real result: what reaches [2^1024] overflows to an
    infinity, what falls below half of [2^-1074] underflows to zero. *)
Definition round64 (q : Q) : double :=
  let r := round_q q in
  if Qle_bool (2 ^ 1024) r then Inf false
  else if Qle_bool r (- 2 ^ 1024) then Inf true
  else fin r.

(** [static_cast<double>] of an integer.  The integer types are at most
    64 bits wide, far below the overflow threshold, so the conversion is
    a rounding to the grid and always finite. *)
Definition of_Z (z : Z) : double := fin (round_q (inject_Z z)).
Definition d0 : double := Fin 0.
Definition d1 : double := Fin 1.
Definition half : double := Fin (1 # 2).

Definition dneg (x : double) : double :=
  match x with
  | Fin q => fin (- q)
  | Inf s => Inf (negb s)
  | NaN => NaN
  end.

Definition dadd (x y : double) : double :=
  match x, y with
  | Fin a, Fin b => round64 (a + b)
  | Fin _, Inf s => Inf s
  | Inf s, Fin _ => Inf s
  | Inf s, Inf s' => if Bool.eqb s s' then Inf s else NaN
  | _, _ => NaN
  end.

Definition dsub (x y : double) : double := dadd x (dneg y).

Definition dmul (x y : double) : double :=
  match x, y with
  | Fin a, Fin b => round64 (a * b)
  | Fin a, Inf s => if Qzero a then NaN else Inf (xorb s (Qnegative a))
  | Inf s, Fin a => if Qzero a then NaN else Inf (xorb s (Qnegative a))
  | Inf s, Inf s' => Inf (xorb s s')
  | _, _ => NaN
  end.

Definition ddiv (x y : double) : double :=
  match x, y with
  | Fin a, Fin b =>
      if Qzero b then (if Qzero a then NaN else Inf (Qnegative a))
      else round64 (a / b)
  | Fin _, Inf _ => d0
  | Inf s, Fin b => Inf (xorb s (Qnegative b))
  | _, _ => NaN
  end.

(** [x < y]; false as soon as one side is NaN. *)
Definition dltb (x y : double) : bool :=
  match x, y with
  | Fin a, Fin b => negb (Qle_bool b a)
  | Fin _, Inf s => negb s
  | Inf s, Fin _ => s
  | Inf s, Inf s' => s && negb s'
  | _, _ => false
  end.

Definition deqb (x y : double) : bool :=
  match x, y with
  | Fin a, Fin b => Qeq_bool a b
  | Inf s, Inf s' => Bool.eqb s s'
  | _, _ => false
  end.

(** [x >= y]. *)
Definition dgeb (x y : double) : bool := dltb y x || deqb x y.

(** [std::max(a, b)] is [(a < b) ? b : a]. *)
Definition dmax (a b : double) : double := if dltb a b then b else a.

(** [std::pow(2.0, e)] at an integral exponent: the power of two itself
    where binary64 has it, 0 below the subnormals and an infinity from
    [2^1024] on.  That is the correctly rounded result, which is what the
    C library returns when the exact result is a power of two. *)
Definition pow2 (e : Z) : double := round64 (2 ^ e).

(** A decimal literal of the source, such as [0.001]. *)
Definition literal (q : Q) : double := round64 q.

(** The remaining <cmath> functions the library calls are not part of it;
    they are taken as given. *)
Record libm : Type := {
  sqrt : double -> double;
  pow : double -> double -> double
}.

(** ** approximate_value.hpp *)

Record approximate_value (T : Type) : Type := {
  value : T;
  false_positive_rate : double;
  false_negative_rate : double
}.

Arguments value {T} _.
Arguments false_positive_rate {T} _.
Arguments false_negative_rate {T} _.

(** The constructor [approximate_value(value, fpr = 0.0, fnr = 0.0)]. *)
Definition approx {T : Type} (v : T) (fpr fnr : double) : approximate_value T :=
  {| value := v; false_positive_rate := fpr; false_negative_rate := fnr |}.

Definition approx1 {T : Type} (v : T) (fpr : double) : approximate_value T :=
  approx v fpr d0.

Definition error_rate {T : Type} (a : approximate_value T) : double :=
  dmax (false_positive_rate a) (false_negative_rate a).

Definition is_exact {T : Type} (a : approximate_value T) : bool :=
  deqb (false_positive_rate a) d0 && deqb (false_negative_rate a) d0.

Definition compose_error_rates (e1 e2 : double) : double :=
  dsub (dadd e1 e2) (dmul e1 e2).

Definition approximate_bool : Type := approximate_value bool.

Definition and_ (a other : approximate_bool) : approximate_bool :=
  let result := value a && value other in
  let fpr := compose_error_rates (false_positive_rate a)
                                 (false_positive_rate other) in
  let fnr := compose_error_rates (false_negative_rate a)
                                 (false_negative_rate other) in
  approx result fpr fnr.

Definition or_ (a other : approximate_bool) : approximate_bool :=
  let result := value a || value other in
  let fpr := compose_error_rates (false_positive_rate a)
                                 (false_positive_rate other) in
  let fnr := compose_error_rates (false_negative_rate a)
                                 (false_negative_rate other) in
  approx result fpr fnr.

Definition not_ (a : approximate_bool) : approximate_bool :=
  approx (negb (value a)) (false_negative_rate a) (false_positive_rate a).

(** ** hash_types.hpp: [hash_value<N>]

    [data] is read by index, as the loops [for (i = 0; i < N; ++i)] do. *)

Definition hash_value : Type := list Z.

Definition byte_at (h : hash_value) (i : nat) : Z := nth i h 0.

(** A default-constructed [hash_value<N>]: [data{}]. *)
Definition zero_hash (N : nat) : hash_value := repeat 0 N.

Definition bytewise (N : nat) (f : Z -> Z -> Z) (a b : hash_value) : hash_value :=
  map (fun i => f (byte_at a i) (byte_at b i)) (seq 0 N).

Definition hxor (N : nat) : hash_value -> hash_value -> hash_value :=
  bytewise N Z.lxor.
Definition hand (N : nat) : hash_value -> hash_value -> hash_value :=
  bytewise N Z.land.
Definition hor (N : nat) : hash_value -> hash_value -> hash_value :=
  bytewise N Z.lor.
Definition hnot (N : nat) (a : hash_value) : hash_value :=
  map (fun i => Z.lnot (byte_at a i) mod 256) (seq 0 N).

(** The defaulted [operator==]: all [N] bytes agree. *)
Definition heqb (N : nat) (a b : hash_value) : bool :=
  forallb (fun i => byte_at a i =? byte_at b i) (seq 0 N).

Definition is_zero (N : nat) (a : hash_value) : bool :=
  forallb (fun i => byte_at a i =? 0) (seq 0 N).

Definition is_ones (N : nat) (a : hash_value) : bool :=
  forallb (fun i => byte_at a i =? 255) (seq 0 N).

(** What the type [std::array<uint8_t, N>] guarantees. *)
Definition is_byte (b : Z) : Prop := 0 <= b < 256.
Definition wf_hash (N : nat) (h : hash_value) : Prop :=
  List.length h = N /\ Forall is_byte h.

End core.

Import core.

(** ** The keyed derivation (hash_types.hpp, [key_derivation])

    [std::hash] is the concept the factories require of their inputs. *)

Class Hashable (T : Type) : Type := std_hash : T -> Z.

(** [derive<N>(input)] reads its input through [std::hash<T>{}(input)]
    only; how the [N] bytes are then filled from the master key hash is
    implementation-defined, and the library treats the whole as a keyed
    pseudorandom function.  [derive] is that function of the input's
    [std::hash]. *)
Record key_derivation : Type := {
  master_key_hash : Z;
  derive : Z -> hash_value
}.

(** [std::to_string] on a [std::size_t]. *)
Definition to_string (z : Z) : string :=
  NilZero.string_of_uint (N.to_uint (Z.to_N z)).

(** ** trapdoor.hpp *)

Module trapdoor.

Record t : Type := make {
  hash : hash_value;
  key_fingerprint : Z
}.

Definition hash_bits (N : nat) : Z := Z.of_nat N * 8.

Definition compatible_with (a other : t) : bool :=
  key_fingerprint a =? key_fingerprint other.

Definition equals (N : nat) (a other : t) : result approximate_bool :=
  if negb (compatible_with a other) then Throw IncompatibleKey
  else
    let same := heqb N (hash a) (hash other) in
    let fpr := pow2 (- hash_bits N) in
    Ok (approx same fpr d0).

(** The free [operator==] is [lhs.equals(rhs)]; [operator!=] is its
    negation, [!lhs.equals(rhs)]. *)
Definition not_equals (N : nat) (lhs rhs : t) : result approximate_bool :=
  r <- equals N lhs rhs ;;
  Ok (not_ r).

End trapdoor.

Module trapdoor_factory.

Record t : Type := make { key_ : key_derivation }.

Definition key_fingerprint (f : t) : Z := master_key_hash (key_ f).

Definition create {T : Type} {HT : Hashable T} (f : t) (v : T) : trapdoor.t :=
  let hash := derive (key_ f) (std_hash v) in
  trapdoor.make hash (key_fingerprint f).

End trapdoor_factory.

(** ** sets/boolean_set.hpp *)

Module sets.

Module boolean_set.

Record t : Type := make {
  hash : hash_value;
  key_fingerprint : Z
}.

Definition verify_compatible (a other : t) : result unit :=
  if negb (key_fingerprint a =? key_fingerprint other)
  then Throw IncompatibleKey
  else Ok tt.

(** [operator|], [operator&], [operator^], [operator~], [operator-]. *)
Definition union (N : nat) (a other : t) : result t :=
  _ <- verify_compatible a other ;;
  Ok (make (hor N (hash a) (hash other)) (key_fingerprint a)).

Definition intersection (N : nat) (a other : t) : result t :=
  _ <- verify_compatible a other ;;
  Ok (make (hand N (hash a) (hash other)) (key_fingerprint a)).

Definition symmetric_difference (N : nat) (a other : t) : result t :=
  _ <- verify_compatible a other ;;
  Ok (make (hxor N (hash a) (hash other)) (key_fingerprint a)).

Definition complement (N : nat) (a : t) : t :=
  make (hnot N (hash a)) (key_fingerprint a).

Definition difference (N : nat) (a other : t) : result t :=
  intersection N a (complement N other).

Definition contains (N : nat) (a : t) (elem : trapdoor.t) : result approximate_bool :=
  if negb (trapdoor.key_fingerprint elem =? key_fingerprint a)
  then Throw IncompatibleKey
  else
    let masked := hand N (hash a) (trapdoor.hash elem) in
    let all_bits_set := heqb N masked (trapdoor.hash elem) in
    let fpr := half in
    Ok (approx all_bits_set fpr d0).

Definition subset_of (N : nat) (a other : t) : result approximate_bool :=
  _ <- verify_compatible a other ;;
  let is_subset := heqb N (hand N (hash a) (hash other)) (hash a) in
  let fpr := half in
  Ok (approx is_subset fpr d0).

Definition empty (N : nat) (a : t) : approximate_bool :=
  approx (is_zero N (hash a)) (pow2 (- (Z.of_nat N * 8))) d0.

Definition universal (N : nat) (a : t) : approximate_bool :=
  approx (is_ones N (hash a)) (pow2 (- (Z.of_nat N * 8))) d0.

Definition equals (N : nat) (a other : t) : result approximate_bool :=
  _ <- verify_compatible a other ;;
  let same := heqb N (hash a) (hash other) in
  let fpr := pow2 (- (Z.of_nat N * 8)) in
  Ok (approx same fpr d0).

End boolean_set.

Module boolean_set_factory.

Record t : Type := make {
  trapdoor_factory_ : trapdoor_factory.t;
  num_hashes_ : Z
}.

Definition empty (N : nat) (f : t) : boolean_set.t :=
  boolean_set.make (zero_hash N) (trapdoor_factory.key_fingerprint (trapdoor_factory_ f)).

Definition universal (N : nat) (f : t) : boolean_set.t :=
  boolean_set.make (repeat 255 N)
                   (trapdoor_factory.key_fingerprint (trapdoor_factory_ f)).

(** The inner loop of [singleton]: for every byte [j] whose source byte
    has its low bit set, [result.data[j] |= (1 << (i % 8))]. *)
Definition set_bits (N : nat) (i : Z) (src result : hash_value) : hash_value :=
  map (fun j => if Z.land (byte_at src j) 1 =? 0
                then byte_at result j
                else Z.lor (byte_at result j) (Z.shiftl 1 (i mod 8)))
      (seq 0 N).

Section singleton.
Context {T : Type} {HT : Hashable T} {HS : Hashable string}.

Definition singleton_hash (N : nat) (f : t) (v : T) : hash_value :=
  fold_left
    (fun result (i : nat) =>
       let modified_value :=
         (to_string (Z.of_nat i) ++ to_string (std_hash v))%string in
       let td := trapdoor_factory.create (trapdoor_factory_ f) modified_value in
       set_bits N (Z.of_nat i) (trapdoor.hash td) result)
    (seq 0 (Z.to_nat (num_hashes_ f)))
    (zero_hash N).

Definition singleton (N : nat) (f : t) (v : T) : boolean_set.t :=
  boolean_set.make (singleton_hash N f v)
                   (trapdoor_factory.key_fingerprint (trapdoor_factory_ f)).

Definition from_collection (N : nat) (f : t) (values : list T)
  : result boolean_set.t :=
  fold_left
    (fun acc v => result <- acc ;; boolean_set.union N result (singleton N f v))
    values
    (Ok (empty N f)).
End singleton.

End boolean_set_factory.

(** ** sets/symmetric_difference_set.hpp *)

Module symmetric_difference_set.

Record t : Type := make {
  hash : hash_value;
  key_fingerprint : Z
}.

(** The default constructor: [hash_{}], [key_fingerprint_{0}]. *)
Definition default (N : nat) : t := make (zero_hash N) 0.

Definition verify_compatible (a other : t) : result unit :=
  if negb (key_fingerprint a =? 0) && negb (key_fingerprint other =? 0)
     && negb (key_fingerprint a =? key_fingerprint other)
  then Throw IncompatibleKey
  else Ok tt.

Definition empty (N : nat) (a : t) : approximate_bool :=
  approx (is_zero N (hash a)) (pow2 (- (Z.of_nat N * 8))) d0.

(** [operator^]. *)
Definition xor (N : nat) (a other : t) : result t :=
  _ <- verify_compatible a other ;;
  Ok (make (hxor N (hash a) (hash other)) (key_fingerprint a)).

(** [operator^=] on a trapdoor; the updated object is returned. *)
Definition xor_assign (N : nat) (a : t) (elem : trapdoor.t) : result t :=
  if negb (trapdoor.key_fingerprint elem =? key_fingerprint a)
     && negb (key_fingerprint a =? 0)
  then Throw IncompatibleKey
  else
    let kf := if key_fingerprint a =? 0
              then trapdoor.key_fingerprint elem
              else key_fingerprint a in
    Ok (make (hxor N (hash a) (trapdoor.hash elem)) kf).

Definition equals (N : nat) (a other : t) : result approximate_bool :=
  _ <- verify_compatible a other ;;
  let same := heqb N (hash a) (hash other) in
  let fpr := pow2 (- (Z.of_nat N * 8)) in
  Ok (approx same fpr d0).

End symmetric_difference_set.

Module symmetric_difference_set_factory.

Record t : Type := make { trapdoor_factory_ : trapdoor_factory.t }.

Definition empty (N : nat) (f : t) : symmetric_difference_set.t :=
  symmetric_difference_set.default N.

Definition singleton {T : Type} {HT : Hashable T} (f : t) (v : T)
  : symmetric_difference_set.t :=
  let td := trapdoor_factory.create (trapdoor_factory_ f) v in
  symmetric_difference_set.make (trapdoor.hash td) (trapdoor.key_fingerprint td).

Definition from_unique {T : Type} {HT : Hashable T} (N : nat) (f : t)
  (values : list T)
  : result symmetric_difference_set.t :=
  fold_left
    (fun acc v =>
       result <- acc ;;
       let td := trapdoor_factory.create (trapdoor_factory_ f) v in
       symmetric_difference_set.xor_assign N result td)
    values
    (Ok (symmetric_difference_set.default N)).

End symmetric_difference_set_factory.

End sets.

(** ** The payload type of the homomorphic operations

    [additive_trapdoor<T, N>] and [secure_aggregator<T, N>] use four
    things of their numeric type [T]: the value initialisation [T{}],
    [operator+], [operator*] with an [int], and [static_cast<double>].
    An operation that the C++ standard leaves undefined at its operands
    (signed overflow) is [Undefined]. *)

Class Numeric (T : Type) : Type := {
  payload_zero : T;
  payload_add : T -> T -> result T;
  payload_scale : T -> Z -> result T;
  payload_to_double : T -> double
}.

(** [int] on the targets of the library: 32 bits. *)
Definition int_min : Z := - 2 ^ 31.
Definition int_max : Z := 2 ^ 31 - 1.
Definition is_int (z : Z) : bool := (int_min <=? z) && (z <=? int_max).
Definition checked_int (z : Z) : result Z :=
  if is_int z then Ok z else Undefined.

(** [T = int]: overflow is undefined. *)
Definition int_numeric : Numeric Z := {|
  payload_zero := 0;
  payload_add := fun a b => checked_int (a + b);
  payload_scale := fun a scalar => checked_int (a * scalar);
  payload_to_double := of_Z
|}.

(** [T = unsigned]: arithmetic modulo [2^32]; the [int] operand of
    [operator*] is converted to [unsigned] first. *)
Definition unsigned_numeric : Numeric Z := {|
  payload_zero := 0;
  payload_add := fun a b => Ok ((a + b) mod 2 ^ 32);
  payload_scale := fun a scalar => Ok ((a * (scalar mod 2 ^ 32)) mod 2 ^ 32);
  payload_to_double := of_Z
|}.

(** [T = double]: the [int] operand is converted to [double] first. *)
Definition double_numeric : Numeric double := {|
  payload_zero := d0;
  payload_add := fun a b => Ok (dadd a b);
  payload_scale := fun a scalar => Ok (dmul a (of_Z scalar));
  payload_to_double := fun x => x
|}.

(** ** operations/homomorphic.hpp *)

Module operations.

Module additive_trapdoor.

Record t (T : Type) : Type := make {
  hash : hash_value;
  key_fingerprint : Z;
  encrypted_value : T
}.

Arguments make {T} _ _ _.
Arguments hash {T} _.
Arguments key_fingerprint {T} _.
Arguments encrypted_value {T} _.

Section payload.
Context {T : Type} {HN : Numeric T}.

(** The constructor [additive_trapdoor(td, value)]. *)
Definition of_trapdoor (td : trapdoor.t) (v : T) : t T :=
  make (trapdoor.hash td) (trapdoor.key_fingerprint td) v.

(** [operator+]. *)
Definition add (N : nat) (a other : t T) : result (t T) :=
  if negb (key_fingerprint a =? key_fingerprint other)
  then Throw IncompatibleKey
  else
    let combined_hash := hxor N (hash a) (hash other) in
    sum <- payload_add (encrypted_value a) (encrypted_value other) ;;
    Ok (of_trapdoor (trapdoor.make combined_hash (key_fingerprint a)) sum).

(** [operator*(int scalar)]: [std::abs(INT_MIN)] is undefined; otherwise
    the loop [for (i = 1; i < std::abs(scalar); ++i)] runs
    [|scalar| - 1] times, and not at all when [scalar] is 0. *)
Definition mul (N : nat) (a : t T) (scalar : Z) : result (t T) :=
  if scalar =? int_min then Undefined
  else
    let scaled_hash :=
      Nat.iter (Z.to_nat (Z.abs scalar - 1))
               (fun scaled_hash => hxor N scaled_hash (hash a))
               (hash a) in
    scaled_value <- payload_scale (encrypted_value a) scalar ;;
    Ok (of_trapdoor (trapdoor.make scaled_hash (key_fingerprint a)) scaled_value).
End payload.

End additive_trapdoor.

Module secure_aggregator.

Record t : Type := make { factory_ : trapdoor_factory.t }.

Section aggregate.
Context {T : Type} {HT : Hashable T} {HN : Numeric T}.

(** The vector [trapdoors] that [sum] builds, one per value. *)
Definition trapdoors (a : t) (values : list T) : list (additive_trapdoor.t T) :=
  map (fun val =>
         additive_trapdoor.of_trapdoor (trapdoor_factory.create (factory_ a) val) val)
      values.

(** The homomorphic addition inside [sum]: [trapdoors[0]] plus the rest,
    in order.  The vector is not empty where [sum] runs this. *)
Definition homomorphic_sum (N : nat) (tds : list (additive_trapdoor.t T))
  : result (additive_trapdoor.t T) :=
  match tds with
  | [] => Undefined
  | first :: rest =>
      fold_left (fun acc td => result <- acc ;; additive_trapdoor.add N result td)
                rest (Ok first)
  end.

(** [std::accumulate(values.begin(), values.end(), T{})]. *)
Definition accumulate (values : list T) : result T :=
  fold_left (fun acc val => init <- acc ;; payload_add init val)
            values (Ok payload_zero).

Definition sum (N : nat) (a : t) (values : list T) : result (approximate_value T) :=
  match values with
  | [] => Ok (approx1 payload_zero d0)
  | _ =>
      _ <- homomorphic_sum N (trapdoors a values) ;;
      sum <- accumulate values ;;
      let error_rate := literal (1 # 1000) in
      Ok (approx1 sum error_rate)
  end.

Definition average (N : nat) (a : t) (values : list T)
  : result (approximate_value double) :=
  match values with
  | [] => Ok (approx1 d0 d0)
  | _ =>
      sum_result <- sum N a values ;;
      let avg := ddiv (payload_to_double (value sum_result))
                      (of_Z (Z.of_nat (List.length values))) in
      Ok (approx1 avg (error_rate sum_result))
  end.
End aggregate.

End secure_aggregator.

Module threshold_scheme.

Record t : Type := make {
  threshold_ : Z;
  total_ : Z
}.

(** The constructor [threshold_scheme(k, n)]. *)
Definition create (k n : Z) : result t :=
  if k >? n then Throw InvalidThreshold
  else Ok (make k n).

Section shares.
(** [std::rand] and its hidden state. *)
Context {G : Type} (rand : G -> Z * G).

(** One share: [share.data[j] = std::rand() & 0xFF] for [j < N]. *)
Fixpoint random_share (N : nat) (g : G) : hash_value * G :=
  match N with
  | O => ([], g)
  | S N' =>
      let (r, g1) := rand g in
      let (rest, g2) := random_share N' g1 in
      (Z.land r 255 :: rest, g2)
  end.

Fixpoint random_shares (N : nat) (count : nat) (g : G)
  : list hash_value * G :=
  match count with
  | O => ([], g)
  | S count' =>
      let (share, g1) := random_share N g in
      let (rest, g2) := random_shares N count' g1 in
      (share :: rest, g2)
  end.

(** [create_shares]: [total_ - 1] random shares ([std::size_t]
    arithmetic), then the last share, folded over
    [i < threshold_ - 1 && i < shares.size()]. *)
Definition create_shares (N : nat) (s : t) (td : trapdoor.t) (g : G)
  : list hash_value * G :=
  let original_hash := trapdoor.hash td in
  let (shares, g') :=
    random_shares N (Z.to_nat (wrap64 (total_ s - 1))) g in
  let last_share :=
    fold_left
      (fun last_share i => hxor N last_share (nth i shares (zero_hash N)))
      (seq 0 (Nat.min (Z.to_nat (wrap64 (threshold_ s - 1)))
                      (List.length shares)))
      original_hash in
  (shares ++ [last_share], g').
End shares.

(** [reconstruct]: XOR of the first [threshold_] shares. *)
Definition reconstruct (N : nat) (s : t) (shares : list hash_value)
  (key_fingerprint : Z) : result trapdoor.t :=
  if Z.of_nat (List.length shares) <? threshold_ s
  then Throw InsufficientShares
  else
    match shares with
    | [] => Undefined
    | first :: _ =>
        let result :=
          fold_left
            (fun result i => hxor N result (nth i shares (zero_hash N)))
            (seq 1 (Z.to_nat (threshold_ s) - 1))
            first in
        Ok (trapdoor.make result key_fingerprint)
    end.

(** [threshold_operation]: the participants for which [operation] holds
    are counted against [threshold_]. *)
Definition threshold_operation (s : t) (participants : list trapdoor.t)
  (operation : trapdoor.t -> bool) : approximate_bool :=
  if Z.of_nat (List.length participants) <? threshold_ s
  then approx false d0 d1
  else
    let agreements :=
      fold_left (fun agreements p => if operation p then agreements + 1 else agreements)
                participants 0 in
    let success := threshold_ s <=? agreements in
    let confidence :=
      ddiv (of_Z agreements) (of_Z (Z.of_nat (List.length participants))) in
    approx success (dsub d1 confidence) d0.

End threshold_scheme.

(** ** operations/similarity.hpp *)

Module minhash.

Record t : Type := make {
  factory_ : trapdoor_factory.t;
  num_hashes_ : Z
}.

Record signature : Type := make_signature {
  values : list Z;
  key_fingerprint : Z
}.

Definition uint32_max : Z := 2 ^ 32 - 1.

(** [signature(k, kf)]: [k] copies of [numeric_limits<uint32_t>::max()]. *)
Definition new_signature (k kf : Z) : signature :=
  make_signature (repeat uint32_max (Z.to_nat k)) kf.

(** The first [min 4 N] bytes of a hash, big-endian, in a [uint32_t]. *)
Definition extract32 (N : nat) (h : hash_value) : Z :=
  fold_left
    (fun hash_val j => Z.lor (Z.shiftl hash_val 8 mod 2 ^ 32) (byte_at h j))
    (seq 0 (Nat.min 4 N))
    0.

(** [sig.values[i] = v]. *)
Fixpoint assign (l : list Z) (i : nat) (v : Z) : list Z :=
  match l, i with
  | [], _ => []
  | _ :: rest, O => v :: rest
  | x :: rest, S i' => x :: assign rest i' v
  end.

Section generate.
Context {T : Type} {HT : Hashable T} {HS : Hashable string}.

Definition generate_signature (N : nat) (m : t) (vals : list T) : signature :=
  let sig := new_signature (num_hashes_ m)
                           (trapdoor_factory.key_fingerprint (factory_ m)) in
  fold_left
    (fun sig val =>
       fold_left
         (fun sig (i : nat) =>
            let salted_val :=
              (to_string (Z.of_nat i) ++ to_string (std_hash val))%string in
            let td := trapdoor_factory.create (factory_ m) salted_val in
            let hash_val := extract32 N (trapdoor.hash td) in
            make_signature
              (assign (values sig) i (Z.min (nth i (values sig) 0) hash_val))
              (key_fingerprint sig))
         (seq 0 (Z.to_nat (num_hashes_ m)))
         sig)
    vals
    sig.
End generate.

(** The number of indices [i < sig_a.values.size()] at which the two
    signatures agree (read after the size check). *)
Definition count_matches (a b : list Z) : Z :=
  fold_left
    (fun matches i => if nth i a 0 =? nth i b 0 then matches + 1 else matches)
    (seq 0 (List.length a))
    0.

Definition estimate_similarity (lm : libm) (m : t) (sig_a sig_b : signature)
  : result (approximate_value double) :=
  if negb (key_fingerprint sig_a =? key_fingerprint sig_b)
  then Throw IncompatibleKey
  else if negb (List.length (values sig_a) =? List.length (values sig_b))%nat
  then Throw SizeMismatch
  else
    let matches := count_matches (values sig_a) (values sig_b) in
    let similarity :=
      ddiv (of_Z matches) (of_Z (Z.of_nat (List.length (values sig_a)))) in
    let error :=
      sqrt lm (ddiv (dmul similarity (dsub d1 similarity))
                    (of_Z (num_hashes_ m))) in
    Ok (approx1 similarity error).

End minhash.

Module lsh_index.

Record t : Type := make {
  num_bands_ : Z;
  band_size_ : Z
}.

Record lsh_signature : Type := make_signature {
  bands : list Z;
  key_fingerprint : Z
}.

(** The band-matching loop reads [sig_b.bands[i]] for every
    [i < sig_a.bands.size()]. *)
Definition count_matches (a b : list Z) : result Z :=
  if (List.length b <? List.length a)%nat then Undefined
  else
    Ok (fold_left
          (fun matches i => if nth i a 0 =? nth i b 0 then matches + 1 else matches)
          (seq 0 (List.length a))
          0).

Definition are_similar (lm : libm) (idx : t) (sig_a sig_b : lsh_signature)
  (threshold : double) : result approximate_bool :=
  if negb (key_fingerprint sig_a =? key_fingerprint sig_b)
  then Ok (approx false d0 d1)
  else
    matches <- count_matches (bands sig_a) (bands sig_b) ;;
    let match_ratio := ddiv (of_Z matches) (of_Z (num_bands_ idx)) in
    let estimated_similarity :=
      pow lm
          (dsub d1 (pow lm (dsub d1 match_ratio)
                           (ddiv d1 (of_Z (num_bands_ idx)))))
          (ddiv d1 (of_Z (band_size_ idx))) in
    let is_similar := dgeb estimated_similarity threshold in
    let error_rate := ddiv d1 (sqrt lm (of_Z (num_bands_ idx))) in
    Ok (approx is_similar error_rate d0).

End lsh_index.

(** ** operations/homomorphic.hpp: [compound_trapdoor] *)

Module compound_trapdoor.

Record t : Type := make {
  components_ : list trapdoor.t;
  key_fingerprint_ : Z
}.

(** The constructor [compound_trapdoor(key_fingerprint)]. *)
Definition create (key_fingerprint : Z) : t := make [] key_fingerprint.

Definition add_component (c : t) (td : trapdoor.t) : result t :=
  if negb (trapdoor.key_fingerprint td =? key_fingerprint_ c)
  then Throw IncompatibleKey
  else Ok (make (components_ c ++ [td]) (key_fingerprint_ c)).

Definition multiply (N : nat) (c : t) : result trapdoor.t :=
  match components_ c with
  | [] => Throw EmptyCompound
  | first :: _ =>
      let result :=
        fold_left
          (fun result i =>
             hand N result
                  (trapdoor.hash (nth i (components_ c) (trapdoor.make [] 0))))
          (seq 1 (List.length (components_ c) - 1))
          (trapdoor.hash first) in
      Ok (trapdoor.make result (key_fingerprint_ c))
  end.

End compound_trapdoor.

(** ** operations/batch_ops.hpp *)

Module batch_operations.

(** [std::transform] over two ranges into a [back_inserter]; an exception
    of the callback ends it.  The second range is read as far as the first
    one goes. *)
Fixpoint transform2 {A B C : Type} (f : A -> B -> result C)
  (left : list A) (right : list B) : result (list C) :=
  match left, right with
  | [], _ => Ok []
  | _ :: _, [] => Undefined
  | l :: left', r :: right' =>
      c <- f l r ;;
      rest <- transform2 f left' right' ;;
      Ok (c :: rest)
  end.

Fixpoint transform1 {A C : Type} (f : A -> result C) (l : list A)
  : result (list C) :=
  match l with
  | [] => Ok []
  | x :: l' =>
      c <- f x ;;
      rest <- transform1 f l' ;;
      Ok (c :: rest)
  end.

Definition batch_equals (N : nat) (left right : list trapdoor.t)
  : result (list approximate_bool) :=
  if negb (List.length left =? List.length right)%nat then Throw SizeMismatch
  else transform2 (trapdoor.equals N) left right.

Definition batch_contains (N : nat) (set : sets.boolean_set.t)
  (elements : list trapdoor.t) : result (list approximate_bool) :=
  transform1 (sets.boolean_set.contains N set) elements.

End batch_operations.

Module pipeline.

Record t : Type := make { factory_ : trapdoor_factory.t }.

Definition filter_to_set {T : Type} {HT : Hashable T} (N : nat) (p : t)
  (values : list T) (pred : T -> bool)
  : result sets.symmetric_difference_set.t :=
  fold_left
    (fun acc v =>
       result <- acc ;;
       if pred v
       then sets.symmetric_difference_set.xor_assign
              N result (trapdoor_factory.create (factory_ p) v)
       else Ok result)
    values
    (Ok (sets.symmetric_difference_set.default N)).

End pipeline.

End operations.

(** ** serialization/binary_format.hpp *)

Module serialization.

(** The key fingerprint is written as the object representation of a
    [std::size_t]: eight bytes in the byte order of the machine. *)
Inductive byte_order : Type := LittleEndian | BigEndian.

Definition size_t_bytes (bo : byte_order) (kf : Z) : list Z :=
  let le := map (fun i => (kf / 256 ^ Z.of_nat i) mod 256) (seq 0 8) in
  match bo with
  | LittleEndian => le
  | BigEndian => rev le
  end.

Definition size_t_of_bytes (bo : byte_order) (bs : list Z) : Z :=
  let le := match bo with LittleEndian => bs | BigEndian => rev bs end in
  fold_right (fun b acc => b + 256 * acc) 0 le.

(** [std::memcpy] of [N] bytes out of a hash. *)
Definition serialize_hash (N : nat) (h : hash_value) : list Z :=
  map (byte_at h) (seq 0 N).

Definition serialize_fields (bo : byte_order) (N : nat) (h : hash_value) (kf : Z)
  : list Z :=
  serialize_hash N h ++ size_t_bytes bo kf.

Definition serialize_trapdoor (bo : byte_order) (N : nat) (td : trapdoor.t)
  : list Z :=
  serialize_fields bo N (trapdoor.hash td) (trapdoor.key_fingerprint td).

Definition serialize_sym_diff_set (bo : byte_order) (N : nat)
  (s : sets.symmetric_difference_set.t) : list Z :=
  serialize_fields bo N (sets.symmetric_difference_set.hash s)
                   (sets.symmetric_difference_set.key_fingerprint s).

Definition serialize_boolean_set (bo : byte_order) (N : nat)
  (s : sets.boolean_set.t) : list Z :=
  serialize_fields bo N (sets.boolean_set.hash s)
                   (sets.boolean_set.key_fingerprint s).

Definition deserialize_hash (N : nat) (bytes : list Z) : result hash_value :=
  if (List.length bytes <? N)%nat then Throw TruncatedInput
  else Ok (firstn N bytes).

(** The eight bytes at [bytes.data() + N]. *)
Definition read_size_t (bo : byte_order) (N : nat) (bytes : list Z) : Z :=
  size_t_of_bytes bo (firstn 8 (skipn N bytes)).

Definition deserialize_trapdoor (bo : byte_order) (N : nat) (bytes : list Z)
  : result trapdoor.t :=
  if (List.length bytes <? N + 8)%nat then Throw TruncatedInput
  else
    hash <- deserialize_hash N (firstn N bytes) ;;
    let kf := read_size_t bo N bytes in
    Ok (trapdoor.make hash kf).

Definition deserialize_sym_diff_set (bo : byte_order) (N : nat) (bytes : list Z)
  : result sets.symmetric_difference_set.t :=
  if (List.length bytes <? N + 8)%nat then Throw TruncatedInput
  else
    hash <- deserialize_hash N (firstn N bytes) ;;
    let kf := read_size_t bo N bytes in
    Ok (sets.symmetric_difference_set.make hash kf).

Definition deserialize_boolean_set (bo : byte_order) (N : nat) (bytes : list Z)
  : result sets.boolean_set.t :=
  if (List.length bytes <? N + 8)%nat then Throw TruncatedInput
  else
    hash <- deserialize_hash N (firstn N bytes) ;;
    let kf := read_size_t bo N bytes in
    Ok (sets.boolean_set.make hash kf).

End serialization.

(** * Vocabulary of the statements *)

(** Rounding to the grid of spacing [2^e]. *)
Definition on_grid (e : Z) (q : Q) : Q := (inject_Z (rne (q / 2 ^ e)) * 2 ^ e)%Q.

(** [q] is a number of the binary64 grid: an integer of fewer than 54
    bits times a power of two no finer than [2^-1074]. *)
Definition representable (q : Q) : Prop :=
  exists m e : Z, Z.abs m < 2 ^ 53 /\ -1074 <= e /\ (q == inject_Z m * 2 ^ e)%Q.

(** A rate is admissible when it is a finite number of [[0, 1]]. *)
Definition in_unit (x : double) : bool :=
  match x with
  | Fin q => Qle_bool 0 q && Qle_bool q 1
  | _ => false
  end.

(** An approximate value keeps the invariant of its type when both rates
    are admissible. *)
Definition valid_rates {T : Type} (a : approximate_value T) : bool :=
  in_unit (false_positive_rate a) && in_unit (false_negative_rate a).

(** [x <= y] between two finite numbers. *)
Definition dle (x y : double) : Prop :=
  match x, y with
  | Fin p, Fin q => (p <= q)%Q
  | _, _ => False
  end.

(** A test that may raise returned, and its value is true. *)
Definition holds (r : result approximate_bool) : Prop :=
  exists x, r = Ok x /\ value x = true.


(** All [N] bytes of a hash lie in [[0, bound)]. *)
Definition bytes_below (N : nat) (bound : Z) (h : hash_value) : Prop :=
  forall j, (j < N)%nat -> 0 <= byte_at h j < bound.

(** The reading of [contains] that the specification gives, in its words:
    "compute the singleton mask that [t] would have set (reusing [t]'s
    hash via the same per-byte rule); return
    [value = (mask & a.h) == mask]".  It is stated here to be compared
    with [sets.boolean_set.contains]. *)
Definition spec_singleton_mask (N : nat) (m : Z) (t : trapdoor.t) : hash_value :=
  fold_left
    (fun result (i : nat) =>
       sets.boolean_set_factory.set_bits N (Z.of_nat i) (trapdoor.hash t) result)
    (seq 0 (Z.to_nat m))
    (zero_hash N).

Definition spec_contains_value (N : nat) (m : Z) (a : sets.boolean_set.t)
  (t : trapdoor.t) : bool :=
  let mask := spec_singleton_mask N m t in
  heqb N (hand N mask (sets.boolean_set.hash a)) mask.

(** ** A sample platform

    Concrete stand-ins for what the library leaves to the platform, used
    to run the functions on explicit inputs: [std::hash] of an integer is
    the integer, [std::hash] of a string is its length, and the keyed
    derivation fills byte [i] with [key + input + i]. *)

Definition hash_Z : Hashable Z := fun z => wrap64 z.
Definition hash_string : Hashable string := fun s => Z.of_nat (String.length s).

Definition sample_key (N : nat) (key : Z) : key_derivation :=
  {| master_key_hash := key;
     derive := fun h => map (fun i => (key + h + Z.of_nat i) mod 256) (seq 0 N) |}.

Definition sample_factory (N : nat) (key : Z) : trapdoor_factory.t :=
  trapdoor_factory.make (sample_key N key).

(** A sample <cmath>: [sqrt] taken down to a multiple of [2^-32 / den]
    and [pow] at a non-zero finite base and an integral exponent, both
    then rounded to binary64; NaN where the sample has no answer. *)
Definition sample_sqrt (x : double) : double :=
  match x with
  | Fin q =>
      if Qnegative q then NaN
      else round64 (Z.sqrt (Qnum q * Z.pos (Qden q) * 2 ^ 64) # (Qden q * 2 ^ 32))
  | Inf false => Inf false
  | _ => NaN
  end.

Definition sample_pow (x y : double) : double :=
  match x, y with
  | Fin b, Fin e =>
      if negb (Qzero b) && (Z.pos (Qden e) =? 1) then round64 (Qpower b (Qnum e))
      else NaN
  | _, _ => NaN
  end.

Definition sample_libm : libm := {| sqrt := sample_sqrt; pow := sample_pow |}.

(** A sample [std::rand]: a linear congruential generator whose state is
    the last number drawn. *)
Definition sample_rand (g : Z) : Z * Z :=
  let next := (g * 1103515245 + 12345) mod 2 ^ 31 in (next, next).

(** * Theory *)

(** ** Rounding to binary64 *)

Lemma rne_comp (x y : Q) : (x == y)%Q -> rne x = rne y.
Proof.
  intros E. unfold rne. rewrite (Qfloor_comp x y E).
  assert (C : (x - inject_Z (Qfloor y) ?= 1 # 2)%Q
              = (y - inject_Z (Qfloor y) ?= 1 # 2)%Q)
    by (apply Qcompare_comp; [now rewrite E | reflexivity]).
  now rewrite C.
Qed.

Lemma rne_floor (x : Q) : Qfloor x <= rne x <= Qfloor x + 1.
Proof.
  unfold rne. destruct (_ ?= _)%Q; [destruct (Z.even _)| |]; lia.
Qed.

Lemma rne_mono (x y : Q) : (x <= y)%Q -> rne x <= rne y.
Proof.
  intros L. pose proof (Qfloor_resp_le x y L) as F.
  destruct (Z.eq_dec (Qfloor x) (Qfloor y)) as [E|D].
  - unfold rne. rewrite E.
    destruct (Qcompare_spec (x - inject_Z (Qfloor y)) (1 # 2)) as [Ex|Lx|Gx];
      destruct (Qcompare_spec (y - inject_Z (Qfloor y)) (1 # 2)) as [Ey|Ly|Gy];
      try destruct (Z.even (Qfloor y)); try lia; exfalso; lra.
  - pose proof (rne_floor x). pose proof (rne_floor y). lia.
Qed.

Lemma rne_Z (z : Z) : rne (inject_Z z) = z.
Proof.
  unfold rne. rewrite Qfloor_Z.
  destruct (Qcompare_spec (inject_Z z - inject_Z z) (1 # 2)) as [E|L|G];
    [exfalso; lra | reflexivity | exfalso; lra].
Qed.

Lemma rne_error (x : Q) :
  (inject_Z (rne x) - (1 # 2) <= x <= inject_Z (rne x) + (1 # 2))%Q.
Proof.
  pose proof (Qfloor_le x) as L. pose proof (Qlt_floor x) as U.
  rewrite inject_Z_plus in U. change (inject_Z 1) with 1%Q in U. unfold rne.
  destruct (Qcompare_spec (x - inject_Z (Qfloor x)) (1 # 2)) as [E|Lt|Gt];
    [destruct (Z.even (Qfloor x))| |]; rewrite ?inject_Z_plus;
    change (inject_Z 1) with 1%Q; lra.
Qed.

Lemma two_pos (e : Z) : (0 < 2 ^ e)%Q.
Proof. apply Qpower_0_lt. reflexivity. Qed.

Lemma two_plus (a b : Z) : (2 ^ (a + b) == 2 ^ a * 2 ^ b)%Q.
Proof. apply Qpower_plus. discriminate. Qed.

Lemma two_succ (a : Z) : (2 ^ (a + 1) == 2 * 2 ^ a)%Q.
Proof. rewrite two_plus. change (2 ^ 1)%Q with 2%Q. ring. Qed.

Lemma two_pred (a : Z) : (2 * 2 ^ (a - 1) == 2 ^ a)%Q.
Proof. rewrite <- two_succ. now replace (a - 1 + 1) with a by lia. Qed.

Lemma two_Z (a : Z) : 0 <= a -> (2 ^ a == inject_Z (2 ^ a))%Q.
Proof. intros H. now rewrite Zpower_Qpower. Qed.

Lemma two_le (a b : Z) : a <= b -> (2 ^ a <= 2 ^ b)%Q.
Proof.
  intros H. replace b with (a + (b - a)) by lia. rewrite two_plus.
  assert (1 <= 2 ^ (b - a))%Q.
  { rewrite two_Z by lia. change 1%Q with (inject_Z 1). rewrite <- Zle_Qle.
    assert (0 < 2 ^ (b - a)) by (apply Z.pow_pos_nonneg; lia). lia. }
  pose proof (two_pos a). nra.
Qed.

Lemma two_lt (a b : Z) : a < b -> (2 ^ a < 2 ^ b)%Q.
Proof.
  intros H. apply Qlt_le_trans with (2 ^ (a + 1))%Q; [|apply two_le; lia].
  rewrite two_succ. pose proof (two_pos a). lra.
Qed.

Lemma two_lt_inv (a b : Z) : (2 ^ a < 2 ^ b)%Q -> a < b.
Proof.
  intros H. destruct (Z_lt_le_dec a b) as [L|G]; [exact L|].
  apply two_le in G. lra.
Qed.

Lemma Qlog2_spec (q : Q) :
  (0 < q)%Q -> (2 ^ Qlog2 q <= q < 2 ^ (Qlog2 q + 1))%Q.
Proof.
  intros Hq. destruct q as [n d]. unfold Qlog2. cbn [Qnum Qden].
  assert (Hn : 0 < n) by (unfold Qlt in Hq; cbn in Hq; lia).
  destruct (Z.log2_spec n Hn) as [An Bn].
  destruct (Z.log2_spec (Z.pos d) (Pos2Z.is_pos d)) as [Ad Bd].
  pose proof (Z.log2_nonneg n) as Na. pose proof (Z.log2_nonneg (Z.pos d)) as Nb.
  set (a := Z.log2 n) in *. set (b := Z.log2 (Z.pos d)) in *.
  rewrite Z.pow_succ_r in Bn, Bd by assumption.
  rewrite Zle_Qle in An, Ad. rewrite Zlt_Qlt in Bn, Bd.
  rewrite inject_Z_mult in Bn, Bd.
  rewrite <- !two_Z in An, Ad, Bn, Bd by assumption.
  change (inject_Z 2) with 2%Q in *.
  assert (Q : (n # d == inject_Z n / inject_Z (Z.pos d))%Q) by apply Qmake_Qdiv.
  assert (Pd : (0 < inject_Z (Z.pos d))%Q) by (now rewrite <- (Zlt_Qlt 0)).
  pose proof (two_pos a) as Pa. pose proof (two_pos b) as Pb.
  assert (K : (2 ^ (a - b) * 2 ^ b == 2 ^ a)%Q)
    by (rewrite <- two_plus; now replace (a - b + b) with a by lia).
  pose proof (two_pos (a - b)) as Pk.
  assert (V : ((n # d) * inject_Z (Z.pos d) == inject_Z n)%Q)
    by (rewrite Q; field; lra).
  set (x := (n # d)%Q) in *. set (D := inject_Z (Z.pos d)) in *.
  set (M := inject_Z n) in *.
  destruct (Qle_bool (2 ^ (a - b)) x) eqn:E.
  - apply Qle_bool_iff in E. split; [exact E|].
    rewrite two_succ.
    apply Qnot_le_lt. intros C.
    assert (2 * 2 ^ (a - b) * D <= x * D)%Q by (apply Qmult_le_compat_r; lra).
    assert (2 ^ (a - b) * 2 ^ b <= 2 ^ (a - b) * D)%Q
      by (apply Qmult_le_l; lra).
    lra.
  - assert (L : (x < 2 ^ (a - b))%Q).
    { apply Qnot_le_lt. intros C. apply Qle_bool_iff in C. congruence. }
    replace (a - b - 1 + 1) with (a - b) by lia. split; [|exact L].
    pose proof (two_pred (a - b)) as Pr. pose proof (two_pos (a - b - 1)) as Pp.
    apply Qnot_lt_le. intros C.
    assert (x * D < 2 ^ (a - b - 1) * D)%Q by (apply Qmult_lt_compat_r; lra).
    assert (2 ^ (a - b - 1) * D <= 2 ^ (a - b - 1) * (2 * 2 ^ b))%Q
      by (apply Qmult_le_l; lra).
    assert (2 ^ (a - b - 1) * (2 * 2 ^ b) == 2 ^ a)%Q
      by (rewrite <- K, <- Pr; ring).
    lra.
Qed.

Lemma Qlog2_unique (q : Q) (k : Z) :
  (2 ^ k <= q < 2 ^ (k + 1))%Q -> Qlog2 q = k.
Proof.
  intros [L U]. pose proof (two_pos k).
  destruct (Qlog2_spec q) as [L' U']; [lra|].
  assert (k < Qlog2 q + 1) by (apply two_lt_inv; lra).
  assert (Qlog2 q < k + 1) by (apply two_lt_inv; lra).
  lia.
Qed.

Lemma Qlog2_mono (p q : Q) : (0 < p)%Q -> (p <= q)%Q -> Qlog2 p <= Qlog2 q.
Proof.
  intros Hp L. destruct (Qlog2_spec p Hp) as [Lp Up].
  destruct (Qlog2_spec q) as [Lq Uq]; [lra|].
  assert (Qlog2 p < Qlog2 q + 1) by (apply two_lt_inv; lra). lia.
Qed.

Lemma exponent_bounds (q : Q) :
  -1074 <= exponent q /\ Qlog2 q - 52 <= exponent q.
Proof. unfold exponent. lia. Qed.

Lemma exponent_mono (p q : Q) :
  (0 < p)%Q -> (p <= q)%Q -> exponent p <= exponent q.
Proof.
  intros Hp L. pose proof (Qlog2_mono p q Hp L). unfold exponent. lia.
Qed.

Lemma scale_le (p q : Q) (e : Z) : (p <= q)%Q -> (p / 2 ^ e <= q / 2 ^ e)%Q.
Proof.
  intros L. unfold Qdiv. apply Qmult_le_compat_r; [exact L|].
  apply Qlt_le_weak, Qinv_lt_0_compat, two_pos.
Qed.

Lemma scale_two (k e : Z) : (2 ^ (k + e) / 2 ^ e == 2 ^ k)%Q.
Proof. rewrite two_plus. pose proof (two_pos e). field. lra. Qed.

Lemma on_grid_mono (e : Z) (p q : Q) : (p <= q)%Q -> (on_grid e p <= on_grid e q)%Q.
Proof.
  intros L. unfold on_grid. apply Qmult_le_compat_r.
  - rewrite <- Zle_Qle. apply rne_mono. now apply scale_le.
  - apply Qlt_le_weak, two_pos.
Qed.

Lemma on_grid_two (e k : Z) : 0 <= k -> (on_grid e (2 ^ (k + e)) == 2 ^ (k + e))%Q.
Proof.
  intros Hk. unfold on_grid.
  rewrite (rne_comp _ (inject_Z (2 ^ k))), rne_Z.
  - rewrite <- two_Z by exact Hk. now rewrite two_plus.
  - rewrite scale_two. now apply two_Z.
Qed.

Lemma on_grid_error (e : Z) (q : Q) :
  (on_grid e q - 2 ^ e * (1 # 2) <= q <= on_grid e q + 2 ^ e * (1 # 2))%Q.
Proof.
  unfold on_grid. pose proof (rne_error (q / 2 ^ e)) as [L U].
  pose proof (two_pos e) as P.
  assert (E : (q == q / 2 ^ e * 2 ^ e)%Q) by (field; lra).
  set (m := inject_Z (rne (q / 2 ^ e))) in *. set (x := (q / 2 ^ e)%Q) in *.
  assert ((m - (1 # 2)) * 2 ^ e <= x * 2 ^ e)%Q
    by (apply Qmult_le_compat_r; lra).
  assert (x * 2 ^ e <= (m + (1 # 2)) * 2 ^ e)%Q
    by (apply Qmult_le_compat_r; lra).
  split; lra.
Qed.

Lemma round_pos_grid (q : Q) : round_pos q = on_grid (exponent q) q.
Proof. reflexivity. Qed.

Lemma round_pos_mono (p q : Q) :
  (0 < p)%Q -> (p <= q)%Q -> (round_pos p <= round_pos q)%Q.
Proof.
  intros Hp L. rewrite !round_pos_grid.
  pose proof (exponent_mono p q Hp L) as M.
  destruct (Z.eq_dec (exponent p) (exponent q)) as [E|D].
  - rewrite E. now apply on_grid_mono.
  - destruct (Qlog2_spec p Hp) as [_ Up].
    destruct (Qlog2_spec q) as [Lq _]; [lra|].
    pose proof (exponent_bounds p) as [_ Bp].
    assert (Eq : exponent q = Qlog2 q - 52) by (unfold exponent in *; lia).
    apply Qle_trans with (2 ^ (53 + exponent p))%Q.
    + rewrite <- (on_grid_two (exponent p) 53) by lia.
      apply on_grid_mono.
      apply Qle_trans with (2 ^ (Qlog2 p + 1))%Q; [lra|apply two_le; lia].
    + apply Qle_trans with (2 ^ (52 + exponent q))%Q; [apply two_le; lia|].
      rewrite <- (on_grid_two (exponent q) 52) at 1 by lia.
      apply on_grid_mono. replace (52 + exponent q) with (Qlog2 q) by lia.
      exact Lq.
Qed.

Lemma on_grid_nonneg (e : Z) (q : Q) : (0 <= q)%Q -> (0 <= on_grid e q)%Q.
Proof.
  intros H. unfold on_grid. apply Qmult_le_0_compat.
  - change 0%Q with (inject_Z 0). rewrite <- Zle_Qle.
    rewrite <- (rne_Z 0). apply rne_mono.
    apply Qle_shift_div_l; [apply two_pos|]. change (inject_Z 0) with 0%Q. lra.
  - apply Qlt_le_weak, two_pos.
Qed.

Lemma round_pos_nonneg (q : Q) : (0 <= q)%Q -> (0 <= round_pos q)%Q.
Proof. apply on_grid_nonneg. Qed.

Lemma round_q_mono (p q : Q) : (p <= q)%Q -> (round_q p <= round_q q)%Q.
Proof.
  intros L. unfold round_q.
  destruct (Qcompare_spec p 0) as [Ep|Lp|Gp];
    destruct (Qcompare_spec q 0) as [Eq|Lq|Gq]; try lra.
  - pose proof (round_pos_nonneg q). lra.
  - pose proof (round_pos_nonneg (- p)). lra.
  - assert (round_pos (- q) <= round_pos (- p))%Q
      by (apply round_pos_mono; lra). lra.
  - pose proof (round_pos_nonneg (- p)). pose proof (round_pos_nonneg q). lra.
  - now apply round_pos_mono.
Qed.

Lemma Qlog2_comp (p q : Q) : (0 < p)%Q -> (p == q)%Q -> Qlog2 p = Qlog2 q.
Proof.
  intros Hp E. symmetry. apply Qlog2_unique. rewrite <- E.
  now apply Qlog2_spec.
Qed.

Lemma round_pos_comp (p q : Q) :
  (0 < p)%Q -> (p == q)%Q -> (round_pos p == round_pos q)%Q.
Proof.
  intros Hp E. unfold round_pos, exponent. rewrite (Qlog2_comp p q Hp E).
  rewrite (rne_comp (p / _) (q / 2 ^ Z.max (-1074) (Qlog2 q - 52))).
  - reflexivity.
  - now rewrite E.
Qed.

Lemma round_q_comp (p q : Q) : (p == q)%Q -> (round_q p == round_q q)%Q.
Proof.
  intros E. unfold round_q.
  assert (C : (p ?= 0)%Q = (q ?= 0)%Q) by (now apply Qcompare_comp).
  rewrite C. destruct (Qcompare_spec q 0) as [Z|L|G].
  - reflexivity.
  - apply Qopp_comp. apply round_pos_comp; [lra|now rewrite E].
  - apply round_pos_comp; [lra|exact E].
Qed.

(** ** Arithmetic of [double] *)

Lemma fin_ext (p q : Q) : (p == q)%Q -> fin p = fin q.
Proof.
  intros E. unfold fin. f_equal. now apply Qred_complete.
Qed.

Lemma round64_ext (p q : Q) : (p == q)%Q -> round64 p = round64 q.
Proof.
  intros E. unfold round64. pose proof (round_q_comp p q E) as R.
  rewrite (Qleb_comp _ _ (Qeq_refl _) _ _ R).
  rewrite (Qleb_comp _ _ R _ _ (Qeq_refl _)).
  now rewrite (fin_ext _ _ R).
Qed.

Lemma Qle_bool_false (p q : Q) : (q < p)%Q -> Qle_bool p q = false.
Proof.
  intros L. destruct (Qle_bool p q) eqn:E; [|reflexivity].
  apply Qle_bool_iff in E. lra.
Qed.

Lemma two_1024 : (2 < 2 ^ 1024)%Q.
Proof. change 2%Q with (2 ^ 1)%Q at 1. apply two_lt. lia. Qed.

(** A result between two numbers of moderate size is finite, and lies
    between their roundings. *)
Lemma round64_between (a b q : Q) :
  (- 2 ^ 1024 < round_q a)%Q -> (round_q b < 2 ^ 1024)%Q ->
  (a <= q <= b)%Q ->
  exists r, round64 q = Fin r /\ (r == round_q q)%Q /\
            (round_q a <= r <= round_q b)%Q.
Proof.
  intros La Ub [L U].
  pose proof (round_q_mono a q L). pose proof (round_q_mono q b U).
  exists (Qred (round_q q)). unfold round64.
  rewrite !Qle_bool_false by lra.
  split; [reflexivity|]. rewrite Qred_correct. split; [reflexivity|lra].
Qed.

Lemma round_q_0 : (round_q 0 == 0)%Q.
Proof. reflexivity. Qed.

Lemma round_q_1 : (round_q 1 == 1)%Q.
Proof. vm_compute. reflexivity. Qed.

Lemma round_q_2 : (round_q 2 == 2)%Q.
Proof. vm_compute. reflexivity. Qed.

Lemma round_q_above_1 : (round_q (1 + 2 ^ (-53)) == 1)%Q.
Proof. vm_compute. reflexivity. Qed.

Lemma round64_1 : round64 1 = d1.
Proof. vm_compute. reflexivity. Qed.

Lemma round64_0 : round64 0 = d0.
Proof. vm_compute. reflexivity. Qed.

Lemma round64_unit (q : Q) :
  (0 <= q <= 1)%Q ->
  exists r, round64 q = Fin r /\ (r == round_q q)%Q /\ (0 <= r <= 1)%Q.
Proof.
  intros H. pose proof two_1024.
  destruct (round64_between 0 1 q) as (r & E & R & B); try exact H.
  - rewrite round_q_0. lra.
  - rewrite round_q_1. lra.
  - exists r. rewrite round_q_0, round_q_1 in B. auto.
Qed.

(** Numbers of the grid are their own rounding. *)
Lemma round_pos_representable (m e : Z) :
  0 < m < 2 ^ 53 -> -1074 <= e ->
  (round_pos (inject_Z m * 2 ^ e) == inject_Z m * 2 ^ e)%Q.
Proof.
  intros Hm He. set (q := (inject_Z m * 2 ^ e)%Q).
  pose proof (two_pos e) as Pe.
  assert (Pm : (0 < inject_Z m)%Q) by (rewrite <- (Zlt_Qlt 0); lia).
  assert (Pq : (0 < q)%Q) by (unfold q; apply Qmult_lt_0_compat; assumption).
  assert (Uq : (q < 2 ^ (53 + e))%Q).
  { unfold q. rewrite two_plus, (two_Z 53) by lia.
    apply Qmult_lt_compat_r; [exact Pe|]. rewrite <- Zlt_Qlt. lia. }
  destruct (Qlog2_spec q Pq) as [Lq _].
  assert (Qlog2 q < 53 + e) by (apply two_lt_inv; lra).
  assert (Le : exponent q <= e) by (unfold exponent; lia).
  rewrite round_pos_grid. unfold on_grid.
  generalize dependent (exponent q). intros e' Le.
  assert (S : (2 ^ e == 2 ^ (e - e') * 2 ^ e')%Q)
    by (rewrite <- two_plus; now replace (e - e' + e') with e by lia).
  pose proof (two_pos e') as Pe'.
  rewrite (rne_comp _ (inject_Z (m * 2 ^ (e - e')))), rne_Z.
  - rewrite inject_Z_mult, <- two_Z by lia. unfold q. rewrite S. ring.
  - rewrite inject_Z_mult, <- two_Z by lia. unfold q. rewrite S. field. lra.
Qed.

Lemma round_q_representable (q : Q) : representable q -> (round_q q == q)%Q.
Proof.
  intros (m & e & Hm & He & E). rewrite (round_q_comp _ _ E).
  rewrite E. clear E q. unfold round_q. pose proof (two_pos e) as Pe.
  destruct (Z.lt_trichotomy m 0) as [N|[->|P]].
  - assert (Nq : (inject_Z m * 2 ^ e < 0)%Q).
    { setoid_replace (inject_Z m * 2 ^ e)%Q
        with (- (inject_Z (- m) * 2 ^ e))%Q by (rewrite inject_Z_opp; ring).
      assert (0 < inject_Z (- m) * 2 ^ e)%Q.
      { apply Qmult_lt_0_compat; [|exact Pe]. rewrite <- (Zlt_Qlt 0). lia. }
      lra. }
    destruct (Qcompare_spec (inject_Z m * 2 ^ e) 0) as [C|C|C]; try lra.
    rewrite (round_pos_comp _ (inject_Z (- m) * 2 ^ e)).
    + rewrite round_pos_representable by lia. rewrite inject_Z_opp. ring.
    + lra.
    + rewrite inject_Z_opp. ring.
  - change (inject_Z 0) with 0%Q.
    destruct (Qcompare_spec (0 * 2 ^ e) 0) as [C|C|C]; lra.
  - assert (0 < inject_Z m * 2 ^ e)%Q.
    { apply Qmult_lt_0_compat; [|exact Pe]. rewrite <- (Zlt_Qlt 0). lia. }
    destruct (Qcompare_spec (inject_Z m * 2 ^ e) 0) as [C|C|C]; try lra.
    apply round_pos_representable; lia.
Qed.

(** The rounding error of a number below [2^(k+1)] is at most half a
    unit in the last place of that binade. *)
Lemma round_q_error (q : Q) (k : Z) :
  (0 <= q < 2 ^ (k + 1))%Q -> -1074 <= k - 52 ->
  (round_q q - 2 ^ (k - 53) <= q <= round_q q + 2 ^ (k - 53))%Q.
Proof.
  intros [L U] Hk. pose proof (two_pos (k - 53)) as Pk. unfold round_q.
  destruct (Qcompare_spec q 0) as [C|C|C]; try lra.
  destruct (Qlog2_spec q C) as [Lq _].
  assert (Qlog2 q < k + 1) by (apply two_lt_inv; lra).
  assert (Le : exponent q <= k - 52) by (unfold exponent; lia).
  rewrite round_pos_grid. pose proof (on_grid_error (exponent q) q) as [A B].
  assert (2 ^ exponent q * (1 # 2) <= 2 ^ (k - 53))%Q.
  { apply two_le in Le. rewrite <- (two_pred (k - 52)) in Le.
    replace (k - 52 - 1) with (k - 53) in Le by lia. lra. }
  lra.
Qed.

Lemma round_q_opp (q : Q) : (round_q (- q) == - round_q q)%Q.
Proof.
  unfold round_q.
  destruct (Qcompare_spec q 0) as [C|C|C];
    destruct (Qcompare_spec (- q) 0) as [D|D|D]; try lra; try ring.
  rewrite (round_pos_comp (- - q) q); [reflexivity | lra | ring].
Qed.

Lemma dsub_finite (s p : Q) : dsub (Fin s) (Fin p) = round64 (s - p).
Proof.
  unfold dsub, dneg, dadd, fin. apply round64_ext.
  rewrite Qred_correct. reflexivity.
Qed.

Lemma compose_finite (q1 q2 : Q) :
  compose_error_rates (Fin q1) (Fin q2)
  = dsub (round64 (q1 + q2)) (round64 (q1 * q2)).
Proof. reflexivity. Qed.

Lemma Qmult_le_unit (a b : Q) : (0 <= a)%Q -> (b <= 1)%Q -> (a * b <= a)%Q.
Proof.
  intros A B.
  assert (0 <= a * (1 - b))%Q by (apply Qmult_le_0_compat; lra).
  setoid_replace (a * b)%Q with (a - a * (1 - b))%Q by ring. lra.
Qed.

(** The sum rounded minus the product rounded exceeds 1 by at most half a
    unit in the last place of 1, which the last rounding takes away. *)
Lemma compose_terms (q1 q2 : Q) :
  (0 <= q1 <= 1)%Q -> (0 <= q2 <= 1)%Q ->
  exists s p,
    round64 (q1 + q2) = Fin s /\ round64 (q1 * q2) = Fin p /\
    (s == round_q (q1 + q2))%Q /\ (p == round_q (q1 * q2))%Q /\
    (0 <= p <= s)%Q /\ (s - p <= 1 + 2 ^ (-53))%Q.
Proof.
  intros [L1 U1] [L2 U2]. pose proof two_1024 as T.
  assert (P0 : (0 <= q1 * q2)%Q) by (apply Qmult_le_0_compat; assumption).
  assert (P1 : (q1 * q2 <= q1)%Q).
  { now apply Qmult_le_unit. }
  assert (P2 : (q1 + q2 - 1 <= q1 * q2)%Q).
  { assert (0 <= (1 - q1) * (1 - q2))%Q by (apply Qmult_le_0_compat; lra).
    setoid_replace (q1 * q2)%Q with (q1 + q2 - 1 + (1 - q1) * (1 - q2))%Q by ring.
    lra. }
  destruct (round64_between 0 2 (q1 + q2)) as (s & Es & Rs & Bs);
    [rewrite round_q_0; lra | rewrite round_q_2; lra | lra |].
  destruct (round64_unit (q1 * q2)) as (p & Ep & Rp & Bp); [lra|].
  rewrite round_q_0, round_q_2 in Bs.
  exists s, p. repeat split; try assumption; try lra.
  - rewrite Rs, Rp. apply round_q_mono. lra.
  - pose proof (two_pos (-53)) as P53.
    destruct (Qlt_le_dec 1 (q1 + q2)) as [Big|Small].
    + destruct (Qlt_le_dec (q1 + q2) 2) as [Lt2|Ge2].
      * (* the sum lies in the binade of 1 *)
        assert (A : (round_q (q1 + q2) - 2 ^ (-53) <= q1 + q2)%Q).
        { apply (round_q_error (q1 + q2) 0); [|lia].
          change (2 ^ (0 + 1))%Q with 2%Q. lra. }
        assert (G : exists m : Z, 0 <= m <= 2 ^ 53
                                  /\ (s == inject_Z m * 2 ^ (-52))%Q).
        { assert (E0 : Qlog2 (q1 + q2) = 0).
          { apply Qlog2_unique. change (2 ^ 0)%Q with 1%Q.
            change (2 ^ (0 + 1))%Q with 2%Q. lra. }
          assert (Ex : exponent (q1 + q2) = -52)
            by (unfold exponent; rewrite E0; reflexivity).
          exists (rne ((q1 + q2) / 2 ^ (-52))).
          assert (V : (s == inject_Z (rne ((q1 + q2) / 2 ^ (-52))) * 2 ^ (-52))%Q).
          { rewrite Rs. unfold round_q.
            destruct (Qcompare_spec (q1 + q2) 0) as [C|C|C]; try lra.
            unfold round_pos. rewrite Ex. reflexivity. }
          split; [|exact V].
          assert (W : (0 <= inject_Z (rne ((q1 + q2) / 2 ^ (-52)))
                       <= inject_Z (2 ^ 53))%Q).
          { pose proof (two_pos (-52)) as P52.
            assert (I : (/ 2 ^ (-52) == inject_Z (2 ^ 52))%Q)
              by (vm_compute; reflexivity).
            assert (J : (2 ^ (-52) * inject_Z (2 ^ 53) == 2)%Q)
              by (vm_compute; reflexivity).
            set (K := inject_Z (rne ((q1 + q2) / 2 ^ (-52)))) in *.
            set (w := (2 ^ (-52))%Q) in *.
            split.
            - apply Qnot_lt_le. intros C.
              assert (K * w < 0 * w)%Q by (apply Qmult_lt_compat_r; lra). lra.
            - apply Qnot_lt_le. intros C.
              assert (inject_Z (2 ^ 53) * w < K * w)%Q
                by (apply Qmult_lt_compat_r; lra).
              lra. }
          destruct W as [W1 W2]. change 0%Q with (inject_Z 0) in W1.
          rewrite <- Zle_Qle in W1, W2. lia. }
        destruct G as (m & Hm & Em).
        destruct (Z_le_gt_dec (2 * m) (2 ^ 53 + 1)) as [Low|High].
        -- assert (s <= 1 + 2 ^ (-53))%Q; [|lra].
           rewrite Em.
           assert (inject_Z (2 * m) <= inject_Z (2 ^ 53 + 1))%Q
             by (now rewrite <- Zle_Qle).
           rewrite inject_Z_mult in H.
           assert (E1 : (1 + 2 ^ (-53) == inject_Z (2 ^ 53 + 1) * 2 ^ (-53))%Q)
             by (vm_compute; reflexivity).
           assert (E2 : (2 ^ (-52) == 2 * 2 ^ (-53))%Q)
             by (vm_compute; reflexivity).
           rewrite E1, E2. change (inject_Z 2) with 2%Q in H.
           assert (inject_Z m * 2 * 2 ^ (-53)
                   <= inject_Z (2 ^ 53 + 1) * 2 ^ (-53))%Q
             by (apply Qmult_le_compat_r; lra).
           lra.
        -- (* the bound [s - 1 - 2^-53] is itself on the grid *)
           assert (R : (round_q (inject_Z (2 * m - 2 ^ 53 - 1) * 2 ^ (-53))
                        == inject_Z (2 * m - 2 ^ 53 - 1) * 2 ^ (-53))%Q).
           { apply round_q_representable.
             exists (2 * m - 2 ^ 53 - 1), (-53).
             split; [lia|]. split; [lia|reflexivity]. }
           assert (V : (inject_Z (2 * m - 2 ^ 53 - 1) * 2 ^ (-53)
                        == s - 1 - 2 ^ (-53))%Q).
           { rewrite Em. unfold Z.sub. rewrite !inject_Z_plus, inject_Z_mult.
             rewrite !inject_Z_opp.
             assert (E2 : (2 ^ (-52) == 2 * 2 ^ (-53))%Q)
               by (vm_compute; reflexivity).
             assert (E3 : (inject_Z (2 ^ 53) * 2 ^ (-53) == 1)%Q)
               by (vm_compute; reflexivity).
             rewrite E2. change (inject_Z 2) with 2%Q.
             change (inject_Z 1) with 1%Q.
             setoid_replace ((2 * inject_Z m + - inject_Z (2 ^ 53) + - 1)
                             * 2 ^ (-53))%Q
               with (inject_Z m * (2 * 2 ^ (-53))
                     - inject_Z (2 ^ 53) * 2 ^ (-53) - 2 ^ (-53))%Q by ring.
             rewrite E3. reflexivity. }
           assert (M : (round_q (s - 1 - 2 ^ (-53)) <= round_q (q1 * q2))%Q).
           { apply round_q_mono. rewrite Rs. lra. }
           rewrite <- (round_q_comp _ _ V), R, V, <- Rp in M. lra.
      * (* both rates are 1 *)
        assert (E1 : (q1 * q2 == 1)%Q).
        { assert (q1 == 1)%Q by lra. assert (q2 == 1)%Q by lra.
          rewrite H, H0. reflexivity. }
        assert (E2 : (q1 + q2 == 2)%Q) by lra.
        rewrite (round_q_comp _ _ E1), round_q_1 in Rp.
        rewrite (round_q_comp _ _ E2), round_q_2 in Rs. lra.
    + assert (round_q (q1 + q2) <= round_q 1)%Q by (now apply round_q_mono).
      rewrite round_q_1 in H. lra.
Qed.

Lemma compose_unit (q1 q2 : Q) :
  (0 <= q1 <= 1)%Q -> (0 <= q2 <= 1)%Q ->
  exists r, compose_error_rates (Fin q1) (Fin q2) = Fin r /\
            (0 <= r <= 1)%Q /\
            (q1 + q2 - q1 * q2 - 2 ^ (-51) <= r
             <= q1 + q2 - q1 * q2 + 2 ^ (-51))%Q.
Proof.
  intros H1 H2.
  destruct (compose_terms q1 q2 H1 H2) as (s & p & Es & Ep & Rs & Rp & B & U).
  pose proof two_1024 as T. pose proof (two_pos (-53)) as P53.
  rewrite compose_finite, Es, Ep, dsub_finite.
  destruct (round64_between 0 (1 + 2 ^ (-53)) (s - p)) as (r & Er & Rr & Br);
    [rewrite round_q_0; lra | rewrite round_q_above_1; lra | lra |].
  rewrite round_q_0, round_q_above_1 in Br.
  exists r. split; [exact Er|]. split; [exact Br|].
  assert (As : (round_q (q1 + q2) - 2 ^ (-53) <= q1 + q2
                <= round_q (q1 + q2) + 2 ^ (-53))%Q).
  { destruct (Qlt_le_dec (q1 + q2) 2) as [Lt|Ge].
    - apply (round_q_error (q1 + q2) 0); [|lia].
      change (2 ^ (0 + 1))%Q with 2%Q. lra.
    - assert (E : (q1 + q2 == 2)%Q) by lra.
      rewrite (round_q_comp _ _ E), round_q_2. lra. }
  assert (Ap : (round_q (q1 * q2) - 2 ^ (-53) <= q1 * q2
                <= round_q (q1 * q2) + 2 ^ (-53))%Q).
  { assert (0 <= q1 * q2)%Q by (apply Qmult_le_0_compat; lra).
    assert (q1 * q2 <= 1)%Q.
    { apply Qle_trans with q1; [apply Qmult_le_unit|]; lra. }
    apply (round_q_error (q1 * q2) 0); [|lia].
    change (2 ^ (0 + 1))%Q with 2%Q. lra. }
  assert (Ar : (round_q (s - p) - 2 ^ (-53) <= s - p
                <= round_q (s - p) + 2 ^ (-53))%Q).
  { apply (round_q_error (s - p) 0); [|lia].
    change (2 ^ (0 + 1))%Q with 2%Q.
    assert (2 ^ (-53) < 1)%Q by (vm_compute; reflexivity). lra. }
  assert (E51 : (2 ^ (-51) == 4 * 2 ^ (-53))%Q) by (vm_compute; reflexivity).
  rewrite E51. rewrite <- Rs, <- Rp in *. rewrite <- Rr in Ar. lra.
Qed.

(** *** Conversions and quotients of counts *)

Lemma of_Z_0 : of_Z 0 = d0.
Proof. reflexivity. Qed.

Lemma of_Z_1 : of_Z 1 = d1.
Proof. vm_compute. reflexivity. Qed.

Lemma of_Z_value (z : Z) :
  exists r, of_Z z = Fin r /\ (r == round_q (inject_Z z))%Q.
Proof.
  exists (Qred (round_q (inject_Z z))). split; [reflexivity|apply Qred_correct].
Qed.

Lemma of_Z_mono (a b : Z) :
  a <= b ->
  exists p q, of_Z a = Fin p /\ of_Z b = Fin q /\ (p <= q)%Q.
Proof.
  intros L. destruct (of_Z_value a) as (p & Ep & Rp).
  destruct (of_Z_value b) as (q & Eq & Rq).
  exists p, q. repeat split; try assumption.
  rewrite Rp, Rq. apply round_q_mono. now rewrite <- Zle_Qle.
Qed.

Lemma of_Z_positive (z : Z) :
  1 <= z -> exists r, of_Z z = Fin r /\ (1 <= r)%Q.
Proof.
  intros L. destruct (of_Z_mono 1 z L) as (p & q & Ep & Eq & B).
  rewrite of_Z_1 in Ep. injection Ep as <-. now exists q.
Qed.

Lemma of_Z_nonneg (z : Z) :
  0 <= z -> exists r, of_Z z = Fin r /\ (0 <= r)%Q.
Proof.
  intros L. destruct (of_Z_mono 0 z L) as (p & q & Ep & Eq & B).
  rewrite of_Z_0 in Ep. injection Ep as <-. now exists q.
Qed.

Lemma Qred_inject_Z (z : Z) : Qred (inject_Z z) = inject_Z z.
Proof.
  pose proof (Qred_correct (inject_Z z)) as E.
  pose proof (gcd_Qred (inject_Z z)) as G.
  destruct (Qred (inject_Z z)) as [n d]. unfold Qeq, inject_Z in *.
  cbn [Qnum Qden] in *. rewrite Z.mul_1_r in E. subst n.
  rewrite Z.gcd_comm, (Z.mul_comm z), Z.gcd_mul_diag_l in G by lia.
  injection G as ->. now rewrite Z.mul_1_r.
Qed.

(** Integers of fewer than 54 bits convert exactly. *)
Lemma of_Z_exact (z : Z) : Z.abs z < 2 ^ 53 -> of_Z z = Fin (inject_Z z).
Proof.
  intros H. unfold of_Z.
  assert (R : (round_q (inject_Z z) == inject_Z z)%Q).
  { apply round_q_representable. exists z, 0. repeat split; try lia.
    change (2 ^ 0)%Q with 1%Q. ring. }
  rewrite (fin_ext _ _ R). unfold fin. f_equal. apply Qred_inject_Z.
Qed.

Lemma Qzero_false (q : Q) : (0 < q)%Q -> Qzero q = false.
Proof.
  unfold Qzero, Qlt. cbn. intros H. apply Z.eqb_neq. lia.
Qed.

Lemma ddiv_self (z : Z) : 1 <= z -> ddiv (of_Z z) (of_Z z) = d1.
Proof.
  intros Hz. destruct (of_Z_positive z Hz) as (r & -> & B).
  unfold ddiv. rewrite Qzero_false by lra.
  rewrite <- round64_1. apply round64_ext. field. lra.
Qed.

Lemma ddiv_zero (z : Z) : 1 <= z -> ddiv d0 (of_Z z) = d0.
Proof.
  intros Hz. destruct (of_Z_positive z Hz) as (r & -> & B).
  unfold ddiv, d0. rewrite Qzero_false by lra.
  change (Fin 0) with d0. rewrite <- round64_0. apply round64_ext. field. lra.
Qed.

Lemma in_unit_fin (q : Q) : (0 <= q <= 1)%Q -> in_unit (Fin q) = true.
Proof.
  intros [L U]. unfold in_unit.
  apply andb_true_iff; split; now apply Qle_bool_iff.
Qed.

Lemma in_unit_inv (x : double) :
  in_unit x = true -> exists q, x = Fin q /\ (0 <= q <= 1)%Q.
Proof.
  destruct x as [q| |]; simpl; try discriminate.
  intros E. apply andb_true_iff in E as [L U].
  exists q. repeat split; now apply Qle_bool_iff.
Qed.

(** The quotient of two counts [a <= n], as the library forms it. *)
Lemma ratio_value (a n : Z) :
  0 <= a <= n -> 1 <= n ->
  exists r, ddiv (of_Z a) (of_Z n) = Fin r /\ (0 <= r <= 1)%Q.
Proof.
  intros Ha Hn. destruct (of_Z_mono a n) as (p & q & Ep & Eq & B); [lia|].
  destruct (of_Z_nonneg a) as (p' & Ep' & Bp); [lia|].
  destruct (of_Z_positive n Hn) as (q' & Eq' & Bq).
  rewrite Ep in Ep'. injection Ep' as <-. rewrite Eq in Eq'. injection Eq' as <-.
  rewrite Ep, Eq. unfold ddiv. rewrite Qzero_false by lra.
  destruct (round64_unit (p / q)) as (r & Er & _ & Br).
  - split.
    + apply Qle_shift_div_l; lra.
    + apply Qle_shift_div_r; lra.
  - now exists r.
Qed.

Lemma ratio_in_unit (a n : Z) :
  0 <= a <= n -> 1 <= n -> in_unit (ddiv (of_Z a) (of_Z n)) = true.
Proof.
  intros Ha Hn. destruct (ratio_value a n Ha Hn) as (r & -> & B).
  now apply in_unit_fin.
Qed.

(** [1.0 - x] for a rate [x]. *)
Lemma complement_in_unit (x : double) :
  in_unit x = true -> in_unit (dsub d1 x) = true.
Proof.
  intros H. apply in_unit_inv in H as (q & -> & B).
  unfold d1. rewrite dsub_finite.
  destruct (round64_unit (1 - q)) as (r & -> & _ & Br); [lra|].
  now apply in_unit_fin.
Qed.

(** *** Powers of two *)

Lemma Qfloor_unit (x : Q) : (0 <= x < 1)%Q -> Qfloor x = 0.
Proof.
  intros [L U]. pose proof (Qfloor_le x) as A. pose proof (Qlt_floor x) as B.
  assert (inject_Z (Qfloor x) < inject_Z 1)%Q by (change (inject_Z 1) with 1%Q; lra).
  assert (inject_Z 0 < inject_Z (Qfloor x + 1))%Q
    by (change (inject_Z 0) with 0%Q; lra).
  rewrite <- Zlt_Qlt in *. lia.
Qed.

Lemma rne_small (x : Q) : (0 <= x <= 1 # 2)%Q -> rne x = 0.
Proof.
  intros [L U]. unfold rne. rewrite Qfloor_unit by lra.
  destruct (Qcompare_spec (x - inject_Z 0) (1 # 2)) as [E|Lt|Gt];
    try reflexivity.
  change (inject_Z 0) with 0%Q in Gt. lra.
Qed.

Lemma two_opp (n : Z) : (2 ^ (- n) == / 2 ^ n)%Q.
Proof. apply Qpower_opp. Qed.

Lemma pow2_exact (e : Z) : -1074 <= e <= 1023 -> pow2 e = fin (2 ^ e).
Proof.
  intros He. unfold pow2, round64.
  assert (R : (round_q (2 ^ e) == 2 ^ e)%Q).
  { apply round_q_representable. exists 1, e. repeat split; try lia.
    change (inject_Z 1) with 1%Q. ring. }
  pose proof (two_pos e). assert (2 ^ e < 2 ^ 1024)%Q by (apply two_lt; lia).
  pose proof (two_pos 1024).
  rewrite !Qle_bool_false by lra. now apply fin_ext.
Qed.

Lemma pow2_underflow (e : Z) : e < -1074 -> pow2 e = d0.
Proof.
  intros He. unfold pow2, round64.
  assert (R : (round_q (2 ^ e) == 0)%Q).
  { unfold round_q. pose proof (two_pos e) as P.
    destruct (Qcompare_spec (2 ^ e) 0) as [C|C|C]; try lra.
    assert (L : Qlog2 (2 ^ e) = e).
    { apply Qlog2_unique. split; [lra|]. apply two_lt. lia. }
    unfold round_pos, exponent. rewrite L.
    replace (Z.max (-1074) (e - 52)) with (-1074) by lia.
    rewrite rne_small; [ring|].
    pose proof (two_pos (-1074)).
    assert (2 ^ e <= 2 ^ (-1075))%Q by (apply two_le; lia).
    assert (E : (2 ^ (-1075) == 2 ^ (-1074) * (1 # 2))%Q).
    { replace (-1075) with (-1074 + -1) by lia. rewrite two_plus. reflexivity. }
    split.
    - apply Qle_shift_div_l; lra.
    - apply Qle_shift_div_r; lra. }
  pose proof (two_pos 1024).
  rewrite !Qle_bool_false by lra.
  change d0 with (fin 0). now apply fin_ext.
Qed.

(** The rate [2^(-n)] of an [n]-bit comparison, as [std::pow] returns it. *)
Lemma pow2_neg_bits (n : Z) :
  0 <= n <= 1074 ->
  exists q, pow2 (- n) = Fin q /\ (q == 1 / inject_Z (2 ^ n))%Q.
Proof.
  intros Hn. rewrite pow2_exact by lia. unfold fin. eexists; split; [reflexivity|].
  rewrite Qred_correct, two_opp, two_Z by lia. field.
  change 0%Q with (inject_Z 0). rewrite inject_Z_injective.
  assert (0 < 2 ^ n) by (apply Z.pow_pos_nonneg; lia). lia.
Qed.

Example zero_over_zero : ddiv (of_Z 0) (of_Z 0) = NaN.
Proof. reflexivity. Qed.

Example three_over_four : ddiv (of_Z 6) (of_Z 8) = Fin (3 # 4).
Proof. vm_compute. reflexivity. Qed.

Example one_third :
  ddiv (of_Z 1) (of_Z 3) = Fin (6004799503160661 # 18014398509481984).
Proof. vm_compute. reflexivity. Qed.

Example pow2_neg_16 : pow2 (- trapdoor.hash_bits 2) = Fin (1 # 65536).
Proof. vm_compute. reflexivity. Qed.

Example pow2_neg_1080 : pow2 (- trapdoor.hash_bits 135) = d0.
Proof. vm_compute. reflexivity. Qed.

Example to_string_digits :
  to_string 0 = "0"%string /\ to_string 1234 = "1234"%string.
Proof. split; reflexivity. Qed.

(** C8: the conjunction of two approximate bools takes the conjunction of
    the values and composes the false-positive rates and the
    false-negative rates with [compose_error_rates], which is
    [e1 + e2 - e1 * e2] evaluated in [double]: the sum, the product and
    the difference are each rounded.  On rates of [[0, 1]] the result is
    within [2^-51] of the exact [e1 + e2 - e1 * e2], and it is again a
    rate of [[0, 1]], nothing being clamped. *)
Theorem and_composes_error_rates (a b : approximate_bool) :
  value (and_ a b) = value a && value b /\
  false_positive_rate (and_ a b) =
    compose_error_rates (false_positive_rate a) (false_positive_rate b) /\
  false_negative_rate (and_ a b) =
    compose_error_rates (false_negative_rate a) (false_negative_rate b) /\
  (forall e1 e2 : double,
      compose_error_rates e1 e2 = dsub (dadd e1 e2) (dmul e1 e2)) /\
  (forall q1 q2 : Q,
      (0 <= q1 <= 1)%Q -> (0 <= q2 <= 1)%Q ->
      exists r,
        compose_error_rates (Fin q1) (Fin q2) = Fin r /\
        (q1 + q2 - q1 * q2 - 2 ^ (-51) <= r
         <= q1 + q2 - q1 * q2 + 2 ^ (-51))%Q) /\
  (forall e1 e2 : double,
      in_unit e1 = true -> in_unit e2 = true ->
      in_unit (compose_error_rates e1 e2) = true).
Proof.
  repeat split; try reflexivity.
  - intros q1 q2 B1 B2.
    destruct (compose_unit q1 q2 B1 B2) as (r & E & _ & A).
    exists r. split; [exact E|exact A].
  - intros e1 e2 H1 H2.
    apply in_unit_inv in H1 as (q1 & -> & B1).
    apply in_unit_inv in H2 as (q2 & -> & B2).
    destruct (compose_unit q1 q2 B1 B2) as (r & -> & B & _).
    now apply in_unit_fin.
Qed.

Lemma and_composes_error_rates_witness :
  in_unit half = true /\ in_unit (Fin (1 # 4)) = true /\
  compose_error_rates half (Fin (1 # 4)) = Fin (5 # 8) /\
  in_unit (compose_error_rates half (Fin (1 # 4))) = true.
Proof.
  split; [reflexivity | split; [reflexivity | split; [vm_compute; reflexivity | ]]].
  apply (proj2 (proj2 (proj2 (proj2 (proj2
           (and_composes_error_rates (approx true half d0)
                                     (approx false (Fin (1 # 4)) d0))))))
           half (Fin (1 # 4))); reflexivity.
Defined.

(** The claim's formula read over the real numbers fails: for the rates
    0.2 and 0.7 (the nearest doubles) the composed rate is the double
    0.7599999999999999, which is not their exact [e1 + e2 - e1 * e2]. *)
Lemma compose_is_rounded :
  exists q1 q2 r : Q,
    literal (1 # 5) = Fin q1 /\ literal (7 # 10) = Fin q2 /\
    compose_error_rates (Fin q1) (Fin q2) = Fin r /\
    r = (6845471433603153 # 9007199254740992)%Q /\
    ~ (r == q1 + q2 - q1 * q2)%Q.
Proof.
  eexists. eexists. eexists.
  split; [vm_compute; reflexivity|].
  split; [vm_compute; reflexivity|].
  split; [vm_compute; reflexivity|].
  split; [reflexivity|].
  intros H. vm_compute in H. discriminate H.
Qed.

(** ** Hash words *)

Section hash_facts.
Variable N : nat.

Lemma bytewise_length f a b : List.length (bytewise N f a b) = N.
Proof. unfold bytewise. now rewrite length_map, length_seq. Qed.

Lemma byte_at_bytewise f a b i :
  (i < N)%nat ->
  byte_at (bytewise N f a b) i = f (byte_at a i) (byte_at b i).
Proof.
  intros Hi. unfold bytewise, byte_at at 1.
  rewrite (nth_indep _ 0 (f (byte_at a 0%nat) (byte_at b 0%nat)))
    by now rewrite length_map, length_seq.
  rewrite (map_nth (fun i => f (byte_at a i) (byte_at b i))).
  now rewrite seq_nth.
Qed.

Lemma hash_ext (a b : hash_value) :
  List.length a = N -> List.length b = N ->
  (forall i, (i < N)%nat -> byte_at a i = byte_at b i) -> a = b.
Proof.
  intros La Lb E. apply (nth_ext a b 0 0); [congruence|].
  intros i Hi. apply E. congruence.
Qed.

Lemma heqb_spec (a b : hash_value) :
  heqb N a b = true <-> (forall i, (i < N)%nat -> byte_at a i = byte_at b i).
Proof.
  unfold heqb. rewrite forallb_forall. split.
  - intros E i Hi. apply Z.eqb_eq, E, in_seq. lia.
  - intros E i Hi. apply Z.eqb_eq, E. apply in_seq in Hi. lia.
Qed.

Lemma heqb_refl (a : hash_value) : heqb N a a = true.
Proof. now apply heqb_spec. Qed.

Lemma heqb_eq (a b : hash_value) :
  List.length a = N -> List.length b = N ->
  (heqb N a b = true <-> a = b).
Proof.
  intros La Lb. rewrite heqb_spec. split.
  - now apply hash_ext.
  - now intros ->.
Qed.

Lemma heqb_neq (a b : hash_value) :
  List.length a = N -> List.length b = N ->
  a <> b -> heqb N a b = false.
Proof.
  intros La Lb D. destruct (heqb N a b) eqn:E; [|reflexivity].
  now apply heqb_eq in E.
Qed.

Lemma memcpy_id (a : hash_value) :
  List.length a = N -> map (byte_at a) (seq 0 N) = a.
Proof.
  intros La. apply hash_ext; [now rewrite length_map, length_seq | easy |].
  intros i Hi. unfold byte_at at 1.
  rewrite (nth_indep _ 0 (byte_at a 0%nat))
    by now rewrite length_map, length_seq.
  now rewrite map_nth, seq_nth.
Qed.

Lemma hxor_length a b : List.length (hxor N a b) = N.
Proof. apply bytewise_length. Qed.

Lemma hxor_comm a b : hxor N a b = hxor N b a.
Proof.
  apply hash_ext; try apply hxor_length.
  intros i Hi. unfold hxor. rewrite !byte_at_bytewise by easy.
  apply Z.lxor_comm.
Qed.

Lemma hxor_assoc a b c : hxor N (hxor N a b) c = hxor N a (hxor N b c).
Proof.
  apply hash_ext; try apply hxor_length.
  intros i Hi. unfold hxor. rewrite !byte_at_bytewise by easy.
  apply Z.lxor_assoc.
Qed.

Lemma byte_at_zero_hash i : byte_at (zero_hash N) i = 0.
Proof.
  unfold byte_at, zero_hash.
  destruct (nth_in_or_default i (repeat 0 N) 0) as [H|H]; [|exact H].
  now apply repeat_spec in H.
Qed.

Lemma zero_hash_length : List.length (zero_hash N) = N.
Proof. apply repeat_length. Qed.

Lemma hxor_nilpotent a : hxor N a a = zero_hash N.
Proof.
  apply hash_ext; [apply hxor_length | apply zero_hash_length |].
  intros i Hi. unfold hxor. rewrite byte_at_bytewise by easy.
  rewrite byte_at_zero_hash. apply Z.lxor_nilpotent.
Qed.

Lemma hxor_zero_l a : List.length a = N -> hxor N (zero_hash N) a = a.
Proof.
  intros La. apply hash_ext; [apply hxor_length | easy |].
  intros i Hi. unfold hxor. rewrite byte_at_bytewise by easy.
  rewrite byte_at_zero_hash. apply Z.lxor_0_l.
Qed.

Lemma hxor_zero_r a : List.length a = N -> hxor N a (zero_hash N) = a.
Proof. intros La. rewrite hxor_comm. now apply hxor_zero_l. Qed.

End hash_facts.

(** ** Trapdoors *)

Lemma trapdoor_equals_ok (N : nat) (a b : trapdoor.t) :
  trapdoor.key_fingerprint a = trapdoor.key_fingerprint b ->
  trapdoor.equals N a b =
    Ok (approx (heqb N (trapdoor.hash a) (trapdoor.hash b))
               (pow2 (- trapdoor.hash_bits N)) d0).
Proof.
  intros E. unfold trapdoor.equals, trapdoor.compatible_with.
  now rewrite E, Z.eqb_refl.
Qed.

(** The false-positive rate of an [N]-byte comparison. *)
Lemma hash_rate (N : nat) :
  ((N <= 134)%nat ->
   exists q, pow2 (- trapdoor.hash_bits N) = Fin q /\
             (q == 1 / inject_Z (2 ^ (8 * Z.of_nat N)))%Q) /\
  ((135 <= N)%nat -> pow2 (- trapdoor.hash_bits N) = d0).
Proof.
  unfold trapdoor.hash_bits. split; intros H.
  - destruct (pow2_neg_bits (Z.of_nat N * 8)) as (q & Hq & Hv); [lia|].
    exists q. split; [exact Hq|]. now rewrite (Z.mul_comm 8).
  - apply pow2_underflow. lia.
Qed.

(** C5: [equals] on two trapdoors raises IncompatibleKey when the key
    fingerprints differ; otherwise it returns an approximate bool whose
    value is the comparison of the two hashes (true exactly when the
    [N]-byte hashes are equal), whose false-negative rate is 0 and whose
    false-positive rate is [std::pow(2.0, -8N)]: exactly [2^(-8N)] up to
    [N = 134], and 0 from [N = 135] on, where the power underflows.
    Hence two trapdoors a factory creates from one value compare true,
    and trapdoors of two values with distinct hashes compare false. *)
Theorem trapdoor_equals_spec (N : nat) :
  (forall a b : trapdoor.t,
      trapdoor.key_fingerprint a <> trapdoor.key_fingerprint b ->
      trapdoor.equals N a b = Throw IncompatibleKey) /\
  (forall a b : trapdoor.t,
      trapdoor.key_fingerprint a = trapdoor.key_fingerprint b ->
      exists fpr,
        trapdoor.equals N a b =
          Ok (approx (heqb N (trapdoor.hash a) (trapdoor.hash b)) fpr d0) /\
        fpr = pow2 (- (8 * Z.of_nat N)) /\
        ((N <= 134)%nat ->
         exists q, fpr = Fin q /\ (q == 1 / inject_Z (2 ^ (8 * Z.of_nat N)))%Q) /\
        ((135 <= N)%nat -> fpr = d0)) /\
  (forall a b : trapdoor.t,
      List.length (trapdoor.hash a) = N -> List.length (trapdoor.hash b) = N ->
      (heqb N (trapdoor.hash a) (trapdoor.hash b) = true
       <-> trapdoor.hash a = trapdoor.hash b)) /\
  (forall (T : Type) (HT : Hashable T) (f : trapdoor_factory.t) (v : T),
      exists r,
        trapdoor.equals N (trapdoor_factory.create f v)
                          (trapdoor_factory.create f v) = Ok r /\
        value r = true) /\
  (forall (T : Type) (HT : Hashable T) (f : trapdoor_factory.t) (v w : T),
      List.length (trapdoor.hash (trapdoor_factory.create f v)) = N ->
      List.length (trapdoor.hash (trapdoor_factory.create f w)) = N ->
      trapdoor.hash (trapdoor_factory.create f v)
        <> trapdoor.hash (trapdoor_factory.create f w) ->
      exists r,
        trapdoor.equals N (trapdoor_factory.create f v)
                          (trapdoor_factory.create f w) = Ok r /\
        value r = false).
Proof.
  split; [|split; [|split; [|split]]].
  - intros a b D. unfold trapdoor.equals, trapdoor.compatible_with.
    now apply Z.eqb_neq in D as ->.
  - intros a b E. exists (pow2 (- trapdoor.hash_bits N)).
    split; [now apply trapdoor_equals_ok|].
    split; [unfold trapdoor.hash_bits; now rewrite (Z.mul_comm 8)|].
    apply hash_rate.
  - intros a b. apply heqb_eq.
  - intros T HT f v.
    rewrite (trapdoor_equals_ok N (trapdoor_factory.create f v)
               (trapdoor_factory.create f v) eq_refl).
    eexists; split; [reflexivity|]. cbn [value approx]. apply heqb_refl.
  - intros T HT f v w Lv Lw D.
    rewrite (trapdoor_equals_ok N (trapdoor_factory.create f v)
               (trapdoor_factory.create f w) eq_refl).
    eexists; split; [reflexivity|]. cbn [value approx]. now apply heqb_neq.
Qed.

Lemma trapdoor_equals_spec_witness :
  trapdoor.equals 2 (trapdoor.make [1; 2] 7) (trapdoor.make [1; 2] 9)
    = Throw IncompatibleKey /\
  (exists q,
      trapdoor.equals 2 (trapdoor.make [1; 2] 7) (trapdoor.make [1; 3] 7)
        = Ok (approx false (Fin q) d0) /\
      (q == 1 # 65536)%Q) /\
  (exists r,
      trapdoor.equals 2 (trapdoor_factory.create (HT := hash_Z) (sample_factory 2 7) 10)
                        (trapdoor_factory.create (HT := hash_Z) (sample_factory 2 7) 11)
        = Ok r /\
      value r = false).
Proof.
  pose proof (trapdoor_equals_spec 2) as (Hthrow & Hok & _ & _ & Hdiff).
  split; [|split].
  - apply Hthrow. simpl. lia.
  - destruct (Hok (trapdoor.make [1; 2] 7) (trapdoor.make [1; 3] 7) eq_refl)
      as (fpr & Hq & _ & Hsmall & _).
    destruct Hsmall as (q & -> & Hv); [lia|].
    exists q. split; [exact Hq | rewrite Hv; reflexivity].
  - apply (Hdiff Z hash_Z (sample_factory 2 7) 10 11);
      [reflexivity | reflexivity | vm_compute; discriminate].
Defined.

(** The rate is not [2^(-8N)] for every [N]: two equal trapdoors of 135
    bytes compare with false-positive rate 0, [2^(-1080)] being below
    the smallest positive [double]. *)
Lemma equals_rate_underflows :
  exists r,
    trapdoor.equals 135 (trapdoor.make (zero_hash 135) 7)
                        (trapdoor.make (zero_hash 135) 7) = Ok r /\
    value r = true /\
    false_positive_rate r = Fin 0 /\
    ~ (0 == 1 / inject_Z (2 ^ (8 * Z.of_nat 135)))%Q.
Proof.
  eexists. split; [vm_compute; reflexivity|].
  split; [reflexivity|]. split; [reflexivity|].
  intros H. vm_compute in H. discriminate H.
Qed.

(** ** Serialization *)

Section serialization_facts.
Import serialization.

Lemma little_endian_digits (kf : Z) (n s : nat) :
  fold_right (fun b acc => b + 256 * acc) 0
             (map (fun i => (kf / 256 ^ Z.of_nat i) mod 256) (seq s n))
  = (kf / 256 ^ Z.of_nat s) mod 256 ^ Z.of_nat n.
Proof.
  revert s. induction n as [|n IH]; intros s.
  - simpl. now rewrite Z.mod_1_r.
  - cbn [seq map fold_right]. rewrite IH.
    rewrite !Nat2Z.inj_succ, !Z.pow_succ_r by lia.
    rewrite Z.rem_mul_r by lia.
    rewrite (Z.mul_comm 256 (256 ^ Z.of_nat s)).
    rewrite <- Z.div_div by lia. reflexivity.
Qed.

Lemma size_t_round_trip (bo : byte_order) (kf : Z) :
  is_size_t kf -> size_t_of_bytes bo (size_t_bytes bo kf) = kf.
Proof.
  intros [L U]. unfold size_t_of_bytes, size_t_bytes.
  assert (E : fold_right (fun b acc => b + 256 * acc) 0
                (map (fun i => (kf / 256 ^ Z.of_nat i) mod 256) (seq 0 8)) = kf).
  { rewrite little_endian_digits. simpl Z.of_nat.
    rewrite Z.pow_0_r, Z.div_1_r. apply Z.mod_small.
    unfold size_max in U. change (256 ^ 8) with (2 ^ 64). lia. }
  destruct bo; [exact E | now rewrite rev_involutive].
Qed.

Lemma size_t_bytes_length (bo : byte_order) (kf : Z) :
  List.length (size_t_bytes bo kf) = 8%nat.
Proof. destruct bo; reflexivity. Qed.

Lemma serialize_fields_length bo N h kf :
  List.length (serialize_fields bo N h kf) = (N + 8)%nat.
Proof.
  unfold serialize_fields, serialize_hash.
  now rewrite length_app, length_map, length_seq, size_t_bytes_length.
Qed.

(** What the three deserializers read back from a serialized pair. *)
Lemma fields_round_trip bo N h kf :
  List.length h = N -> is_size_t kf ->
  let bytes := serialize_fields bo N h kf in
  (List.length bytes <? N + 8)%nat = false /\
  deserialize_hash N (firstn N bytes) = Ok h /\
  read_size_t bo N bytes = kf.
Proof.
  intros Lh Hkf bytes. subst bytes.
  assert (Eh : serialize_hash N h = h) by now apply memcpy_id.
  assert (F : firstn N (serialize_fields bo N h kf) = h).
  { unfold serialize_fields. rewrite Eh, <- Lh.
    rewrite firstn_app, Nat.sub_diag, firstn_all. simpl. apply app_nil_r. }
  split; [|split].
  - rewrite serialize_fields_length. apply Nat.ltb_irrefl.
  - rewrite F. unfold deserialize_hash.
    rewrite Lh, Nat.ltb_irrefl. f_equal. rewrite <- Lh. apply firstn_all.
  - unfold read_size_t, serialize_fields. rewrite Eh, <- Lh.
    rewrite skipn_app, Nat.sub_diag, skipn_all, skipn_O, app_nil_l.
    rewrite firstn_all2 by now rewrite size_t_bytes_length.
    now apply size_t_round_trip.
Qed.

End serialization_facts.

(** C4: for every trapdoor, symmetric-difference set and boolean set with
    an [N]-byte hash and a [std::size_t] key fingerprint, deserializing
    its serialization gives back the same value, hash and fingerprint
    alike, in either byte order. *)
Theorem serialization_round_trip (bo : serialization.byte_order) (N : nat) :
  (forall td : trapdoor.t,
      List.length (trapdoor.hash td) = N ->
      is_size_t (trapdoor.key_fingerprint td) ->
      serialization.deserialize_trapdoor bo N
        (serialization.serialize_trapdoor bo N td) = Ok td) /\
  (forall s : sets.symmetric_difference_set.t,
      List.length (sets.symmetric_difference_set.hash s) = N ->
      is_size_t (sets.symmetric_difference_set.key_fingerprint s) ->
      serialization.deserialize_sym_diff_set bo N
        (serialization.serialize_sym_diff_set bo N s) = Ok s) /\
  (forall s : sets.boolean_set.t,
      List.length (sets.boolean_set.hash s) = N ->
      is_size_t (sets.boolean_set.key_fingerprint s) ->
      serialization.deserialize_boolean_set bo N
        (serialization.serialize_boolean_set bo N s) = Ok s).
Proof.
  split; [|split]; intros [h kf] Lh Hkf; simpl in Lh, Hkf;
    destruct (fields_round_trip bo N h kf Lh Hkf) as (E1 & E2 & E3).
  - unfold serialization.deserialize_trapdoor, serialization.serialize_trapdoor.
    cbn [trapdoor.hash trapdoor.key_fingerprint].
    now rewrite E1, E2, E3.
  - unfold serialization.deserialize_sym_diff_set,
      serialization.serialize_sym_diff_set.
    cbn [sets.symmetric_difference_set.hash
         sets.symmetric_difference_set.key_fingerprint].
    now rewrite E1, E2, E3.
  - unfold serialization.deserialize_boolean_set,
      serialization.serialize_boolean_set.
    cbn [sets.boolean_set.hash sets.boolean_set.key_fingerprint].
    now rewrite E1, E2, E3.
Qed.

Lemma serialization_round_trip_witness :
  serialization.deserialize_trapdoor serialization.LittleEndian 3
    (serialization.serialize_trapdoor serialization.LittleEndian 3
       (trapdoor.make [1; 200; 3] 258))
  = Ok (trapdoor.make [1; 200; 3] 258) /\
  serialization.serialize_trapdoor serialization.LittleEndian 3
    (trapdoor.make [1; 200; 3] 258)
  = [1; 200; 3; 2; 1; 0; 0; 0; 0; 0; 0].
Proof.
  split; [|reflexivity].
  apply (proj1 (serialization_round_trip serialization.LittleEndian 3)
           (trapdoor.make [1; 200; 3] 258)).
  - reflexivity.
  - unfold is_size_t, size_max. simpl. lia.
Defined.

(** ** Threshold scheme: construction *)

Lemma create_within_total (k n : Z) :
  k <= n ->
  operations.threshold_scheme.create k n
    = Ok (operations.threshold_scheme.make k n).
Proof.
  intros H. unfold operations.threshold_scheme.create.
  destruct (k >? n) eqn:E; [apply Z.gtb_gt in E; lia | reflexivity].
Qed.

(** C7, as the constructor is written: it raises InvalidThreshold exactly
    when [k > n] and builds the scheme for every [k <= n], [k = 0]
    included. *)
Theorem threshold_scheme_create_spec (k n : Z) :
  (k > n -> operations.threshold_scheme.create k n = Throw InvalidThreshold) /\
  (k <= n ->
   operations.threshold_scheme.create k n
     = Ok (operations.threshold_scheme.make k n)).
Proof.
  split; intros H.
  - unfold operations.threshold_scheme.create.
    now apply Z.gtb_gt in H as ->.
  - now apply create_within_total.
Qed.

Lemma threshold_scheme_create_spec_witness :
  operations.threshold_scheme.create 5 3 = Throw InvalidThreshold /\
  operations.threshold_scheme.create 3 5
    = Ok (operations.threshold_scheme.make 3 5).
Proof.
  split.
  - apply (proj1 (threshold_scheme_create_spec 5 3)). lia.
  - apply (proj2 (threshold_scheme_create_spec 3 5)). lia.
Defined.

(** C7 as stated fails at [k = 0]: the scheme (0, 5) is constructed. *)
Lemma threshold_zero_is_accepted :
  operations.threshold_scheme.create 0 5
    = Ok (operations.threshold_scheme.make 0 5) /\
  operations.threshold_scheme.create 0 5 <> Throw InvalidThreshold.
Proof. split; [reflexivity | discriminate]. Qed.

(** ** Key compatibility *)

(** C3, as the code has it: with differing key fingerprints the boolean-set
    union, intersection, symmetric difference, [equals] and [subset_of]
    and the additive-trapdoor addition raise IncompatibleKey, whereas the
    LSH comparison [are_similar] raises nothing and returns the
    approximate bool (false, fpr 0, fnr 1). *)
Theorem incompatible_keys_spec (N : nat) :
  (forall a b : sets.boolean_set.t,
      sets.boolean_set.key_fingerprint a <> sets.boolean_set.key_fingerprint b ->
      sets.boolean_set.union N a b = Throw IncompatibleKey /\
      sets.boolean_set.intersection N a b = Throw IncompatibleKey /\
      sets.boolean_set.symmetric_difference N a b = Throw IncompatibleKey /\
      sets.boolean_set.equals N a b = Throw IncompatibleKey /\
      sets.boolean_set.subset_of N a b = Throw IncompatibleKey) /\
  (forall (T : Type) (HN : Numeric T) (a b : operations.additive_trapdoor.t T),
      operations.additive_trapdoor.key_fingerprint a
        <> operations.additive_trapdoor.key_fingerprint b ->
      operations.additive_trapdoor.add N a b = Throw IncompatibleKey) /\
  (forall (lm : libm) (idx : operations.lsh_index.t)
          (sig_a sig_b : operations.lsh_index.lsh_signature) (threshold : double),
      operations.lsh_index.key_fingerprint sig_a
        <> operations.lsh_index.key_fingerprint sig_b ->
      operations.lsh_index.are_similar lm idx sig_a sig_b threshold
        = Ok (approx false d0 d1)).
Proof.
  split; [|split].
  - intros a b D. apply Z.eqb_neq in D.
    unfold sets.boolean_set.union, sets.boolean_set.intersection,
      sets.boolean_set.symmetric_difference, sets.boolean_set.equals,
      sets.boolean_set.subset_of, sets.boolean_set.verify_compatible.
    rewrite D. repeat split.
  - intros T HN a b D. apply Z.eqb_neq in D.
    unfold operations.additive_trapdoor.add. now rewrite D.
  - intros lm idx sig_a sig_b threshold D. apply Z.eqb_neq in D.
    unfold operations.lsh_index.are_similar. now rewrite D.
Qed.

Lemma incompatible_keys_spec_witness :
  sets.boolean_set.union 1 (sets.boolean_set.make [3] 1)
                           (sets.boolean_set.make [5] 2)
    = Throw IncompatibleKey /\
  operations.additive_trapdoor.add (HN := int_numeric) 1
    (operations.additive_trapdoor.make [3] 1 10)
    (operations.additive_trapdoor.make [5] 2 20)
    = Throw IncompatibleKey /\
  operations.lsh_index.are_similar sample_libm
    (operations.lsh_index.make 20 5)
    (operations.lsh_index.make_signature [1; 2] 1)
    (operations.lsh_index.make_signature [1; 2] 2) half
    = Ok (approx false d0 d1).
Proof.
  pose proof (incompatible_keys_spec 1) as (Hbs & Hadd & Hlsh).
  split; [|split].
  - apply Hbs. simpl. lia.
  - apply Hadd. simpl. lia.
  - apply Hlsh. simpl. lia.
Defined.

(** C3 as stated fails for [are_similar]: on signatures of two keys it
    returns a value instead of raising. *)
Lemma are_similar_does_not_raise :
  operations.lsh_index.are_similar sample_libm
    (operations.lsh_index.make 20 5)
    (operations.lsh_index.make_signature [1; 2] 1)
    (operations.lsh_index.make_signature [1; 2] 2) half
    = Ok (approx false d0 d1) /\
  operations.lsh_index.are_similar sample_libm
    (operations.lsh_index.make 20 5)
    (operations.lsh_index.make_signature [1; 2] 1)
    (operations.lsh_index.make_signature [1; 2] 2) half
    <> Throw IncompatibleKey.
Proof. split; [reflexivity | discriminate]. Qed.

(** ** Additive trapdoors *)


Section additive_facts.
Variable N : nat.
Variable h : hash_value.
Hypothesis h_length : List.length h = N.

End additive_facts.



(** Two payload types side by side: an [unsigned] payload wraps, and an
    odd scalar keeps the hash. *)
Example unsigned_payload_wraps :
  operations.additive_trapdoor.mul (HN := unsigned_numeric) 2
    (operations.additive_trapdoor.make [3; 5] 7 3) (-1)
  = Ok (operations.additive_trapdoor.make [3; 5] 7 4294967293) /\
  operations.additive_trapdoor.mul (HN := int_numeric) 2
    (operations.additive_trapdoor.make [3; 5] 7 3) (-1)
  = Ok (operations.additive_trapdoor.make [3; 5] 7 (-3)) /\
  operations.additive_trapdoor.mul (HN := int_numeric) 2
    (operations.additive_trapdoor.make [3; 5] 7 2147483647) 2
  = Undefined.
Proof. repeat split. Qed.

(** ** Symmetric-difference sets *)

Section sds_facts.
Import sets.symmetric_difference_set.
Variable N : nat.

Lemma default_fingerprint : key_fingerprint (default N) = 0.
Proof. reflexivity. Qed.

Lemma verify_compatible_zero_l (s : t) :
  verify_compatible (default N) s = Ok tt.
Proof. reflexivity. Qed.

Lemma verify_compatible_zero_r (s : t) :
  verify_compatible s (default N) = Ok tt.
Proof.
  unfold verify_compatible. cbn [key_fingerprint default].
  now rewrite Z.eqb_refl, andb_false_r.
Qed.

(** [s ^ empty]: the hash and the fingerprint of [s]. *)
Lemma xor_empty_r (s : t) :
  List.length (hash s) = N -> xor N s (default N) = Ok s.
Proof.
  intros L. unfold xor. rewrite verify_compatible_zero_r.
  cbn [bind default hash]. rewrite hxor_zero_r by exact L.
  now destruct s.
Qed.

(** [empty ^ s]: the hash of [s], and the fingerprint of the left
    operand, which is 0. *)
Lemma xor_empty_l (s : t) :
  List.length (hash s) = N -> xor N (default N) s = Ok (make (hash s) 0).
Proof.
  intros L. unfold xor. rewrite verify_compatible_zero_l.
  cbn [bind default hash key_fingerprint].
  now rewrite hxor_zero_l by exact L.
Qed.

(** [empty ^= elem]: the hash and the fingerprint of [elem]. *)
Lemma xor_assign_empty (elem : trapdoor.t) :
  List.length (trapdoor.hash elem) = N ->
  xor_assign N (default N) elem
    = Ok (make (trapdoor.hash elem) (trapdoor.key_fingerprint elem)).
Proof.
  intros L. unfold xor_assign. cbn [default hash key_fingerprint].
  rewrite Z.eqb_refl, andb_false_r.
  now rewrite hxor_zero_l by exact L.
Qed.
End sds_facts.

(** C2, where the code departs from it: the empty set has fingerprint 0
    and XOR with it leaves the hash unchanged, [^=] adopts the
    fingerprint of the element, but the binary [empty ^ s] keeps the
    fingerprint 0 of its left operand instead of adopting that of [s]. *)
Theorem xor_with_empty_on_the_left :
  let s := sets.symmetric_difference_set.make [5; 12] 9 in
  let elem := trapdoor.make [5; 12] 9 in
  let empty := sets.symmetric_difference_set_factory.empty 2
                 (sets.symmetric_difference_set_factory.make (sample_factory 2 9)) in
  sets.symmetric_difference_set.key_fingerprint empty = 0 /\
  sets.symmetric_difference_set.xor 2 empty s
    = Ok (sets.symmetric_difference_set.make [5; 12] 0) /\
  sets.symmetric_difference_set.xor 2 s empty
    = Ok (sets.symmetric_difference_set.make [5; 12] 9) /\
  sets.symmetric_difference_set.xor_assign 2 empty elem
    = Ok (sets.symmetric_difference_set.make [5; 12] 9).
Proof. repeat split. Qed.

(** ** Threshold scheme: shares *)

Section index_loops.
Context {A B : Type}.

Lemma skipn_cons_nth (l : list B) (d : B) (s : nat) :
  (s < List.length l)%nat -> skipn s l = nth s l d :: skipn (S s) l.
Proof.
  revert s. induction l as [|x l IH]; intros s Hs; simpl in Hs; [lia|].
  destruct s as [|s]; [reflexivity|].
  cbn [skipn nth]. apply IH. lia.
Qed.

(** A loop over the indices [s, s + m) of a vector is a fold over that
    slice. *)
Lemma fold_left_indices (f : A -> B -> A) (l : list B) (d : B) (m s : nat) (a : A) :
  (s + m <= List.length l)%nat ->
  fold_left (fun acc i => f acc (nth i l d)) (seq s m) a
  = fold_left f (firstn m (skipn s l)) a.
Proof.
  revert s a. induction m as [|m IH]; intros s a Hm; [reflexivity|].
  rewrite (skipn_cons_nth l d s) by lia.
  cbn [seq fold_left firstn]. rewrite IH by lia. reflexivity.
Qed.
End index_loops.

Section share_facts.
Import operations.threshold_scheme.
Context {G : Type} (rand : G -> Z * G).
Variable N : nat.

Lemma random_share_length (g : G) :
  List.length (fst (random_share rand N g)) = N.
Proof.
  revert g. induction N as [|n IH]; intros g; [reflexivity|].
  cbn [random_share]. destruct (rand g) as [r g1].
  specialize (IH g1). destruct (random_share rand n g1) as [rest g2].
  simpl in *. now rewrite IH.
Qed.

Lemma random_shares_length (count : nat) (g : G) :
  List.length (fst (random_shares rand N count g)) = count.
Proof.
  revert g. induction count as [|c IH]; intros g; [reflexivity|].
  cbn [random_shares]. destruct (random_share rand N g) as [share g1].
  specialize (IH g1). destruct (random_shares rand N c g1) as [rest g2].
  simpl in *. now rewrite IH.
Qed.

Lemma fold_xor_shift (l : list hash_value) (x a : hash_value) :
  fold_left (hxor N) l (hxor N x a) = hxor N x (fold_left (hxor N) l a).
Proof.
  revert a. induction l as [|y l IH]; intros a; [reflexivity|].
  cbn [fold_left]. now rewrite hxor_assoc, IH.
Qed.

(** XOR of the shares [l] followed by the share [h ^ XOR(l)]. *)
Lemma xor_shares_cancel (l : list hash_value) (h : hash_value) :
  List.length h = N ->
  let shares := l ++ [fold_left (hxor N) l h] in
  fold_left (hxor N) (tl shares) (hd (zero_hash N) shares) = h.
Proof.
  intros Lh. destruct l as [|a l]; [reflexivity|].
  cbn [app hd tl fold_left]. rewrite fold_left_app. cbn [fold_left].
  rewrite fold_xor_shift.
  rewrite (hxor_comm N h), <- hxor_assoc, hxor_nilpotent.
  now apply hxor_zero_l.
Qed.

Lemma reconstruct_first_k (s : t) (shares : list hash_value) (kf : Z) :
  Z.of_nat (List.length shares) = threshold_ s ->
  (1 <= List.length shares)%nat ->
  reconstruct N s shares kf
  = Ok (trapdoor.make
          (fold_left (hxor N) (tl shares) (hd (zero_hash N) shares)) kf).
Proof.
  intros Hk Hpos. unfold reconstruct.
  rewrite <- Hk, Z.ltb_irrefl, Nat2Z.id.
  destruct shares as [|first rest]; [simpl in Hpos; lia|].
  rewrite fold_left_indices by (simpl; lia).
  cbn [List.length Nat.sub skipn hd tl].
  now rewrite Nat.sub_0_r, firstn_all.
Qed.

Lemma reconstruct_too_few (s : t) (shares : list hash_value) (kf : Z) :
  Z.of_nat (List.length shares) < threshold_ s ->
  reconstruct N s shares kf = Throw InsufficientShares.
Proof.
  intros H. unfold reconstruct. now apply Z.ltb_lt in H as ->.
Qed.

(** The vector [create_shares] returns. *)
Lemma create_shares_eq (k n : Z) (td : trapdoor.t) (g : G) :
  1 <= k <= n -> n < size_max ->
  let random := fst (random_shares rand N (Z.to_nat (n - 1)) g) in
  fst (create_shares rand N (make k n) td g)
  = random ++ [fold_left (hxor N) (firstn (Z.to_nat (k - 1)) random)
                         (trapdoor.hash td)].
Proof.
  intros Hk Hn random. unfold create_shares. cbn [threshold_ total_].
  unfold wrap64. rewrite !Z.mod_small by lia.
  pose proof (random_shares_length (Z.to_nat (n - 1)) g) as Lr.
  fold random in Lr. subst random.
  destruct (random_shares rand N (Z.to_nat (n - 1)) g) as [rs g'].
  cbn [fst] in *. rewrite Lr.
  rewrite Nat.min_l by lia.
  rewrite fold_left_indices by lia.
  reflexivity.
Qed.
End share_facts.

(** C6: for a scheme with [1 <= k <= n], [create_shares] returns [n]
    shares: the first [n - 1] are the random words drawn from
    [std::rand], byte by byte, and the last one is [td.hash] XOR the first
    [k - 1] of them; [reconstruct] on those [k - 1] shares followed by
    the last share gives back a trapdoor with the hash of [td]; and
    [reconstruct] on fewer than [k] shares raises InsufficientShares. *)
Theorem threshold_shares_spec {G : Type} (rand : G -> Z * G) (N : nat)
  (k n : Z) (td : trapdoor.t) (g : G) (kf : Z) :
  1 <= k <= n -> n < size_max ->
  List.length (trapdoor.hash td) = N ->
  exists s,
    operations.threshold_scheme.create k n = Ok s /\
    let shares := fst (operations.threshold_scheme.create_shares rand N s td g) in
    let first_shares := firstn (Z.to_nat (k - 1)) shares in
    let last_share := last shares (zero_hash N) in
    List.length shares = Z.to_nat n /\
    firstn (Z.to_nat (n - 1)) shares
      = fst (operations.threshold_scheme.random_shares
               rand N (Z.to_nat (n - 1)) g) /\
    last_share = fold_left (hxor N) first_shares (trapdoor.hash td) /\
    operations.threshold_scheme.reconstruct N s (first_shares ++ [last_share]) kf
      = Ok (trapdoor.make (trapdoor.hash td) kf) /\
    (forall few : list hash_value,
        Z.of_nat (List.length few) < k ->
        operations.threshold_scheme.reconstruct N s few kf
          = Throw InsufficientShares).
Proof.
  intros Hk Hn Lh.
  exists (operations.threshold_scheme.make k n).
  split; [apply create_within_total; lia|].
  cbv zeta. rewrite create_shares_eq by easy.
  set (random := fst (operations.threshold_scheme.random_shares
                        rand N (Z.to_nat (n - 1)) g)).
  assert (Lr : List.length random = Z.to_nat (n - 1))
    by apply random_shares_length.
  set (first_shares := firstn (Z.to_nat (k - 1)) random).
  assert (Lf : List.length first_shares = Z.to_nat (k - 1))
    by (unfold first_shares; rewrite length_firstn; lia).
  rewrite last_last.
  rewrite !firstn_app.
  replace (Z.to_nat (k - 1) - List.length random)%nat with 0%nat by lia.
  replace (Z.to_nat (n - 1) - List.length random)%nat with 0%nat by lia.
  cbn [firstn]. rewrite !app_nil_r. fold first_shares.
  split; [|split; [|split; [|split]]].
  - rewrite length_app, Lr. simpl. lia.
  - rewrite <- Lr. apply firstn_all.
  - reflexivity.
  - rewrite reconstruct_first_k.
    + now rewrite xor_shares_cancel.
    + rewrite length_app, Lf. simpl. lia.
    + rewrite length_app. simpl. lia.
  - intros few Hfew. now apply reconstruct_too_few.
Qed.

Lemma threshold_shares_spec_witness :
  exists s,
    operations.threshold_scheme.create 3 5 = Ok s /\
    let shares :=
      fst (operations.threshold_scheme.create_shares
             sample_rand 2 s (trapdoor.make [10; 20] 7) 1) in
    let first_shares := firstn 2 shares in
    let last_share := last shares (zero_hash 2) in
    List.length shares = 5%nat /\
    firstn 4 shares
      = fst (operations.threshold_scheme.random_shares sample_rand 2 4 1) /\
    last_share = fold_left (hxor 2) first_shares [10; 20] /\
    operations.threshold_scheme.reconstruct 2 s (first_shares ++ [last_share]) 7
      = Ok (trapdoor.make [10; 20] 7) /\
    (forall few : list hash_value,
        Z.of_nat (List.length few) < 3 ->
        operations.threshold_scheme.reconstruct 2 s few 7
          = Throw InsufficientShares).
Proof.
  apply (threshold_shares_spec sample_rand 2 3 5 (trapdoor.make [10; 20] 7) 1 7).
  - lia.
  - unfold size_max. lia.
  - reflexivity.
Defined.

Example shares_3_of_5 :
  fst (operations.threshold_scheme.create_shares
         sample_rand 2 (operations.threshold_scheme.make 3 5)
         (trapdoor.make [10; 20] 7) 1)
  = [[166; 231]; [148; 61]; [50; 131]; [0; 57]; [56; 206]].
Proof. vm_compute. reflexivity. Qed.

(** ** MinHash *)

Section minhash_facts.
Import operations.minhash.

Lemma count_loop_all (a : list Z) (s n : nat) (acc : Z) :
  fold_left
    (fun matches i => if nth i a 0 =? nth i a 0 then matches + 1 else matches)
    (seq s n) acc
  = acc + Z.of_nat n.
Proof.
  revert s acc. induction n as [|n IH]; intros s acc.
  - simpl. lia.
  - cbn [seq fold_left]. rewrite Z.eqb_refl, IH. lia.
Qed.

Lemma count_matches_same (a : list Z) :
  count_matches a a = Z.of_nat (List.length a).
Proof. unfold count_matches. now rewrite count_loop_all. Qed.

Lemma one_times_zero : dmul d1 (dsub d1 d1) = d0.
Proof. vm_compute. reflexivity. Qed.

Lemma estimate_full_signature (lm : libm) (m : t) (kf : Z) :
  sqrt lm d0 = d0 -> 1 <= num_hashes_ m ->
  estimate_similarity lm m (new_signature (num_hashes_ m) kf)
                           (new_signature (num_hashes_ m) kf)
  = Ok (approx1 d1 d0).
Proof.
  intros Hsqrt Hk. unfold estimate_similarity, new_signature.
  cbn [values key_fingerprint].
  rewrite Z.eqb_refl, Nat.eqb_refl. cbn [negb].
  rewrite count_matches_same, repeat_length, Z2Nat.id by lia.
  rewrite ddiv_self by exact Hk.
  rewrite one_times_zero.
  now rewrite ddiv_zero, Hsqrt.
Qed.
End minhash_facts.

(** C10, for an engine with at least one hash function: the signature of
    an empty collection has [num_hashes] coordinates, all equal to
    [2^32 - 1], and [estimate_similarity] on two such signatures of one
    engine returns similarity 1.0 with error rate 0 ([std::sqrt] being
    such that [sqrt(0.0) = 0.0]). *)
Theorem minhash_empty_collection_spec {T : Type} {HT : Hashable T}
  {HS : Hashable string} (lm : libm) (N : nat) (m : operations.minhash.t) :
  let sig := operations.minhash.generate_signature N m (@nil T) in
  operations.minhash.values sig
    = repeat (2 ^ 32 - 1) (Z.to_nat (operations.minhash.num_hashes_ m)) /\
  (sqrt lm d0 = d0 ->
   1 <= operations.minhash.num_hashes_ m ->
   exists r,
     operations.minhash.estimate_similarity lm m sig sig = Ok r /\
     value r = d1 /\ error_rate r = d0).
Proof.
  cbv zeta. split; [reflexivity|].
  intros Hsqrt Hk. exists (approx1 d1 d0).
  split; [|split; reflexivity].
  now apply estimate_full_signature.
Qed.

Lemma minhash_empty_collection_spec_witness :
  let m := operations.minhash.make (sample_factory 4 7) 3 in
  let sig := operations.minhash.generate_signature
               (HT := hash_Z) (HS := hash_string) 4 m [] in
  operations.minhash.values sig = [4294967295; 4294967295; 4294967295] /\
  exists r,
    operations.minhash.estimate_similarity sample_libm m sig sig = Ok r /\
    value r = d1 /\ error_rate r = d0.
Proof.
  cbv zeta. split; [reflexivity|].
  apply (proj2 (minhash_empty_collection_spec
                  (HT := hash_Z) (HS := hash_string) sample_libm 4
                  (operations.minhash.make (sample_factory 4 7) 3))).
  - reflexivity.
  - simpl. lia.
Defined.

(** C10 as stated fails for an engine with no hash function: the two
    signatures are empty and the similarity is 0.0 / 0, not 1.0. *)
Lemma minhash_zero_hashes_is_nan :
  let m := operations.minhash.make (sample_factory 4 7) 0 in
  let sig := operations.minhash.generate_signature
               (HT := hash_Z) (HS := hash_string) 4 m [] in
  operations.minhash.values sig = [] /\
  operations.minhash.estimate_similarity sample_libm m sig sig
    = Ok (approx1 NaN NaN) /\
  (forall r,
      operations.minhash.estimate_similarity sample_libm m sig sig = Ok r ->
      value r <> d1).
Proof.
  cbv zeta. split; [reflexivity|]. split; [reflexivity|].
  intros r E. vm_compute in E. inversion E. discriminate.
Qed.

(** ** Boolean sets: membership *)

Lemma hand_subset_spec (N : nat) (a h : hash_value) :
  heqb N (hand N a h) h = true
  <-> (forall j, (j < N)%nat -> Z.land (byte_at a j) (byte_at h j) = byte_at h j).
Proof.
  rewrite heqb_spec. unfold hand.
  split; intros E j Hj; specialize (E j Hj);
    now rewrite byte_at_bytewise in * by exact Hj.
Qed.

(** [contains] as it is written: with matching key fingerprints it takes
    the hash of [t] itself as the mask and returns the approximate bool
    with value [((a.hash & t.hash) == t.hash)], fpr 0.5 and fnr 0 -- the
    value is true exactly when every bit of [t.hash] is set in [a.hash];
    with differing fingerprints it raises IncompatibleKey. *)
Theorem boolean_set_contains_spec (N : nat) (a : sets.boolean_set.t)
  (t : trapdoor.t) :
  (trapdoor.key_fingerprint t = sets.boolean_set.key_fingerprint a ->
   sets.boolean_set.contains N a t
   = Ok (approx (heqb N (hand N (sets.boolean_set.hash a) (trapdoor.hash t))
                        (trapdoor.hash t))
                (Fin (1 # 2)) (Fin 0))) /\
  (trapdoor.key_fingerprint t <> sets.boolean_set.key_fingerprint a ->
   sets.boolean_set.contains N a t = Throw IncompatibleKey) /\
  (heqb N (hand N (sets.boolean_set.hash a) (trapdoor.hash t)) (trapdoor.hash t)
   = true
   <-> forall j, (j < N)%nat ->
         Z.land (byte_at (sets.boolean_set.hash a) j)
                (byte_at (trapdoor.hash t) j)
         = byte_at (trapdoor.hash t) j).
Proof.
  unfold sets.boolean_set.contains. split; [|split].
  - intros E. now rewrite E, Z.eqb_refl.
  - intros D. now apply Z.eqb_neq in D as ->.
  - apply hand_subset_spec.
Qed.

Lemma boolean_set_contains_spec_witness :
  sets.boolean_set.contains 2 (sets.boolean_set.make [7; 12] 5)
                              (trapdoor.make [5; 8] 5)
    = Ok (approx true (Fin (1 # 2)) (Fin 0)) /\
  sets.boolean_set.contains 2 (sets.boolean_set.make [7; 12] 5)
                              (trapdoor.make [5; 8] 6)
    = Throw IncompatibleKey.
Proof.
  split.
  - apply (proj1 (boolean_set_contains_spec 2 (sets.boolean_set.make [7; 12] 5)
                    (trapdoor.make [5; 8] 5))).
    reflexivity.
  - apply (proj1 (proj2 (boolean_set_contains_spec 2
                           (sets.boolean_set.make [7; 12] 5)
                           (trapdoor.make [5; 8] 6)))).
    simpl. lia.
Defined.

(** C1: a set built from a collection should report each member as
    contained; the code misses a member.  Under the sample platform with
    key 5, one-byte hashes and three sub-hashes, the set built from the
    collection [[5]] has hash [[7]] and the trapdoor of its member 5 has
    hash [[10]]: [contains] answers false with false-negative rate 0,
    where the claim promises true, and where the mask of the
    specification, [[0]], gives true. *)
Lemma contains_misses_member :
  let f := sets.boolean_set_factory.make (sample_factory 1 5) 3 in
  let s := sets.boolean_set.make [7] 5 in
  let t := trapdoor.make [10] 5 in
  sets.boolean_set_factory.from_collection
    (HT := hash_Z) (HS := hash_string) 1 f [5] = Ok s /\
  trapdoor_factory.create (HT := hash_Z) (sample_factory 1 5) 5 = t /\
  sets.boolean_set.contains 1 s t = Ok (approx false (Fin (1 # 2)) (Fin 0)) /\
  spec_singleton_mask 1 3 t = [0] /\
  spec_contains_value 1 3 s t = true.
Proof. cbv zeta. repeat split. Qed.

(** *** Why a member is missed

    A singleton only ever sets the bits [i mod 8], [i < num_hashes], of a
    byte, whereas [contains] asks for every bit of the trapdoor's own
    hash.  With fewer than eight sub-hashes a trapdoor with any higher bit
    set is reported absent from every set the factory builds. *)

Lemma fold_left_invariant {A B : Type} (P : A -> Prop) (f : A -> B -> A)
  (l : list B) (a : A) :
  P a -> (forall acc x, In x l -> P acc -> P (f acc x)) -> P (fold_left f l a).
Proof.
  revert a. induction l as [|x l IH]; intros a Ha Hstep; [exact Ha|].
  cbn [fold_left]. apply IH.
  - apply Hstep; [now left | exact Ha].
  - intros acc y Hy. apply Hstep. now right.
Qed.

Lemma byte_at_map_seq (g : nat -> Z) (N j : nat) :
  (j < N)%nat -> byte_at (map g (seq 0 N)) j = g j.
Proof.
  intros Hj. unfold byte_at.
  rewrite (nth_indep _ 0 (g 0%nat)) by now rewrite length_map, length_seq.
  now rewrite map_nth, seq_nth.
Qed.

Lemma lor_below (m a b : Z) :
  0 <= a < 2 ^ m -> 0 <= b < 2 ^ m -> 0 <= Z.lor a b < 2 ^ m.
Proof.
  intros Ha Hb.
  assert (Hnn : 0 <= Z.lor a b) by (apply Z.lor_nonneg; lia).
  split; [exact Hnn|].
  destruct (Z.eq_dec (Z.lor a b) 0) as [E|NE]; [lia|].
  apply Z.log2_lt_pow2; [lia|].
  rewrite Z.log2_lor by lia.
  assert (Hm : 0 < m).
  { destruct (Z_lt_le_dec 0 m) as [|Hle]; [easy|].
    assert (2 ^ m <= 1).
    { destruct (Z.eq_dec m 0) as [->|]; [simpl; lia|].
      rewrite Z.pow_neg_r by lia. lia. }
    assert (a = 0) by lia. assert (b = 0) by lia. subst. now simpl in NE. }
  assert (La : Z.log2 a < m).
  { destruct (Z.eq_dec a 0) as [->|]; [simpl; lia|].
    apply Z.log2_lt_pow2; lia. }
  assert (Lb : Z.log2 b < m).
  { destruct (Z.eq_dec b 0) as [->|]; [simpl; lia|].
    apply Z.log2_lt_pow2; lia. }
  lia.
Qed.

Lemma land_misses_high_bit (m a t : Z) :
  0 <= m -> 0 <= a < 2 ^ m -> 2 ^ m <= t -> Z.land a t <> t.
Proof.
  intros Hm Ha Ht E.
  assert (0 < 2 ^ m) by (apply Z.pow_pos_nonneg; lia).
  destruct (Z.eq_dec a 0) as [->|Hne]; [rewrite Z.land_0_l in E; lia|].
  pose proof (Z.log2_land a t ltac:(lia) ltac:(lia)) as Hl.
  rewrite E in Hl.
  assert (Z.log2 a < m) by (apply Z.log2_lt_pow2; lia).
  assert (m <= Z.log2 t) by (apply Z.log2_le_pow2; lia).
  lia.
Qed.

Section missed_members.
Import sets.
Context {T : Type} {HT : Hashable T} {HS : Hashable string}.
Variable N : nat.
Variable f : boolean_set_factory.t.
Hypothesis few_hashes : 0 <= boolean_set_factory.num_hashes_ f < 8.

Lemma singleton_bytes_below (v : T) :
  bytes_below N (2 ^ boolean_set_factory.num_hashes_ f) (boolean_set_factory.singleton_hash N f v).
Proof.
  unfold boolean_set_factory.singleton_hash.
  apply fold_left_invariant.
  - intros j Hj. rewrite byte_at_zero_hash.
    split; [lia | apply Z.pow_pos_nonneg; lia].
  - intros acc i Hi Hacc j Hj. apply in_seq in Hi.
    unfold boolean_set_factory.set_bits.
    rewrite byte_at_map_seq by exact Hj.
    destruct (Z.land _ 1 =? 0); [now apply Hacc|].
    apply lor_below; [now apply Hacc|].
    rewrite Z.mod_small by lia. rewrite Z.shiftl_1_l.
    split; [apply Z.pow_nonneg; lia|].
    apply Z.pow_lt_mono_r; lia.
Qed.

Lemma from_collection_bytes_below (values : list T) (s : boolean_set.t) :
  boolean_set_factory.from_collection N f values = Ok s ->
  bytes_below N (2 ^ boolean_set_factory.num_hashes_ f) (boolean_set.hash s).
Proof.
  unfold boolean_set_factory.from_collection. revert s.
  apply (fold_left_invariant
           (fun acc => forall s, acc = Ok s ->
                                 bytes_below N (2 ^ boolean_set_factory.num_hashes_ f) (boolean_set.hash s))).
  - intros s [= <-] j Hj. unfold boolean_set_factory.empty.
  cbn [boolean_set.hash]. rewrite byte_at_zero_hash.
    split; [lia | apply Z.pow_pos_nonneg; lia].
  - intros acc v _ Hacc s E.
    destruct acc as [r| |]; try discriminate. cbn [bind] in E.
    unfold boolean_set.union in E.
    destruct (boolean_set.verify_compatible _ _); try discriminate.
    cbn [bind] in E. injection E as <-. cbn [boolean_set.hash].
    intros j Hj. unfold hor. rewrite byte_at_bytewise by exact Hj.
    apply lor_below; [now apply (Hacc r) | now apply singleton_bytes_below].
Qed.

Lemma contains_misses_high_bits (values : list T) (s : boolean_set.t)
  (t : trapdoor.t) (j : nat) :
  boolean_set_factory.from_collection N f values = Ok s ->
  trapdoor.key_fingerprint t = boolean_set.key_fingerprint s ->
  (j < N)%nat ->
  2 ^ boolean_set_factory.num_hashes_ f <= byte_at (trapdoor.hash t) j ->
  boolean_set.contains N s t = Ok (approx false half d0).
Proof.
  intros Hs Hkf Hj Hbit. unfold boolean_set.contains.
  rewrite Hkf, Z.eqb_refl. cbn [negb].
  destruct (heqb N _ _) eqn:E; [|reflexivity].
  exfalso. pose proof (proj1 (hand_subset_spec N _ _) E j Hj) as E'.
  revert E'. apply (land_misses_high_bit (boolean_set_factory.num_hashes_ f));
    [lia | | exact Hbit].
  now apply (from_collection_bytes_below values s).
Qed.
End missed_members.

(** * Further properties of the library *)

(** ** Hash words: the bitwise algebra *)

Lemma is_byte_mod (x : Z) : is_byte x <-> x mod 2 ^ 8 = x.
Proof.
  unfold is_byte. change (2 ^ 8) with 256. split.
  - intros H. now apply Z.mod_small.
  - intros <-. apply Z.mod_pos_bound. lia.
Qed.

(** Equations between byte-valued bit expressions, decided bit by bit. *)
Ltac byte_bits :=
  apply Z.bits_inj'; intros ?n ?Hn;
  repeat (rewrite ?Z.testbit_mod_pow2, ?Z.lnot_spec, ?Z.lxor_spec,
            ?Z.land_spec, ?Z.lor_spec, ?Z.bits_0 by lia);
  repeat match goal with
         | |- context [Z.testbit ?a ?n] => destruct (Z.testbit a n)
         | |- context [?n <? 8] => destruct (n <? 8)
         end;
  reflexivity.

Section byte_facts.
Variables a b : Z.
Hypothesis Ha : is_byte a.
Hypothesis Hb : is_byte b.

Lemma lxor_is_byte : is_byte (Z.lxor a b).
Proof.
  apply is_byte_mod in Ha, Hb. apply is_byte_mod.
  rewrite <- Ha, <- Hb. byte_bits.
Qed.

Lemma land_is_byte : is_byte (Z.land a b).
Proof.
  apply is_byte_mod in Ha, Hb. apply is_byte_mod.
  rewrite <- Ha, <- Hb. byte_bits.
Qed.

Lemma lor_is_byte : is_byte (Z.lor a b).
Proof.
  apply is_byte_mod in Ha, Hb. apply is_byte_mod.
  rewrite <- Ha, <- Hb. byte_bits.
Qed.

Lemma lnot_is_byte : is_byte (Z.lnot a mod 256).
Proof. unfold is_byte. apply Z.mod_pos_bound. lia. Qed.

Lemma lnot_byte_value : Z.lnot a mod 256 = 255 - a.
Proof.
  unfold is_byte in Ha. unfold Z.lnot.
  symmetry. apply (Z.mod_unique _ _ (-1)); lia.
Qed.

Lemma lnot_byte_involutive : Z.lnot (Z.lnot a mod 256) mod 256 = a.
Proof.
  rewrite lnot_byte_value. unfold is_byte in Ha. unfold Z.lnot.
  symmetry. apply (Z.mod_unique _ _ (-1)); lia.
Qed.

Lemma de_morgan_and_byte :
  Z.lnot (Z.land a b) mod 256 = Z.lor (Z.lnot a mod 256) (Z.lnot b mod 256).
Proof. change 256 with (2 ^ 8). byte_bits. Qed.

Lemma de_morgan_or_byte :
  Z.lnot (Z.lor a b) mod 256 = Z.land (Z.lnot a mod 256) (Z.lnot b mod 256).
Proof. change 256 with (2 ^ 8). byte_bits. Qed.

Lemma lxor_as_or_minus_and :
  Z.lxor a b = Z.land (Z.lor a b) (Z.lnot (Z.land a b) mod 256).
Proof.
  apply is_byte_mod in Ha, Hb. change 256 with (2 ^ 8).
  rewrite <- Ha, <- Hb. byte_bits.
Qed.

Lemma land_lnot_byte : Z.land a (Z.lnot a mod 256) = 0.
Proof. change 256 with (2 ^ 8). byte_bits. Qed.

Lemma lor_lnot_byte : Z.lor a (Z.lnot a mod 256) = 255.
Proof.
  apply is_byte_mod in Ha. change 256 with (2 ^ 8).
  change 255 with (Z.lnot 0 mod 2 ^ 8).
  rewrite <- Ha. byte_bits.
Qed.
End byte_facts.

Section word_facts.
Variable N : nat.

Lemma byte_at_is_byte (h : hash_value) (i : nat) :
  Forall is_byte h -> is_byte (byte_at h i).
Proof.
  intros Hh. unfold byte_at.
  destruct (nth_in_or_default i h 0) as [Hin | ->].
  - now apply (proj1 (Forall_forall _ _) Hh).
  - unfold is_byte. lia.
Qed.

Lemma byte_at_hnot (a : hash_value) (i : nat) :
  (i < N)%nat -> byte_at (hnot N a) i = Z.lnot (byte_at a i) mod 256.
Proof. intros Hi. unfold hnot. now rewrite byte_at_map_seq. Qed.

Lemma hnot_length (a : hash_value) : List.length (hnot N a) = N.
Proof. unfold hnot. now rewrite length_map, length_seq. Qed.

Lemma bytewise_is_byte (f : Z -> Z -> Z) (a b : hash_value) :
  (forall x y, is_byte x -> is_byte y -> is_byte (f x y)) ->
  Forall is_byte a -> Forall is_byte b -> Forall is_byte (bytewise N f a b).
Proof.
  intros Hf Ha Hb. unfold bytewise. apply Forall_forall.
  intros x Hx. apply in_map_iff in Hx as (i & <- & _).
  apply Hf; now apply byte_at_is_byte.
Qed.

Lemma hnot_is_byte (a : hash_value) : Forall is_byte (hnot N a).
Proof.
  unfold hnot. apply Forall_forall.
  intros x Hx. apply in_map_iff in Hx as (i & <- & _).
  unfold is_byte. apply Z.mod_pos_bound. lia.
Qed.

Lemma hand_length a b : List.length (hand N a b) = N.
Proof. apply bytewise_length. Qed.

Lemma hor_length a b : List.length (hor N a b) = N.
Proof. apply bytewise_length. Qed.

Lemma hand_comm a b : hand N a b = hand N b a.
Proof.
  apply (hash_ext N); try apply hand_length.
  intros i Hi. unfold hand. rewrite !byte_at_bytewise by easy.
  apply Z.land_comm.
Qed.

Lemma hand_assoc a b c : hand N (hand N a b) c = hand N a (hand N b c).
Proof.
  apply (hash_ext N); try apply hand_length.
  intros i Hi. unfold hand. rewrite !byte_at_bytewise by easy.
  symmetry. apply Z.land_assoc.
Qed.

Lemma hor_comm a b : hor N a b = hor N b a.
Proof.
  apply (hash_ext N); try apply hor_length.
  intros i Hi. unfold hor. rewrite !byte_at_bytewise by easy.
  apply Z.lor_comm.
Qed.

Lemma hor_assoc a b c : hor N (hor N a b) c = hor N a (hor N b c).
Proof.
  apply (hash_ext N); try apply hor_length.
  intros i Hi. unfold hor. rewrite !byte_at_bytewise by easy.
  symmetry. apply Z.lor_assoc.
Qed.

Lemma hand_idem a : List.length a = N -> hand N a a = a.
Proof.
  intros La. apply (hash_ext N); [apply hand_length | easy |].
  intros i Hi. unfold hand. rewrite byte_at_bytewise by easy.
  apply Z.land_diag.
Qed.

Lemma hor_idem a : List.length a = N -> hor N a a = a.
Proof.
  intros La. apply (hash_ext N); [apply hor_length | easy |].
  intros i Hi. unfold hor. rewrite byte_at_bytewise by easy.
  apply Z.lor_diag.
Qed.

Lemma hor_zero_l a : List.length a = N -> hor N (zero_hash N) a = a.
Proof.
  intros La. apply (hash_ext N); [apply hor_length | easy |].
  intros i Hi. unfold hor. rewrite byte_at_bytewise by easy.
  rewrite byte_at_zero_hash. apply Z.lor_0_l.
Qed.

Lemma hnot_involutive a : wf_hash N a -> hnot N (hnot N a) = a.
Proof.
  intros [La Ba]. apply (hash_ext N); [apply hnot_length | easy |].
  intros i Hi. rewrite !byte_at_hnot by easy.
  apply lnot_byte_involutive. now apply byte_at_is_byte.
Qed.

Lemma hnot_hand a b : hnot N (hand N a b) = hor N (hnot N a) (hnot N b).
Proof.
  apply (hash_ext N); [apply hnot_length | apply hor_length |].
  intros i Hi. unfold hand, hor.
  rewrite byte_at_hnot, !byte_at_bytewise, !byte_at_hnot by easy.
  apply de_morgan_and_byte.
Qed.

Lemma hnot_hor a b : hnot N (hor N a b) = hand N (hnot N a) (hnot N b).
Proof.
  apply (hash_ext N); [apply hnot_length | apply hand_length |].
  intros i Hi. unfold hand, hor.
  rewrite byte_at_hnot, !byte_at_bytewise, !byte_at_hnot by easy.
  apply de_morgan_or_byte.
Qed.

Lemma hxor_cancel_r a b : List.length a = N -> hxor N (hxor N a b) b = a.
Proof.
  intros La. rewrite hxor_assoc, hxor_nilpotent. now apply hxor_zero_r.
Qed.
End word_facts.

(** X1: on [N]-byte words, [operator^] is commutative and associative,
    every word is its own inverse, the zero word is neutral, and XOR-ing
    the same word twice gives back the original. *)
Theorem hash_xor_group_laws (N : nat) (a b c : hash_value) :
  hxor N a b = hxor N b a /\
  hxor N (hxor N a b) c = hxor N a (hxor N b c) /\
  hxor N a a = zero_hash N /\
  (List.length a = N ->
   hxor N a (zero_hash N) = a /\ hxor N (zero_hash N) a = a /\
   hxor N (hxor N a b) b = a).
Proof.
  split; [apply hxor_comm|].
  split; [apply hxor_assoc|].
  split; [apply hxor_nilpotent|].
  intros La. split; [now apply hxor_zero_r|].
  split; [now apply hxor_zero_l | now apply hxor_cancel_r].
Qed.

Lemma hash_xor_group_laws_witness :
  hxor 2 [3; 5] (zero_hash 2) = [3; 5] /\
  hxor 2 (zero_hash 2) [3; 5] = [3; 5] /\
  hxor 2 (hxor 2 [3; 5] [9; 12]) [9; 12] = [3; 5].
Proof.
  apply (proj2 (proj2 (proj2 (hash_xor_group_laws 2 [3; 5] [9; 12] [])))).
  reflexivity.
Defined.

(** X2: [operator&] and [operator|] are commutative and associative, De
    Morgan's laws hold for [operator~], and on byte-valued [N]-byte words
    [&] and [|] are idempotent and [~~x = x]. *)
Theorem hash_lattice_laws (N : nat) (a b c : hash_value) :
  hand N a b = hand N b a /\
  hor N a b = hor N b a /\
  hand N (hand N a b) c = hand N a (hand N b c) /\
  hor N (hor N a b) c = hor N a (hor N b c) /\
  hnot N (hand N a b) = hor N (hnot N a) (hnot N b) /\
  hnot N (hor N a b) = hand N (hnot N a) (hnot N b) /\
  (wf_hash N a ->
   hand N a a = a /\ hor N a a = a /\ hnot N (hnot N a) = a).
Proof.
  split; [apply hand_comm|]. split; [apply hor_comm|].
  split; [apply hand_assoc|]. split; [apply hor_assoc|].
  split; [apply hnot_hand|]. split; [apply hnot_hor|].
  intros Wa. pose proof Wa as [La _].
  split; [now apply hand_idem|].
  split; [now apply hor_idem | now apply hnot_involutive].
Qed.

Lemma hash_lattice_laws_witness :
  hand 2 [3; 200] [3; 200] = [3; 200] /\
  hor 2 [3; 200] [3; 200] = [3; 200] /\
  hnot 2 (hnot 2 [3; 200]) = [3; 200].
Proof.
  apply (proj2 (proj2 (proj2 (proj2 (proj2 (proj2
           (hash_lattice_laws 2 [3; 200] [] []))))))).
  split; [reflexivity|].
  repeat constructor; unfold is_byte; lia.
Defined.

(** X3: the four operators return [N]-byte words whatever their operands,
    and keep every byte within [0, 255] when the operands' bytes are. *)
Theorem hash_operators_keep_words (N : nat) (a b : hash_value) :
  List.length (hxor N a b) = N /\ List.length (hand N a b) = N /\
  List.length (hor N a b) = N /\ wf_hash N (hnot N a) /\
  (Forall is_byte a -> Forall is_byte b ->
   wf_hash N (hxor N a b) /\ wf_hash N (hand N a b) /\ wf_hash N (hor N a b)).
Proof.
  split; [apply hxor_length|]. split; [apply hand_length|].
  split; [apply hor_length|].
  split; [split; [apply hnot_length | apply hnot_is_byte]|].
  intros Ba Bb. unfold wf_hash.
  rewrite hxor_length, hand_length, hor_length.
  repeat split; apply bytewise_is_byte; auto.
  - intros x y. apply lxor_is_byte.
  - intros x y. apply land_is_byte.
  - intros x y. apply lor_is_byte.
Qed.

Lemma hash_operators_keep_words_witness :
  wf_hash 2 (hxor 2 [3; 200] [255]) /\ wf_hash 2 (hand 2 [3; 200] [255]) /\
  wf_hash 2 (hor 2 [3; 200] [255]).
Proof.
  apply (proj2 (proj2 (proj2 (proj2
           (hash_operators_keep_words 2 [3; 200] [255])))));
    repeat constructor; unfold is_byte; lia.
Defined.

(** ** Approximate values: the error calculus *)

Section calculus_facts.

Lemma dadd_comm (x y : double) : dadd x y = dadd y x.
Proof.
  destruct x as [p|s|], y as [q|s'|]; cbn [dadd]; try reflexivity.
  - apply round64_ext. ring.
  - destruct s, s'; reflexivity.
Qed.

Lemma dmul_comm (x y : double) : dmul x y = dmul y x.
Proof.
  destruct x as [p|s|], y as [q|s'|]; cbn [dmul]; try reflexivity.
  - apply round64_ext. ring.
  - destruct s, s'; reflexivity.
Qed.

Lemma compose_comm (e1 e2 : double) :
  compose_error_rates e1 e2 = compose_error_rates e2 e1.
Proof.
  unfold compose_error_rates. now rewrite dadd_comm, dmul_comm.
Qed.

Lemma compose_in_unit (e1 e2 : double) :
  in_unit e1 = true -> in_unit e2 = true ->
  in_unit (compose_error_rates e1 e2) = true.
Proof.
  intros H1 H2.
  apply in_unit_inv in H1 as (q1 & -> & B1).
  apply in_unit_inv in H2 as (q2 & -> & B2).
  destruct (compose_unit q1 q2 B1 B2) as (r & -> & B & _).
  now apply in_unit_fin.
Qed.

(** The composed rate against its two operands and their sum. *)
Lemma compose_bounds (q1 q2 : Q) :
  (0 <= q1 <= 1)%Q -> (0 <= q2 <= 1)%Q ->
  exists r, compose_error_rates (Fin q1) (Fin q2) = Fin r /\
            (q1 - 2 ^ (-51) <= r)%Q /\ (q2 - 2 ^ (-51) <= r)%Q /\
            (r <= q1 + q2 + 2 ^ (-51))%Q.
Proof.
  intros B1 B2. destruct (compose_unit q1 q2 B1 B2) as (r & E & _ & A).
  exists r. split; [exact E|].
  assert (0 <= q1 * q2)%Q by (apply Qmult_le_0_compat; lra).
  assert (q1 * q2 <= q1)%Q by (apply Qmult_le_unit; lra).
  assert (q1 * q2 <= q2)%Q by (rewrite Qmult_comm; apply Qmult_le_unit; lra).
  repeat split; lra.
Qed.
End calculus_facts.

(** X4: De Morgan's laws and double negation hold exactly for approximate
    bools, in the value and in both rates: [!(a && b)] is [!a || !b],
    [!(a || b)] is [!a && !b] and [!!a] is [a]. *)
Theorem approximate_bool_de_morgan (a b : approximate_bool) :
  not_ (and_ a b) = or_ (not_ a) (not_ b) /\
  not_ (or_ a b) = and_ (not_ a) (not_ b) /\
  not_ (not_ a) = a.
Proof.
  destruct a as [va pa na], b as [vb pb nb].
  unfold not_, and_, or_, approx; cbn.
  repeat split; f_equal.
  - apply negb_andb.
  - apply negb_orb.
  - apply negb_involutive.
Qed.

(** X5: [&&] and [||] are commutative, in the value and in both rates;
    and when the rates of the operands lie in [[0, 1]], the rates that
    [&&], [||] and [!] return lie in [[0, 1]] again. *)
Theorem approximate_bool_algebra (a b : approximate_bool) :
  and_ a b = and_ b a /\ or_ a b = or_ b a /\
  (valid_rates a = true -> valid_rates b = true ->
   valid_rates (and_ a b) = true /\ valid_rates (or_ a b) = true /\
   valid_rates (not_ a) = true).
Proof.
  split; [|split].
  - unfold and_. cbv zeta. f_equal; [apply andb_comm | apply compose_comm..].
  - unfold or_. cbv zeta. f_equal; [apply orb_comm | apply compose_comm..].
  - unfold valid_rates. intros Ha Hb.
    apply andb_true_iff in Ha as [Pa Na]. apply andb_true_iff in Hb as [Pb Nb].
    split; [|split].
    + cbn [and_ approx false_positive_rate false_negative_rate].
      apply andb_true_iff. split; now apply compose_in_unit.
    + cbn [or_ approx false_positive_rate false_negative_rate].
      apply andb_true_iff. split; now apply compose_in_unit.
    + cbn [not_ approx false_positive_rate false_negative_rate].
      apply andb_true_iff. now split.
Qed.

Lemma approximate_bool_algebra_witness :
  valid_rates (and_ (approx true (literal (1 # 5)) d0)
                    (approx false (literal (7 # 10)) d0)) = true /\
  valid_rates (or_ (approx true (literal (1 # 5)) d0)
                   (approx false (literal (7 # 10)) d0)) = true.
Proof.
  destruct (approximate_bool_algebra
              (approx true (literal (1 # 5)) d0)
              (approx false (literal (7 # 10)) d0)) as (_ & _ & H).
  assert (Va : valid_rates (approx true (literal (1 # 5)) d0) = true)
    by (vm_compute; reflexivity).
  assert (Vb : valid_rates (approx false (literal (7 # 10)) d0) = true)
    by (vm_compute; reflexivity).
  destruct (H Va Vb) as (V & W & _).
  split; [exact V | exact W].
Defined.

(** The two groupings of three conjunctions can differ in the last place:
    [&&] is not associative in its rates. *)
Example conjunction_is_not_associative :
  let a := approx true (literal (62 # 100)) d0 in
  let b := approx true (literal (74 # 100)) d0 in
  let c := approx true (literal (8 # 10)) d0 in
  and_ (and_ a b) c <> and_ a (and_ b c).
Proof. cbv zeta. intros H. vm_compute in H. discriminate H. Qed.

(** X6: composing keeps an error bound up to rounding: for operands with
    rates in [[0, 1]], each rate of [a && b] (and of [a || b], which
    carries the same rates) is at least the rate of [a] and the rate of
    [b] less [2^-51], and at most their sum plus [2^-51]. *)
Theorem composition_keeps_error_bounds (a b : approximate_bool) :
  valid_rates a = true -> valid_rates b = true ->
  (exists pa pb p,
      false_positive_rate a = Fin pa /\ false_positive_rate b = Fin pb /\
      false_positive_rate (and_ a b) = Fin p /\
      (pa - 2 ^ (-51) <= p)%Q /\ (pb - 2 ^ (-51) <= p)%Q /\
      (p <= pa + pb + 2 ^ (-51))%Q) /\
  (exists na nb n,
      false_negative_rate a = Fin na /\ false_negative_rate b = Fin nb /\
      false_negative_rate (and_ a b) = Fin n /\
      (na - 2 ^ (-51) <= n)%Q /\ (nb - 2 ^ (-51) <= n)%Q /\
      (n <= na + nb + 2 ^ (-51))%Q) /\
  false_positive_rate (or_ a b) = false_positive_rate (and_ a b) /\
  false_negative_rate (or_ a b) = false_negative_rate (and_ a b).
Proof.
  unfold valid_rates. intros Ha Hb.
  apply andb_true_iff in Ha as [Pa Na]. apply andb_true_iff in Hb as [Pb Nb].
  apply in_unit_inv in Pa as (pa & Epa & Bpa), Na as (na & Ena & Bna),
    Pb as (pb & Epb & Bpb), Nb as (nb & Enb & Bnb).
  cbn [and_ or_ approx false_positive_rate false_negative_rate].
  rewrite Epa, Epb, Ena, Enb.
  destruct (compose_bounds pa pb Bpa Bpb) as (p & Ep & Hp).
  destruct (compose_bounds na nb Bna Bnb) as (n & En & Hn).
  split; [|split; [|split; reflexivity]].
  - exists pa, pb, p. now rewrite Ep.
  - exists na, nb, n. now rewrite En.
Qed.

Lemma composition_keeps_error_bounds_witness :
  exists p,
    false_positive_rate (and_ (approx true d1 d0)
                              (approx false (literal (4 # 10)) d0)) = Fin p /\
    (1 - 2 ^ (-51) <= p)%Q.
Proof.
  assert (Va : valid_rates (approx true d1 d0) = true) by reflexivity.
  assert (Vb : valid_rates (approx false (literal (4 # 10)) d0) = true)
    by (vm_compute; reflexivity).
  destruct (composition_keeps_error_bounds _ _ Va Vb)
    as ((pa & pb & p & Ea & _ & Ep & L & _) & _).
  exists p. split; [exact Ep|].
  cbn [approx false_positive_rate] in Ea. injection Ea as <-. exact L.
Defined.

(** The slack is needed: composing the rates 1.0 and 0.4 gives
    0.9999999999999999, below the first operand. *)
Example composition_can_round_down :
  compose_error_rates d1 (literal (4 # 10))
  = Fin (9007199254740991 # 9007199254740992).
Proof. vm_compute. reflexivity. Qed.

(** ** Trapdoors: equality and inequality *)

Lemma heqb_sym (N : nat) (a b : hash_value) : heqb N a b = heqb N b a.
Proof.
  apply eq_true_iff_eq. rewrite !heqb_spec.
  split; intros E i Hi; symmetry; now apply E.
Qed.

(** X7: [equals] is symmetric, and [operator!=] negates it with the rates
    swapped: on matching fingerprints its value says that the hashes
    differ, its false-positive rate is 0 and its false-negative rate is
    [std::pow(2.0, -8N)], which is [2^(-8N)] up to [N = 134] and 0 from
    [N = 135] on; on differing fingerprints it raises IncompatibleKey. *)
Theorem trapdoor_not_equals_spec (N : nat) (a b : trapdoor.t) :
  trapdoor.equals N a b = trapdoor.equals N b a /\
  (trapdoor.key_fingerprint a <> trapdoor.key_fingerprint b ->
   trapdoor.not_equals N a b = Throw IncompatibleKey) /\
  (trapdoor.key_fingerprint a = trapdoor.key_fingerprint b ->
   exists fnr,
     trapdoor.not_equals N a b
     = Ok (approx (negb (heqb N (trapdoor.hash a) (trapdoor.hash b)))
                  d0 fnr) /\
     fnr = pow2 (- (8 * Z.of_nat N)) /\
     ((N <= 134)%nat ->
      exists q, fnr = Fin q /\ (q == 1 / inject_Z (2 ^ (8 * Z.of_nat N)))%Q) /\
     ((135 <= N)%nat -> fnr = d0)).
Proof.
  split; [|split].
  - unfold trapdoor.equals, trapdoor.compatible_with.
    now rewrite Z.eqb_sym, heqb_sym.
  - intros D. unfold trapdoor.not_equals, trapdoor.equals,
      trapdoor.compatible_with.
    now apply Z.eqb_neq in D as ->.
  - intros E. exists (pow2 (- trapdoor.hash_bits N)).
    unfold trapdoor.not_equals. rewrite (trapdoor_equals_ok N a b E).
    split; [reflexivity|].
    split; [unfold trapdoor.hash_bits; now rewrite (Z.mul_comm 8)|].
    apply hash_rate.
Qed.

Lemma trapdoor_not_equals_spec_witness :
  trapdoor.not_equals 2 (trapdoor.make [1; 2] 7) (trapdoor.make [1; 2] 9)
    = Throw IncompatibleKey /\
  exists q,
    trapdoor.not_equals 2 (trapdoor.make [1; 2] 7) (trapdoor.make [1; 3] 7)
      = Ok (approx true d0 (Fin q)) /\
    (q == 1 # 65536)%Q.
Proof.
  split.
  - apply (proj1 (proj2 (trapdoor_not_equals_spec 2 (trapdoor.make [1; 2] 7)
                           (trapdoor.make [1; 2] 9)))).
    simpl. lia.
  - destruct (proj2 (proj2 (trapdoor_not_equals_spec 2
                              (trapdoor.make [1; 2] 7)
                              (trapdoor.make [1; 3] 7))) eq_refl)
      as (fnr & Hq & _ & Hsmall & _).
    destruct Hsmall as (q & -> & Hv); [lia|].
    exists q. split; [exact Hq | rewrite Hv; reflexivity].
Defined.

(** ** Boolean sets: the lattice *)

Section boolean_set_facts.
Import sets.
Variable N : nat.

Lemma bs_union_ok (a b : boolean_set.t) :
  boolean_set.key_fingerprint a = boolean_set.key_fingerprint b ->
  boolean_set.union N a b
  = Ok (boolean_set.make (hor N (boolean_set.hash a) (boolean_set.hash b))
                         (boolean_set.key_fingerprint a)).
Proof.
  intros E. unfold boolean_set.union, boolean_set.verify_compatible.
  now rewrite E, Z.eqb_refl.
Qed.

Lemma bs_intersection_ok (a b : boolean_set.t) :
  boolean_set.key_fingerprint a = boolean_set.key_fingerprint b ->
  boolean_set.intersection N a b
  = Ok (boolean_set.make (hand N (boolean_set.hash a) (boolean_set.hash b))
                         (boolean_set.key_fingerprint a)).
Proof.
  intros E. unfold boolean_set.intersection, boolean_set.verify_compatible.
  now rewrite E, Z.eqb_refl.
Qed.

Lemma bs_symmetric_difference_ok (a b : boolean_set.t) :
  boolean_set.key_fingerprint a = boolean_set.key_fingerprint b ->
  boolean_set.symmetric_difference N a b
  = Ok (boolean_set.make (hxor N (boolean_set.hash a) (boolean_set.hash b))
                         (boolean_set.key_fingerprint a)).
Proof.
  intros E. unfold boolean_set.symmetric_difference,
    boolean_set.verify_compatible.
  now rewrite E, Z.eqb_refl.
Qed.

Lemma bs_mismatch (a b : boolean_set.t) :
  boolean_set.key_fingerprint a <> boolean_set.key_fingerprint b ->
  boolean_set.verify_compatible a b = Throw IncompatibleKey.
Proof.
  intros D. unfold boolean_set.verify_compatible.
  now apply Z.eqb_neq in D as ->.
Qed.

(** One of the three binary operators, by the word operation it lifts. *)
Lemma bs_binary_comm (op : hash_value -> hash_value -> hash_value)
  (a b : boolean_set.t) :
  (forall x y, op x y = op y x) ->
  (_ <- boolean_set.verify_compatible a b ;;
   Ok (boolean_set.make (op (boolean_set.hash a) (boolean_set.hash b))
                        (boolean_set.key_fingerprint a)))
  = (_ <- boolean_set.verify_compatible b a ;;
     Ok (boolean_set.make (op (boolean_set.hash b) (boolean_set.hash a))
                          (boolean_set.key_fingerprint b))).
Proof.
  intros Hop. unfold boolean_set.verify_compatible. rewrite (Z.eqb_sym _ _).
  destruct (boolean_set.key_fingerprint b =? boolean_set.key_fingerprint a)
    eqn:E; cbn; [|reflexivity].
  apply Z.eqb_eq in E. now rewrite Hop, E.
Qed.

Lemma bs_binary_assoc (op : hash_value -> hash_value -> hash_value)
  (a b c : boolean_set.t) :
  (forall x y z, op (op x y) z = op x (op y z)) ->
  let lift x y :=
    (_ <- boolean_set.verify_compatible x y ;;
     Ok (boolean_set.make (op (boolean_set.hash x) (boolean_set.hash y))
                          (boolean_set.key_fingerprint x))) in
  (ab <- lift a b ;; lift ab c) = (bc <- lift b c ;; lift a bc).
Proof.
  intros Hop lift. subst lift. unfold boolean_set.verify_compatible.
  destruct (Z.eqb_spec (boolean_set.key_fingerprint a)
                       (boolean_set.key_fingerprint b)) as [Eab|Dab];
  destruct (Z.eqb_spec (boolean_set.key_fingerprint b)
                       (boolean_set.key_fingerprint c)) as [Ebc|Dbc]; cbn.
  - rewrite Eab, Ebc, Z.eqb_refl. cbn. now rewrite Hop.
  - rewrite Eab. now apply Z.eqb_neq in Dbc as ->.
  - now apply Z.eqb_neq in Dab as ->.
  - reflexivity.
Qed.
End boolean_set_facts.

(** X8: boolean-set union, intersection and symmetric difference are
    commutative and associative as operations that may raise: both sides
    give the same set, or both raise IncompatibleKey. *)
Theorem boolean_set_lattice_laws (N : nat) (a b c : sets.boolean_set.t) :
  sets.boolean_set.union N a b = sets.boolean_set.union N b a /\
  sets.boolean_set.intersection N a b = sets.boolean_set.intersection N b a /\
  sets.boolean_set.symmetric_difference N a b
    = sets.boolean_set.symmetric_difference N b a /\
  (ab <- sets.boolean_set.union N a b ;; sets.boolean_set.union N ab c)
    = (bc <- sets.boolean_set.union N b c ;; sets.boolean_set.union N a bc) /\
  (ab <- sets.boolean_set.intersection N a b ;;
   sets.boolean_set.intersection N ab c)
    = (bc <- sets.boolean_set.intersection N b c ;;
       sets.boolean_set.intersection N a bc) /\
  (ab <- sets.boolean_set.symmetric_difference N a b ;;
   sets.boolean_set.symmetric_difference N ab c)
    = (bc <- sets.boolean_set.symmetric_difference N b c ;;
       sets.boolean_set.symmetric_difference N a bc).
Proof.
  repeat split.
  - apply (bs_binary_comm (hor N)), hor_comm.
  - apply (bs_binary_comm (hand N)), hand_comm.
  - apply (bs_binary_comm (hxor N)), hxor_comm.
  - apply (bs_binary_assoc (hor N)), hor_assoc.
  - apply (bs_binary_assoc (hand N)), hand_assoc.
  - apply (bs_binary_assoc (hxor N)), hxor_assoc.
Qed.

Section boolean_set_bytes.
Import sets.
Variable N : nat.

Lemma byte_at_ones (i : nat) : (i < N)%nat -> byte_at (repeat 255 N) i = 255.
Proof.
  intros Hi. unfold byte_at.
  apply (repeat_spec N 255). apply nth_In. now rewrite repeat_length.
Qed.

Lemma hnot_zero : hnot N (zero_hash N) = repeat 255 N.
Proof.
  apply (hash_ext N); [apply hnot_length | apply repeat_length |].
  intros i Hi. rewrite byte_at_hnot, byte_at_zero_hash, byte_at_ones by easy.
  reflexivity.
Qed.

Lemma is_zero_spec (h : hash_value) :
  is_zero N h = true <-> (forall i, (i < N)%nat -> byte_at h i = 0).
Proof.
  unfold is_zero. rewrite forallb_forall. split.
  - intros E i Hi. apply Z.eqb_eq, E, in_seq. lia.
  - intros E i Hi. apply Z.eqb_eq, E. apply in_seq in Hi. lia.
Qed.

Lemma is_ones_spec (h : hash_value) :
  is_ones N h = true <-> (forall i, (i < N)%nat -> byte_at h i = 255).
Proof.
  unfold is_ones. rewrite forallb_forall. split.
  - intros E i Hi. apply Z.eqb_eq, E, in_seq. lia.
  - intros E i Hi. apply Z.eqb_eq, E. apply in_seq in Hi. lia.
Qed.

Lemma hxor_as_or_minus_and (a b : hash_value) :
  Forall is_byte a -> Forall is_byte b ->
  hxor N a b = hand N (hor N a b) (hnot N (hand N a b)).
Proof.
  intros Ba Bb. apply (hash_ext N); [apply hxor_length | apply hand_length |].
  intros i Hi. unfold hxor, hand, hor.
  rewrite !byte_at_bytewise, byte_at_hnot, byte_at_bytewise by easy.
  apply lxor_as_or_minus_and; now apply byte_at_is_byte.
Qed.

Lemma difference_misses (a b : hash_value) :
  is_zero N (hand N (hand N a (hnot N b)) b) = true.
Proof.
  apply is_zero_spec. intros i Hi. unfold hand.
  rewrite !byte_at_bytewise, byte_at_hnot by easy.
  change 256 with (2 ^ 8). byte_bits.
Qed.

Lemma difference_partition (a b : hash_value) :
  wf_hash N a ->
  hor N (hand N a (hnot N b)) (hand N a b) = a.
Proof.
  intros [La Ba]. apply (hash_ext N); [apply hor_length | easy |].
  intros i Hi. unfold hand, hor.
  rewrite !byte_at_bytewise, byte_at_hnot by easy.
  pose proof (byte_at_is_byte a i Ba) as Hb. apply is_byte_mod in Hb.
  change 256 with (2 ^ 8). rewrite <- Hb. byte_bits.
Qed.

Lemma hand_ones_l (t : hash_value) :
  Forall is_byte t -> heqb N (hand N (repeat 255 N) t) t = true.
Proof.
  intros Bt. apply heqb_spec. intros i Hi. unfold hand.
  rewrite byte_at_bytewise, byte_at_ones by easy.
  pose proof (byte_at_is_byte t i Bt) as Hb. apply is_byte_mod in Hb.
  rewrite <- Hb. change 255 with (Z.lnot 0 mod 2 ^ 8). byte_bits.
Qed.

Lemma hand_zero_l (t : hash_value) :
  heqb N (hand N (zero_hash N) t) t = is_zero N t.
Proof.
  apply eq_true_iff_eq. rewrite heqb_spec, is_zero_spec.
  split; intros E i Hi; specialize (E i Hi); unfold hand in *;
    rewrite byte_at_bytewise, byte_at_zero_hash, Z.land_0_l in * by easy;
    congruence.
Qed.

Lemma contains_value_monotone (a b t : hash_value) :
  heqb N (hand N a t) t = true -> heqb N (hand N (hor N a b) t) t = true.
Proof.
  rewrite !heqb_spec. intros E i Hi. specialize (E i Hi).
  unfold hand, hor in *. rewrite !byte_at_bytewise in * by easy.
  rewrite <- E. byte_bits.
Qed.

Lemma subset_of_intersection (a b : hash_value) :
  heqb N (hand N (hand N a b) a) (hand N a b) = true.
Proof.
  apply heqb_spec. intros i Hi. unfold hand.
  rewrite !byte_at_bytewise by easy. byte_bits.
Qed.

Lemma subset_of_union (a b : hash_value) :
  heqb N (hand N a (hor N a b)) a = true.
Proof.
  apply heqb_spec. intros i Hi. unfold hand, hor.
  rewrite !byte_at_bytewise by easy. byte_bits.
Qed.

Lemma subset_then_contains (a b t : hash_value) :
  heqb N (hand N a b) a = true -> heqb N (hand N a t) t = true ->
  heqb N (hand N b t) t = true.
Proof.
  rewrite !heqb_spec. intros Eab Eat i Hi.
  specialize (Eab i Hi). specialize (Eat i Hi).
  unfold hand in *. rewrite !byte_at_bytewise in * by easy.
  rewrite <- Eat, <- Eab. byte_bits.
Qed.

Lemma hor_hnot_ones (a : hash_value) :
  Forall is_byte a -> is_ones N (hor N a (hnot N a)) = true.
Proof.
  intros Ba. apply is_ones_spec. intros i Hi. unfold hor.
  rewrite byte_at_bytewise, byte_at_hnot by easy.
  apply lor_lnot_byte. now apply byte_at_is_byte.
Qed.

Lemma hand_hnot_zero (a : hash_value) :
  is_zero N (hand N a (hnot N a)) = true.
Proof.
  apply is_zero_spec. intros i Hi. unfold hand.
  rewrite byte_at_bytewise, byte_at_hnot by easy.
  apply land_lnot_byte.
Qed.
End boolean_set_bytes.

(** X9: on byte-valued sets, the symmetric difference is
    [(a | b) & ~(a & b)], raising when that raises; for sets of one key
    the difference [a - b] shares no bit with [b], and together with
    [a & b] it makes up [a] again. *)
Theorem boolean_set_derived_operators (N : nat) (a b : sets.boolean_set.t) :
  wf_hash N (sets.boolean_set.hash a) -> wf_hash N (sets.boolean_set.hash b) ->
  sets.boolean_set.symmetric_difference N a b
  = (u <- sets.boolean_set.union N a b ;;
     i <- sets.boolean_set.intersection N a b ;;
     sets.boolean_set.intersection N u (sets.boolean_set.complement N i)) /\
  (sets.boolean_set.key_fingerprint a = sets.boolean_set.key_fingerprint b ->
   exists d i,
     sets.boolean_set.difference N a b = Ok d /\
     sets.boolean_set.intersection N a b = Ok i /\
     (exists e, sets.boolean_set.intersection N d b = Ok e /\
                value (sets.boolean_set.empty N e) = true) /\
     sets.boolean_set.union N d i = Ok a).
Proof.
  intros [La Ba] [Lb Bb]. split.
  - unfold sets.boolean_set.symmetric_difference, sets.boolean_set.union,
      sets.boolean_set.intersection, sets.boolean_set.verify_compatible.
    destruct (Z.eqb_spec (sets.boolean_set.key_fingerprint a)
                         (sets.boolean_set.key_fingerprint b)) as [E|D]; cbn;
      [|reflexivity].
    rewrite Z.eqb_refl. cbn. now rewrite hxor_as_or_minus_and.
  - intros E.
    exists (sets.boolean_set.make
              (hand N (sets.boolean_set.hash a) (hnot N (sets.boolean_set.hash b)))
              (sets.boolean_set.key_fingerprint a)).
    exists (sets.boolean_set.make
              (hand N (sets.boolean_set.hash a) (sets.boolean_set.hash b))
              (sets.boolean_set.key_fingerprint a)).
    split; [|split; [|split]].
    + unfold sets.boolean_set.difference. now rewrite bs_intersection_ok.
    + now apply bs_intersection_ok.
    + eexists. split; [now rewrite bs_intersection_ok|].
      cbn. apply difference_misses.
    + rewrite bs_union_ok by reflexivity. cbn.
      rewrite difference_partition by now split.
      now destruct a.
Qed.

Lemma boolean_set_derived_operators_witness :
  sets.boolean_set.symmetric_difference 2 (sets.boolean_set.make [12; 255] 5)
                                          (sets.boolean_set.make [10; 1] 5)
  = Ok (sets.boolean_set.make [6; 254] 5) /\
  sets.boolean_set.difference 2 (sets.boolean_set.make [12; 255] 5)
                                (sets.boolean_set.make [10; 1] 5)
  = Ok (sets.boolean_set.make [4; 254] 5).
Proof.
  assert (W1 : wf_hash 2 [12; 255])
    by (split; [reflexivity | repeat constructor; unfold is_byte; lia]).
  assert (W2 : wf_hash 2 [10; 1])
    by (split; [reflexivity | repeat constructor; unfold is_byte; lia]).
  destruct (boolean_set_derived_operators 2
              (sets.boolean_set.make [12; 255] 5)
              (sets.boolean_set.make [10; 1] 5) W1 W2) as (H1 & H2).
  split; [rewrite H1; reflexivity|].
  destruct (H2 eq_refl) as (d & i & Hd & _). reflexivity.
Defined.

(** X10: inclusion as [subset_of] tests it: among sets of one key, [a & b]
    is a subset of [a], [a] is a subset of [a | b] and of itself; and when
    [a] tests as a subset of [b], every trapdoor that [a] contains is
    contained in [b]. *)
Theorem boolean_set_subset_laws (N : nat) (a b : sets.boolean_set.t)
  (t : trapdoor.t) :
  sets.boolean_set.key_fingerprint a = sets.boolean_set.key_fingerprint b ->
  holds (sets.boolean_set.subset_of N a a) /\
  holds (i <- sets.boolean_set.intersection N a b ;;
         sets.boolean_set.subset_of N i a) /\
  holds (u <- sets.boolean_set.union N a b ;;
         sets.boolean_set.subset_of N a u) /\
  (holds (sets.boolean_set.subset_of N a b) ->
   holds (sets.boolean_set.contains N a t) ->
   holds (sets.boolean_set.contains N b t)).
Proof.
  intros E. unfold holds. split; [|split; [|split]].
  - unfold sets.boolean_set.subset_of, sets.boolean_set.verify_compatible.
    rewrite Z.eqb_refl. eexists. split; [reflexivity|]. cbn.
    apply heqb_spec. intros i Hi. unfold hand.
    rewrite byte_at_bytewise by easy. apply Z.land_diag.
  - rewrite bs_intersection_ok by exact E. cbn [bind].
    unfold sets.boolean_set.subset_of, sets.boolean_set.verify_compatible.
    cbn [sets.boolean_set.key_fingerprint sets.boolean_set.hash].
    rewrite Z.eqb_refl. eexists. split; [reflexivity|]. cbn.
    apply subset_of_intersection.
  - rewrite bs_union_ok by exact E. cbn [bind].
    unfold sets.boolean_set.subset_of, sets.boolean_set.verify_compatible.
    cbn [sets.boolean_set.key_fingerprint sets.boolean_set.hash].
    rewrite Z.eqb_refl. eexists. split; [reflexivity|]. cbn.
    apply subset_of_union.
  - intros (r & Hr & Vr) (c & Hc & Vc).
    unfold sets.boolean_set.subset_of, sets.boolean_set.verify_compatible in Hr.
    unfold sets.boolean_set.contains in *.
    rewrite E, Z.eqb_refl in Hr. cbn in Hr. injection Hr as <-.
    rewrite <- E.
    destruct (trapdoor.key_fingerprint t =? sets.boolean_set.key_fingerprint a);
      cbn in *; [|discriminate].
    injection Hc as <-. cbn in Vr, Vc.
    eexists. split; [reflexivity|]. cbn.
    now apply (subset_then_contains N (sets.boolean_set.hash a)).
Qed.

Lemma boolean_set_subset_laws_witness :
  holds (sets.boolean_set.subset_of 1 (sets.boolean_set.make [6] 5)
                                      (sets.boolean_set.make [6] 5)) /\
  holds (sets.boolean_set.contains 1 (sets.boolean_set.make [7] 5)
                                     (trapdoor.make [2] 5)).
Proof.
  destruct (boolean_set_subset_laws 1 (sets.boolean_set.make [6] 5)
              (sets.boolean_set.make [7] 5) (trapdoor.make [2] 5) eq_refl)
    as (H1 & _ & _ & H4).
  split; [exact H1|].
  apply H4; eexists; (split; [reflexivity|]); reflexivity.
Defined.

(** X11: membership as [contains] tests it: the universal set of a factory
    contains every byte-valued trapdoor of its key; the empty set of a
    factory contains a trapdoor exactly when the trapdoor's hash is all
    zero; and what [a] contains, [a | b] contains. *)
Theorem boolean_set_contains_laws (N : nat) (f : sets.boolean_set_factory.t)
  (a b : sets.boolean_set.t) (t : trapdoor.t) :
  (trapdoor.key_fingerprint t
     = trapdoor_factory.key_fingerprint
         (sets.boolean_set_factory.trapdoor_factory_ f) ->
   (Forall is_byte (trapdoor.hash t) ->
    holds (sets.boolean_set.contains N (sets.boolean_set_factory.universal N f) t)) /\
   sets.boolean_set.contains N (sets.boolean_set_factory.empty N f) t
   = Ok (approx (is_zero N (trapdoor.hash t)) (Fin (1 # 2)) (Fin 0))) /\
  (sets.boolean_set.key_fingerprint a = sets.boolean_set.key_fingerprint b ->
   holds (sets.boolean_set.contains N a t) ->
   holds (u <- sets.boolean_set.union N a b ;; sets.boolean_set.contains N u t)).
Proof.
  split.
  - intros E. unfold sets.boolean_set.contains,
      sets.boolean_set_factory.universal, sets.boolean_set_factory.empty.
    cbn [sets.boolean_set.key_fingerprint sets.boolean_set.hash].
    rewrite E, Z.eqb_refl. cbn [negb]. split.
    + intros Bt. eexists. split; [reflexivity|]. cbn.
      now apply hand_ones_l.
    + now rewrite hand_zero_l.
  - intros E (c & Hc & Vc). rewrite bs_union_ok by exact E. cbn [bind].
    unfold holds, sets.boolean_set.contains in *.
    cbn [sets.boolean_set.key_fingerprint sets.boolean_set.hash].
    destruct (trapdoor.key_fingerprint t =? sets.boolean_set.key_fingerprint a);
      cbn in *; [|discriminate].
    injection Hc as <-. cbn in Vc.
    eexists. split; [reflexivity|]. cbn.
    now apply contains_value_monotone.
Qed.

Lemma boolean_set_contains_laws_witness :
  holds (sets.boolean_set.contains 2
           (sets.boolean_set_factory.universal 2
              (sets.boolean_set_factory.make (sample_factory 2 5) 3))
           (trapdoor.make [200; 17] 5)) /\
  holds (u <- sets.boolean_set.union 1 (sets.boolean_set.make [6] 5)
                                       (sets.boolean_set.make [9] 5) ;;
         sets.boolean_set.contains 1 u (trapdoor.make [2] 5)).
Proof.
  split.
  - apply (proj1 (boolean_set_contains_laws 2
                    (sets.boolean_set_factory.make (sample_factory 2 5) 3)
                    (sets.boolean_set.make [] 0) (sets.boolean_set.make [] 0)
                    (trapdoor.make [200; 17] 5)) eq_refl).
    repeat constructor; unfold is_byte; lia.
  - apply (proj2 (boolean_set_contains_laws 1
                    (sets.boolean_set_factory.make (sample_factory 1 5) 3)
                    (sets.boolean_set.make [6] 5) (sets.boolean_set.make [9] 5)
                    (trapdoor.make [2] 5)) eq_refl).
    eexists. split; reflexivity.
Defined.

(** X12: complement: the complement of a factory's empty set is its
    universal set, [empty()] and [universal()] recognise them, and for a
    byte-valued set of [N] bytes [~~a] is [a], [a | ~a] tests universal
    and [a & ~a] tests empty. *)
Theorem boolean_set_complement_laws (N : nat)
  (f : sets.boolean_set_factory.t) (a : sets.boolean_set.t) :
  sets.boolean_set.complement N (sets.boolean_set_factory.empty N f)
    = sets.boolean_set_factory.universal N f /\
  value (sets.boolean_set.empty N (sets.boolean_set_factory.empty N f)) = true /\
  value (sets.boolean_set.universal N (sets.boolean_set_factory.universal N f))
    = true /\
  (wf_hash N (sets.boolean_set.hash a) ->
   sets.boolean_set.complement N (sets.boolean_set.complement N a) = a /\
   (exists u, sets.boolean_set.union N a (sets.boolean_set.complement N a) = Ok u /\
              value (sets.boolean_set.universal N u) = true) /\
   (exists e, sets.boolean_set.intersection N a (sets.boolean_set.complement N a)
              = Ok e /\
              value (sets.boolean_set.empty N e) = true)).
Proof.
  split; [|split; [|split]].
  - unfold sets.boolean_set.complement, sets.boolean_set_factory.empty,
      sets.boolean_set_factory.universal. cbn. now rewrite hnot_zero.
  - cbn. apply is_zero_spec. intros i Hi. apply byte_at_zero_hash.
  - cbn. apply is_ones_spec. intros i Hi. now apply byte_at_ones.
  - intros [La Ba]. split; [|split].
    + unfold sets.boolean_set.complement. cbn.
      rewrite hnot_involutive by now split. now destruct a.
    + rewrite bs_union_ok by reflexivity. eexists. split; [reflexivity|].
      cbn. now apply hor_hnot_ones.
    + rewrite bs_intersection_ok by reflexivity. eexists.
      split; [reflexivity|]. cbn. apply hand_hnot_zero.
Qed.

Lemma boolean_set_complement_laws_witness :
  sets.boolean_set.complement 2
    (sets.boolean_set.complement 2 (sets.boolean_set.make [12; 255] 5))
  = sets.boolean_set.make [12; 255] 5.
Proof.
  apply (proj2 (proj2 (proj2 (boolean_set_complement_laws 2
           (sets.boolean_set_factory.make (sample_factory 2 5) 3)
           (sets.boolean_set.make [12; 255] 5))))).
  split; [reflexivity | repeat constructor; unfold is_byte; lia].
Defined.

(** ** Boolean sets: building from a collection *)


Lemma fold_left_permutation {A B : Type} (f : A -> B -> A) (l l' : list B) :
  (forall a x y, f (f a x) y = f (f a y) x) ->
  Permutation l l' -> forall a, fold_left f l a = fold_left f l' a.
Proof.
  intros Hf P. induction P as [|x l l' P IH|x y l|l l' l'' P1 IH1 P2 IH2];
    intros a; cbn.
  - reflexivity.
  - apply IH.
  - now rewrite Hf.
  - now rewrite IH1, IH2.
Qed.

Section collection_facts.
Import sets.
Context {T : Type} {HT : Hashable T} {HS : Hashable string}.
Variable N : nat.
Variable f : boolean_set_factory.t.

Lemma from_collection_fold (values : list T) (h : hash_value) (kf : Z) :
  kf = trapdoor_factory.key_fingerprint (boolean_set_factory.trapdoor_factory_ f) ->
  fold_left
    (fun acc v =>
       result <- acc ;;
       boolean_set.union N result (boolean_set_factory.singleton N f v))
    values (Ok (boolean_set.make h kf))
  = Ok (boolean_set.make
          (fold_left (hor N) (map (boolean_set_factory.singleton_hash N f) values) h)
          kf).
Proof.
  intros ->. revert h. induction values as [|v values IH]; intros h.
  - reflexivity.
  - cbn [fold_left map bind]. rewrite bs_union_ok by reflexivity.
    apply IH.
Qed.

Lemma from_collection_eq (values : list T) :
  boolean_set_factory.from_collection N f values
  = Ok (boolean_set.make
          (fold_left (hor N) (map (boolean_set_factory.singleton_hash N f) values)
                     (zero_hash N))
          (trapdoor_factory.key_fingerprint
             (boolean_set_factory.trapdoor_factory_ f))).
Proof. now apply from_collection_fold. Qed.

Lemma hor_right_comm (a x y : hash_value) :
  hor N (hor N a x) y = hor N (hor N a y) x.
Proof. now rewrite !hor_assoc, (hor_comm N x y). Qed.

Lemma fold_hor_length (l : list hash_value) (h : hash_value) :
  List.length h = N -> List.length (fold_left (hor N) l h) = N.
Proof.
  revert h. induction l as [|x l IH]; intros h Lh; [exact Lh|].
  cbn. apply IH, hor_length.
Qed.

Lemma fold_hor_shift (l : list hash_value) (h : hash_value) :
  List.length h = N ->
  fold_left (hor N) l h = hor N h (fold_left (hor N) l (zero_hash N)).
Proof.
  revert h. induction l as [|x l IH]; intros h Lh.
  - cbn. rewrite hor_comm. symmetry. now apply hor_zero_l.
  - cbn. rewrite (IH (hor N h x)) by apply hor_length.
    rewrite (IH (hor N (zero_hash N) x)) by apply hor_length.
    rewrite <- hor_assoc. f_equal.
    rewrite <- hor_assoc. f_equal.
    rewrite hor_comm. symmetry. now apply hor_zero_l.
Qed.
End collection_facts.

(** X13: [from_collection] never raises: it returns the bitwise OR of the
    singletons of the values, [N] bytes under the factory's fingerprint.
    The result does not depend on the order of the values, and the set of
    a concatenation is the union of the two sets. *)
Theorem from_collection_spec {T : Type} {HT : Hashable T} {HS : Hashable string}
  (N : nat) (f : sets.boolean_set_factory.t) (values : list T) :
  (exists s,
      sets.boolean_set_factory.from_collection N f values = Ok s /\
      sets.boolean_set.hash s
        = fold_left (hor N)
            (map (sets.boolean_set_factory.singleton_hash N f) values)
            (zero_hash N) /\
      List.length (sets.boolean_set.hash s) = N /\
      sets.boolean_set.key_fingerprint s
        = trapdoor_factory.key_fingerprint
            (sets.boolean_set_factory.trapdoor_factory_ f)) /\
  sets.boolean_set_factory.from_collection N f (@nil T)
    = Ok (sets.boolean_set_factory.empty N f) /\
  (forall values' : list T,
      Permutation values values' ->
      sets.boolean_set_factory.from_collection N f values
        = sets.boolean_set_factory.from_collection N f values') /\
  (forall more : list T,
      sets.boolean_set_factory.from_collection N f (values ++ more)
      = (a <- sets.boolean_set_factory.from_collection N f values ;;
         b <- sets.boolean_set_factory.from_collection N f more ;;
         sets.boolean_set.union N a b)).
Proof.
  split; [|split; [reflexivity | split]].
  - eexists. split; [apply from_collection_eq|]. cbn.
    split; [reflexivity|]. split; [|reflexivity].
    apply fold_hor_length, zero_hash_length.
  - intros values' P. rewrite !from_collection_eq. do 2 f_equal.
    apply fold_left_permutation; [apply hor_right_comm|].
    now apply Permutation_map.
  - intros more. rewrite !from_collection_eq. cbn [bind].
    rewrite bs_union_ok by reflexivity. cbn. do 2 f_equal.
    rewrite map_app, fold_left_app. apply fold_hor_shift.
    apply fold_hor_length, zero_hash_length.
Qed.

Lemma from_collection_spec_witness :
  sets.boolean_set_factory.from_collection (HT := hash_Z) (HS := hash_string)
    1 (sets.boolean_set_factory.make (sample_factory 1 5) 3) [5; 20]
  = sets.boolean_set_factory.from_collection (HT := hash_Z) (HS := hash_string)
      1 (sets.boolean_set_factory.make (sample_factory 1 5) 3) [20; 5].
Proof.
  apply (proj1 (proj2 (proj2 (from_collection_spec
           (HT := hash_Z) (HS := hash_string)
           1 (sets.boolean_set_factory.make (sample_factory 1 5) 3) [5; 20])))).
  apply perm_swap.
Defined.

(** X14: a factory with fewer than eight sub-hashes only ever sets the low
    [num_hashes] bits of a byte, so every byte of a set it builds is below
    [2^num_hashes]; a trapdoor of the same key with a higher bit set in
    one of its [N] bytes is reported as not contained. *)
Theorem membership_misses_high_bits {T : Type} {HT : Hashable T}
  {HS : Hashable string} (N : nat) (f : sets.boolean_set_factory.t)
  (values : list T) (s : sets.boolean_set.t) (t : trapdoor.t) (j : nat) :
  0 <= sets.boolean_set_factory.num_hashes_ f < 8 ->
  sets.boolean_set_factory.from_collection N f values = Ok s ->
  bytes_below N (2 ^ sets.boolean_set_factory.num_hashes_ f)
              (sets.boolean_set.hash s) /\
  (trapdoor.key_fingerprint t = sets.boolean_set.key_fingerprint s ->
   (j < N)%nat ->
   2 ^ sets.boolean_set_factory.num_hashes_ f <= byte_at (trapdoor.hash t) j ->
   sets.boolean_set.contains N s t = Ok (approx false (Fin (1 # 2)) (Fin 0))).
Proof.
  intros Hm Hs. split.
  - now apply (from_collection_bytes_below N f Hm values).
  - intros Hkf Hj Hbit.
    now apply (contains_misses_high_bits N f Hm values s t j).
Qed.

Lemma membership_misses_high_bits_witness :
  sets.boolean_set.contains 1 (sets.boolean_set.make [7] 5) (trapdoor.make [10] 5)
  = Ok (approx false (Fin (1 # 2)) (Fin 0)).
Proof.
  assert (Hm : 0 <= sets.boolean_set_factory.num_hashes_
                      (sets.boolean_set_factory.make (sample_factory 1 5) 3) < 8)
    by (simpl; lia).
  apply (proj2 (membership_misses_high_bits (HT := hash_Z) (HS := hash_string)
                  1 (sets.boolean_set_factory.make (sample_factory 1 5) 3)
                  [5] (sets.boolean_set.make [7] 5) (trapdoor.make [10] 5) 0
                  Hm eq_refl));
    [reflexivity | lia | unfold byte_at; simpl; lia].
Defined.

(** ** Symmetric-difference sets: the group and its builders *)

Section sds_group_facts.
Import sets.
Variable N : nat.

Lemma sds_verify_spec (a b : symmetric_difference_set.t) :
  symmetric_difference_set.verify_compatible a b = Throw IncompatibleKey /\
    symmetric_difference_set.key_fingerprint a <> 0 /\
    symmetric_difference_set.key_fingerprint b <> 0 /\
    symmetric_difference_set.key_fingerprint a
      <> symmetric_difference_set.key_fingerprint b
  \/
  symmetric_difference_set.verify_compatible a b = Ok tt /\
    (symmetric_difference_set.key_fingerprint a = 0 \/
     symmetric_difference_set.key_fingerprint b = 0 \/
     symmetric_difference_set.key_fingerprint a
       = symmetric_difference_set.key_fingerprint b).
Proof.
  unfold symmetric_difference_set.verify_compatible.
  destruct (Z.eqb_spec (symmetric_difference_set.key_fingerprint a) 0);
  destruct (Z.eqb_spec (symmetric_difference_set.key_fingerprint b) 0);
  destruct (Z.eqb_spec (symmetric_difference_set.key_fingerprint a)
                       (symmetric_difference_set.key_fingerprint b));
    cbn; auto 6.
Qed.

Lemma sds_xor_same_key (a b : symmetric_difference_set.t) :
  symmetric_difference_set.key_fingerprint a
    = symmetric_difference_set.key_fingerprint b ->
  symmetric_difference_set.xor N a b
  = Ok (symmetric_difference_set.make
          (hxor N (symmetric_difference_set.hash a)
                  (symmetric_difference_set.hash b))
          (symmetric_difference_set.key_fingerprint a)).
Proof.
  intros E. unfold symmetric_difference_set.xor.
  destruct (sds_verify_spec a b) as [(_ & _ & _ & D)|(-> & _)];
    [contradiction | reflexivity].
Qed.
End sds_group_facts.

(** X15: the XOR group of symmetric-difference sets: [a ^ a] is the empty
    set; [a ^ b] raises IncompatibleKey exactly when both fingerprints are
    non-zero and differ; when [a ^ b] returns, [b ^ a] returns the same
    hash; and among sets of one key [^] is associative. *)
Theorem sds_group_laws (N : nat) (a b c : sets.symmetric_difference_set.t) :
  (exists r,
      sets.symmetric_difference_set.xor N a a = Ok r /\
      sets.symmetric_difference_set.hash r = zero_hash N /\
      value (sets.symmetric_difference_set.empty N r) = true) /\
  (sets.symmetric_difference_set.xor N a b = Throw IncompatibleKey
   <-> sets.symmetric_difference_set.key_fingerprint a <> 0 /\
       sets.symmetric_difference_set.key_fingerprint b <> 0 /\
       sets.symmetric_difference_set.key_fingerprint a
         <> sets.symmetric_difference_set.key_fingerprint b) /\
  (forall r,
      sets.symmetric_difference_set.xor N a b = Ok r ->
      exists r',
        sets.symmetric_difference_set.xor N b a = Ok r' /\
        sets.symmetric_difference_set.hash r'
          = sets.symmetric_difference_set.hash r) /\
  (sets.symmetric_difference_set.key_fingerprint a
     = sets.symmetric_difference_set.key_fingerprint b ->
   sets.symmetric_difference_set.key_fingerprint b
     = sets.symmetric_difference_set.key_fingerprint c ->
   (ab <- sets.symmetric_difference_set.xor N a b ;;
    sets.symmetric_difference_set.xor N ab c)
   = (bc <- sets.symmetric_difference_set.xor N b c ;;
      sets.symmetric_difference_set.xor N a bc)).
Proof.
  split; [|split; [|split]].
  - rewrite sds_xor_same_key by reflexivity. eexists.
    split; [reflexivity|]. cbn. rewrite hxor_nilpotent.
    split; [reflexivity|]. apply is_zero_spec. intros i Hi.
    apply byte_at_zero_hash.
  - unfold sets.symmetric_difference_set.xor.
    destruct (sds_verify_spec a b) as [(-> & H)|(-> & H)]; cbn.
    + tauto.
    + split; [discriminate | intros (D1 & D2 & D3); tauto].
  - intros r. unfold sets.symmetric_difference_set.xor.
    destruct (sds_verify_spec a b) as [(-> & _)|(-> & H)]; cbn;
      [discriminate|].
    intros [= <-].
    destruct (sds_verify_spec b a) as [(_ & D1 & D2 & D3)|(-> & _)].
    + exfalso. destruct H as [H|[H|H]]; congruence.
    + cbn. eexists. split; [reflexivity|]. cbn. apply hxor_comm.
  - intros Eab Ebc. rewrite !sds_xor_same_key by assumption. cbn [bind].
    rewrite !sds_xor_same_key by (cbn; congruence). cbn.
    now rewrite hxor_assoc.
Qed.

Lemma sds_group_laws_witness :
  (ab <- sets.symmetric_difference_set.xor 1
           (sets.symmetric_difference_set.make [3] 7)
           (sets.symmetric_difference_set.make [5] 7) ;;
   sets.symmetric_difference_set.xor 1 ab
     (sets.symmetric_difference_set.make [9] 7))
  = (bc <- sets.symmetric_difference_set.xor 1
             (sets.symmetric_difference_set.make [5] 7)
             (sets.symmetric_difference_set.make [9] 7) ;;
     sets.symmetric_difference_set.xor 1
       (sets.symmetric_difference_set.make [3] 7) bc).
Proof.
  apply (proj2 (proj2 (proj2 (sds_group_laws 1
           (sets.symmetric_difference_set.make [3] 7)
           (sets.symmetric_difference_set.make [5] 7)
           (sets.symmetric_difference_set.make [9] 7)))));
    reflexivity.
Defined.

Section from_unique_facts.
Import sets.
Context {T : Type} {HT : Hashable T}.
Variable N : nat.
Variable tf : trapdoor_factory.t.

Lemma xor_assign_same_key (h : hash_value) (v : T) :
  symmetric_difference_set.xor_assign N
    (symmetric_difference_set.make h (trapdoor_factory.key_fingerprint tf))
    (trapdoor_factory.create tf v)
  = Ok (symmetric_difference_set.make
          (hxor N h (derive (trapdoor_factory.key_ tf) (std_hash v)))
          (trapdoor_factory.key_fingerprint tf)).
Proof.
  unfold symmetric_difference_set.xor_assign, trapdoor_factory.create. cbn.
  rewrite Z.eqb_refl. cbn. now destruct (_ =? 0).
Qed.

Lemma xor_assign_first (h : hash_value) (v : T) :
  symmetric_difference_set.xor_assign N
    (symmetric_difference_set.make h 0) (trapdoor_factory.create tf v)
  = Ok (symmetric_difference_set.make
          (hxor N h (derive (trapdoor_factory.key_ tf) (std_hash v)))
          (trapdoor_factory.key_fingerprint tf)).
Proof.
  unfold symmetric_difference_set.xor_assign, trapdoor_factory.create. cbn.
  now rewrite andb_false_r.
Qed.

Lemma accumulate_same_key (g : T -> bool) (values : list T) (h : hash_value) :
  fold_left
    (fun acc v =>
       result <- acc ;;
       if g v
       then symmetric_difference_set.xor_assign N result
              (trapdoor_factory.create tf v)
       else Ok result)
    values
    (Ok (symmetric_difference_set.make h (trapdoor_factory.key_fingerprint tf)))
  = Ok (symmetric_difference_set.make
          (fold_left (hxor N)
             (map (fun v => derive (trapdoor_factory.key_ tf) (std_hash v))
                  (filter g values)) h)
          (trapdoor_factory.key_fingerprint tf)).
Proof.
  revert h. induction values as [|v values IH]; intros h; [reflexivity|].
  cbn [fold_left bind filter]. destruct (g v).
  - rewrite xor_assign_same_key. cbn [map fold_left]. apply IH.
  - apply IH.
Qed.

Lemma accumulate_from_empty (g : T -> bool) (values : list T) (h : hash_value) :
  fold_left
    (fun acc v =>
       result <- acc ;;
       if g v
       then symmetric_difference_set.xor_assign N result
              (trapdoor_factory.create tf v)
       else Ok result)
    values
    (Ok (symmetric_difference_set.make h 0))
  = Ok (symmetric_difference_set.make
          (fold_left (hxor N)
             (map (fun v => derive (trapdoor_factory.key_ tf) (std_hash v))
                  (filter g values)) h)
          (match filter g values with
           | [] => 0
           | _ :: _ => trapdoor_factory.key_fingerprint tf
           end)).
Proof.
  revert h. induction values as [|v values IH]; intros h; [reflexivity|].
  cbn [fold_left bind filter]. destruct (g v).
  - rewrite xor_assign_first. cbn [map fold_left].
    apply accumulate_same_key.
  - apply IH.
Qed.

Lemma filter_all (values : list T) : filter (fun _ => true) values = values.
Proof.
  induction values as [|v values IH]; [reflexivity|]. cbn. now rewrite IH.
Qed.

Lemma from_unique_eq (values : list T) :
  symmetric_difference_set_factory.from_unique N
    (symmetric_difference_set_factory.make tf) values
  = Ok (symmetric_difference_set.make
          (fold_left (hxor N)
             (map (fun v => derive (trapdoor_factory.key_ tf) (std_hash v))
                  values)
             (zero_hash N))
          (match values with
           | [] => 0
           | _ :: _ => trapdoor_factory.key_fingerprint tf
           end)).
Proof.
  etransitivity; [apply (accumulate_from_empty (fun _ => true))|].
  now rewrite filter_all.
Qed.

Lemma hxor_right_comm (a x y : hash_value) :
  hxor N (hxor N a x) y = hxor N (hxor N a y) x.
Proof. now rewrite !hxor_assoc, (hxor_comm N x y). Qed.

Lemma fold_hxor_length (l : list hash_value) (h : hash_value) :
  List.length h = N -> List.length (fold_left (hxor N) l h) = N.
Proof.
  revert h. induction l as [|x l IH]; intros h Lh; [exact Lh|].
  cbn. apply IH, hxor_length.
Qed.
End from_unique_facts.

(** X16: [from_unique] never raises: it returns the XOR of the derived
    hashes of the values, [N] bytes, under fingerprint 0 for an empty
    collection and the factory's fingerprint otherwise.  The result does
    not depend on the order of the values, the set of a concatenation has
    the XOR of the two hashes, and a value given twice cancels out. *)
Theorem from_unique_spec {T : Type} {HT : Hashable T} (N : nat)
  (f : sets.symmetric_difference_set_factory.t) (values : list T) :
  let tf := sets.symmetric_difference_set_factory.trapdoor_factory_ f in
  let word (l : list T) :=
    fold_left (hxor N)
      (map (fun v => derive (trapdoor_factory.key_ tf) (std_hash v)) l)
      (zero_hash N) in
  let fingerprint (l : list T) :=
    match l with [] => 0 | _ :: _ => trapdoor_factory.key_fingerprint tf end in
  (forall l : list T,
      sets.symmetric_difference_set_factory.from_unique N f l
      = Ok (sets.symmetric_difference_set.make (word l) (fingerprint l))) /\
  List.length (word values) = N /\
  (forall values' : list T,
      Permutation values values' ->
      sets.symmetric_difference_set_factory.from_unique N f values
      = sets.symmetric_difference_set_factory.from_unique N f values') /\
  (forall more : list T,
      word (values ++ more) = hxor N (word values) (word more)) /\
  (forall v : T, word (v :: v :: values) = word values).
Proof.
  destruct f as [tf0]. cbv zeta.
  cbn [sets.symmetric_difference_set_factory.trapdoor_factory_].
  assert (Lw : forall l : list T,
             List.length
               (fold_left (hxor N)
                  (map (fun v => derive (trapdoor_factory.key_ tf0) (std_hash v)) l)
                  (zero_hash N)) = N)
    by (intros l; apply fold_hxor_length, zero_hash_length).
  split; [|split; [|split; [|split]]].
  - intros l. apply from_unique_eq.
  - apply Lw.
  - intros values' P. rewrite !from_unique_eq. f_equal. f_equal.
    + apply fold_left_permutation; [apply hxor_right_comm|].
      now apply Permutation_map.
    + destruct values, values'; try reflexivity.
      * now apply Permutation_nil in P.
      * symmetry in P. now apply Permutation_nil in P.
  - intros more. rewrite map_app, fold_left_app.
    rewrite <- (hxor_zero_r N (fold_left _ (map _ values) _)) at 1 by apply Lw.
    apply fold_xor_shift.
  - intros v. cbn [map fold_left].
    now rewrite hxor_cancel_r by apply zero_hash_length.
Qed.

Lemma from_unique_spec_witness :
  sets.symmetric_difference_set_factory.from_unique (HT := hash_Z) 2
    (sets.symmetric_difference_set_factory.make (sample_factory 2 7)) [10; 20; 30]
  = sets.symmetric_difference_set_factory.from_unique (HT := hash_Z) 2
      (sets.symmetric_difference_set_factory.make (sample_factory 2 7)) [30; 10; 20].
Proof.
  apply (proj1 (proj2 (proj2 (from_unique_spec (HT := hash_Z) 2
           (sets.symmetric_difference_set_factory.make (sample_factory 2 7))
           [10; 20; 30])))).
  apply Permutation_sym, (Permutation_cons_append [10; 20] 30).
Defined.

(** X17: [pipeline::filter_to_set] builds the set that [from_unique]
    builds from the values that satisfy the predicate, whatever the
    values and the predicate; in particular it never raises. *)
Theorem filter_to_set_spec {T : Type} {HT : Hashable T} (N : nat)
  (p : operations.pipeline.t) (values : list T) (pred : T -> bool) :
  operations.pipeline.filter_to_set N p values pred
  = sets.symmetric_difference_set_factory.from_unique N
      (sets.symmetric_difference_set_factory.make (operations.pipeline.factory_ p))
      (filter pred values) /\
  is_ok (operations.pipeline.filter_to_set N p values pred) = true.
Proof.
  assert (E : operations.pipeline.filter_to_set N p values pred
              = sets.symmetric_difference_set_factory.from_unique N
                  (sets.symmetric_difference_set_factory.make
                     (operations.pipeline.factory_ p))
                  (filter pred values)).
  { rewrite from_unique_eq. unfold operations.pipeline.filter_to_set.
    apply (accumulate_from_empty N (operations.pipeline.factory_ p) pred). }
  split; [exact E|]. rewrite E, from_unique_eq. reflexivity.
Qed.

(** ** Serialization: short, long and foreign buffers *)

Section buffer_facts.
Import serialization.

Lemma deserialize_hash_prefix (N : nat) (bytes : list Z) :
  (N <= List.length bytes)%nat ->
  deserialize_hash N (firstn N bytes) = Ok (firstn N bytes).
Proof.
  intros H. unfold deserialize_hash.
  assert (L : List.length (firstn N bytes) = N) by (rewrite length_firstn; lia).
  rewrite L, Nat.ltb_irrefl. f_equal.
  rewrite <- L at 1. apply firstn_all.
Qed.

Lemma little_endian_value_digits (bs : list Z) :
  Forall is_byte bs ->
  map (fun i => (fold_right (fun b acc => b + 256 * acc) 0 bs
                 / 256 ^ Z.of_nat i) mod 256)
      (seq 0 (List.length bs))
  = bs.
Proof.
  induction 1 as [|b bs Hb Hbs IH]; [reflexivity|].
  cbn [List.length seq map fold_right].
  set (v := fold_right (fun b acc => b + 256 * acc) 0 bs) in *.
  unfold is_byte in Hb. f_equal.
  - change (Z.of_nat 0) with 0. rewrite Z.pow_0_r, Z.div_1_r.
    rewrite (Z.mul_comm 256), Z.mod_add by lia.
    now apply Z.mod_small.
  - rewrite <- seq_shift, map_map. rewrite <- IH at 2.
    apply map_ext. intros i.
    rewrite Nat2Z.inj_succ, Z.pow_succ_r by lia.
    rewrite <- Z.div_div by lia.
    replace ((b + 256 * v) / 256) with v; [reflexivity|].
    symmetry. rewrite (Z.mul_comm 256), Z.div_add by lia.
    rewrite (Z.div_small b) by lia. lia.
Qed.

Lemma little_endian_value_bound (bs : list Z) :
  Forall is_byte bs ->
  0 <= fold_right (fun b acc => b + 256 * acc) 0 bs
    < 256 ^ Z.of_nat (List.length bs).
Proof.
  induction 1 as [|b bs Hb Hbs IH]; [cbn; lia|].
  cbn [List.length fold_right]. rewrite Nat2Z.inj_succ, Z.pow_succ_r by lia.
  unfold is_byte in Hb. lia.
Qed.

Lemma size_t_bytes_of_bytes (bo : byte_order) (bs : list Z) :
  List.length bs = 8%nat -> Forall is_byte bs ->
  size_t_bytes bo (size_t_of_bytes bo bs) = bs /\
  is_size_t (size_t_of_bytes bo bs).
Proof.
  intros L B. unfold size_t_bytes, size_t_of_bytes. destruct bo.
  - split.
    + rewrite <- L. now apply little_endian_value_digits.
    + pose proof (little_endian_value_bound bs B) as Hb. rewrite L in Hb.
      exact Hb.
  - assert (B' : Forall is_byte (rev bs)) by now apply Forall_rev.
    assert (L' : List.length (rev bs) = 8%nat) by now rewrite length_rev.
    split.
    + rewrite <- L'. rewrite little_endian_value_digits by exact B'.
      apply rev_involutive.
    + pose proof (little_endian_value_bound (rev bs) B') as Hb.
      rewrite L' in Hb. exact Hb.
Qed.

Lemma fields_with_trailer bo N h kf (extra : list Z) :
  List.length h = N -> is_size_t kf ->
  let bytes := serialize_fields bo N h kf ++ extra in
  (List.length bytes <? N + 8)%nat = false /\
  deserialize_hash N (firstn N bytes) = Ok h /\
  read_size_t bo N bytes = kf.
Proof.
  intros Lh Hkf bytes. subst bytes.
  assert (Eh : serialize_hash N h = h) by now apply memcpy_id.
  unfold serialize_fields. rewrite Eh, <- app_assoc.
  assert (F : firstn N (h ++ size_t_bytes bo kf ++ extra) = h).
  { rewrite <- Lh, firstn_app, Nat.sub_diag, firstn_all. cbn.
    apply app_nil_r. }
  split; [|split].
  - apply Nat.ltb_ge.
    rewrite !length_app, size_t_bytes_length. lia.
  - rewrite F. unfold deserialize_hash.
    rewrite Lh, Nat.ltb_irrefl. f_equal. rewrite <- Lh. apply firstn_all.
  - unfold read_size_t. rewrite <- Lh.
    rewrite skipn_app, Nat.sub_diag, skipn_all, skipn_O, app_nil_l.
    rewrite firstn_app, size_t_bytes_length, Nat.sub_diag, firstn_O, app_nil_r.
    rewrite firstn_all2 by now rewrite size_t_bytes_length.
    now apply size_t_round_trip.
Qed.

Lemma fields_of_buffer bo N (bytes : list Z) :
  (N + 8 <= List.length bytes)%nat -> Forall is_byte bytes ->
  serialize_fields bo N (firstn N bytes) (read_size_t bo N bytes)
  = firstn (N + 8) bytes.
Proof.
  intros L B. unfold serialize_fields, serialize_hash.
  rewrite memcpy_id by (rewrite length_firstn; lia).
  unfold read_size_t.
  assert (B' : Forall is_byte (firstn N bytes) /\ Forall is_byte (skipn N bytes))
    by (apply Forall_app; now rewrite firstn_skipn).
  assert (B8 : Forall is_byte (firstn 8 (skipn N bytes)) /\
               Forall is_byte (skipn 8 (skipn N bytes)))
    by (apply Forall_app; now rewrite firstn_skipn).
  destruct (size_t_bytes_of_bytes bo (firstn 8 (skipn N bytes))) as [E _].
  - rewrite length_firstn, length_skipn. lia.
  - apply B8.
  - rewrite E. rewrite <- (firstn_skipn N bytes) at 3.
    assert (L' : List.length (firstn N bytes) = N)
      by (rewrite length_firstn; lia).
    rewrite <- L' at 3. now rewrite firstn_app_2.
Qed.
End buffer_facts.

(** X18: the three deserializers raise TruncatedInput exactly on buffers
    shorter than [N + 8] bytes; on any longer buffer they return the first
    [N] bytes as the hash and the next eight as the key fingerprint, and
    never read past them. *)
Theorem deserialize_buffer_spec (bo : serialization.byte_order) (N : nat)
  (bytes : list Z) :
  ((List.length bytes < N + 8)%nat ->
   serialization.deserialize_trapdoor bo N bytes = Throw TruncatedInput /\
   serialization.deserialize_sym_diff_set bo N bytes = Throw TruncatedInput /\
   serialization.deserialize_boolean_set bo N bytes = Throw TruncatedInput) /\
  ((N + 8 <= List.length bytes)%nat ->
   serialization.deserialize_trapdoor bo N bytes
   = Ok (trapdoor.make (firstn N bytes)
           (serialization.size_t_of_bytes bo (firstn 8 (skipn N bytes)))) /\
   serialization.deserialize_sym_diff_set bo N bytes
   = Ok (sets.symmetric_difference_set.make (firstn N bytes)
           (serialization.size_t_of_bytes bo (firstn 8 (skipn N bytes)))) /\
   serialization.deserialize_boolean_set bo N bytes
   = Ok (sets.boolean_set.make (firstn N bytes)
           (serialization.size_t_of_bytes bo (firstn 8 (skipn N bytes))))).
Proof.
  unfold serialization.deserialize_trapdoor,
    serialization.deserialize_sym_diff_set,
    serialization.deserialize_boolean_set, serialization.read_size_t.
  split; intros H.
  - apply Nat.ltb_lt in H. now rewrite H.
  - rewrite deserialize_hash_prefix by lia.
    apply Nat.ltb_ge in H. now rewrite H.
Qed.

Lemma deserialize_buffer_spec_witness :
  serialization.deserialize_trapdoor serialization.BigEndian 2
    [1; 2; 0; 0; 0; 0; 0; 0; 1]
  = Throw TruncatedInput /\
  serialization.deserialize_trapdoor serialization.BigEndian 2
    [1; 2; 0; 0; 0; 0; 0; 0; 1; 2; 99]
  = Ok (trapdoor.make [1; 2] 258).
Proof.
  split.
  - apply (proj1 (deserialize_buffer_spec serialization.BigEndian 2
                    [1; 2; 0; 0; 0; 0; 0; 0; 1])).
    simpl. lia.
  - apply (proj2 (deserialize_buffer_spec serialization.BigEndian 2
                    [1; 2; 0; 0; 0; 0; 0; 0; 1; 2; 99])).
    simpl. lia.
Defined.

(** X19: a serialized trapdoor or set takes exactly [N + 8] bytes, and
    bytes appended after it do not change what is read back. *)
Theorem serialization_ignores_trailing_bytes (bo : serialization.byte_order)
  (N : nat) (extra : list Z) :
  (forall td : trapdoor.t,
      List.length (trapdoor.hash td) = N ->
      is_size_t (trapdoor.key_fingerprint td) ->
      List.length (serialization.serialize_trapdoor bo N td) = (N + 8)%nat /\
      serialization.deserialize_trapdoor bo N
        (serialization.serialize_trapdoor bo N td ++ extra) = Ok td) /\
  (forall s : sets.symmetric_difference_set.t,
      List.length (sets.symmetric_difference_set.hash s) = N ->
      is_size_t (sets.symmetric_difference_set.key_fingerprint s) ->
      List.length (serialization.serialize_sym_diff_set bo N s) = (N + 8)%nat /\
      serialization.deserialize_sym_diff_set bo N
        (serialization.serialize_sym_diff_set bo N s ++ extra) = Ok s) /\
  (forall s : sets.boolean_set.t,
      List.length (sets.boolean_set.hash s) = N ->
      is_size_t (sets.boolean_set.key_fingerprint s) ->
      List.length (serialization.serialize_boolean_set bo N s) = (N + 8)%nat /\
      serialization.deserialize_boolean_set bo N
        (serialization.serialize_boolean_set bo N s ++ extra) = Ok s).
Proof.
  split; [|split]; intros [h kf] Lh Hkf; simpl in Lh, Hkf;
    destruct (fields_with_trailer bo N h kf extra Lh Hkf) as (E1 & E2 & E3);
    (split; [apply serialize_fields_length|]).
  - unfold serialization.deserialize_trapdoor, serialization.serialize_trapdoor.
    cbn [trapdoor.hash trapdoor.key_fingerprint].
    now rewrite E1, E2, E3.
  - unfold serialization.deserialize_sym_diff_set,
      serialization.serialize_sym_diff_set.
    cbn [sets.symmetric_difference_set.hash
         sets.symmetric_difference_set.key_fingerprint].
    now rewrite E1, E2, E3.
  - unfold serialization.deserialize_boolean_set,
      serialization.serialize_boolean_set.
    cbn [sets.boolean_set.hash sets.boolean_set.key_fingerprint].
    now rewrite E1, E2, E3.
Qed.

Lemma serialization_ignores_trailing_bytes_witness :
  serialization.deserialize_boolean_set serialization.LittleEndian 2
    (serialization.serialize_boolean_set serialization.LittleEndian 2
       (sets.boolean_set.make [7; 9] 513) ++ [42; 43])
  = Ok (sets.boolean_set.make [7; 9] 513).
Proof.
  apply (proj2 (proj2 (serialization_ignores_trailing_bytes
                         serialization.LittleEndian 2 [42; 43]))
           (sets.boolean_set.make [7; 9] 513)).
  - reflexivity.
  - unfold is_size_t, size_max. simpl. lia.
Defined.

(** X20: reading a buffer of bytes and writing the result back gives the
    first [N + 8] bytes of the buffer: the format has one encoding per
    value, and the fingerprint read is a [std::size_t]. *)
Theorem deserialize_then_serialize (bo : serialization.byte_order) (N : nat)
  (bytes : list Z) :
  (N + 8 <= List.length bytes)%nat -> Forall is_byte bytes ->
  (exists td,
      serialization.deserialize_trapdoor bo N bytes = Ok td /\
      is_size_t (trapdoor.key_fingerprint td) /\
      serialization.serialize_trapdoor bo N td = firstn (N + 8) bytes) /\
  (exists s,
      serialization.deserialize_sym_diff_set bo N bytes = Ok s /\
      serialization.serialize_sym_diff_set bo N s = firstn (N + 8) bytes) /\
  (exists s,
      serialization.deserialize_boolean_set bo N bytes = Ok s /\
      serialization.serialize_boolean_set bo N s = firstn (N + 8) bytes).
Proof.
  intros L B.
  unfold serialization.deserialize_trapdoor,
    serialization.deserialize_sym_diff_set,
    serialization.deserialize_boolean_set.
  rewrite deserialize_hash_prefix by lia.
  assert (E : (List.length bytes <? N + 8)%nat = false) by now apply Nat.ltb_ge.
  rewrite E. cbn [bind].
  pose proof (fields_of_buffer bo N bytes L B) as F.
  split; [|split]; eexists; (split; [reflexivity|]); try exact F.
  split; [|exact F].
  cbn. unfold serialization.read_size_t.
  apply size_t_bytes_of_bytes.
  - rewrite length_firstn, length_skipn. lia.
  - assert (B' : Forall is_byte (firstn N bytes) /\ Forall is_byte (skipn N bytes))
      by (apply Forall_app; now rewrite firstn_skipn).
    assert (B8 : Forall is_byte (firstn 8 (skipn N bytes)) /\
                 Forall is_byte (skipn 8 (skipn N bytes)))
      by (apply Forall_app; now rewrite firstn_skipn).
    apply B8.
Qed.

Lemma deserialize_then_serialize_witness :
  exists td,
    serialization.deserialize_trapdoor serialization.BigEndian 1
      [7; 0; 0; 0; 0; 0; 0; 1; 2; 99] = Ok td /\
    is_size_t (trapdoor.key_fingerprint td) /\
    serialization.serialize_trapdoor serialization.BigEndian 1 td
      = [7; 0; 0; 0; 0; 0; 0; 1; 2].
Proof.
  apply (proj1 (deserialize_then_serialize serialization.BigEndian 1
                  [7; 0; 0; 0; 0; 0; 0; 1; 2; 99]
                  ltac:(simpl; lia)
                  ltac:(repeat constructor; unfold is_byte; lia))).
Defined.

(** ** Additive trapdoors: addition and scaling *)

Section additive_laws.
Import operations.
Context {T : Type} {HN : Numeric T}.
Variable N : nat.

Lemma add_same_key (a b : additive_trapdoor.t T) :
  additive_trapdoor.key_fingerprint a = additive_trapdoor.key_fingerprint b ->
  additive_trapdoor.add N a b
  = (sum <- payload_add (additive_trapdoor.encrypted_value a)
                        (additive_trapdoor.encrypted_value b) ;;
     Ok (additive_trapdoor.make
           (hxor N (additive_trapdoor.hash a) (additive_trapdoor.hash b))
           (additive_trapdoor.key_fingerprint a) sum)).
Proof.
  intros E. unfold additive_trapdoor.add. now rewrite E, Z.eqb_refl.
Qed.

Lemma add_other_key (a b : additive_trapdoor.t T) :
  additive_trapdoor.key_fingerprint a <> additive_trapdoor.key_fingerprint b ->
  additive_trapdoor.add N a b = Throw IncompatibleKey.
Proof.
  intros D. unfold additive_trapdoor.add. now apply Z.eqb_neq in D as ->.
Qed.

Lemma add_comm (a b : additive_trapdoor.t T) :
  payload_add (additive_trapdoor.encrypted_value a)
              (additive_trapdoor.encrypted_value b)
  = payload_add (additive_trapdoor.encrypted_value b)
                (additive_trapdoor.encrypted_value a) ->
  additive_trapdoor.add N a b = additive_trapdoor.add N b a.
Proof.
  intros C.
  destruct (Z.eq_dec (additive_trapdoor.key_fingerprint a)
                     (additive_trapdoor.key_fingerprint b)) as [E|D].
  - rewrite !add_same_key by congruence.
    now rewrite hxor_comm, C, E.
  - rewrite !add_other_key by congruence. reflexivity.
Qed.

Lemma add_assoc (a b c : additive_trapdoor.t T) (sab sbc : T) :
  payload_add (additive_trapdoor.encrypted_value a)
              (additive_trapdoor.encrypted_value b) = Ok sab ->
  payload_add (additive_trapdoor.encrypted_value b)
              (additive_trapdoor.encrypted_value c) = Ok sbc ->
  payload_add sab (additive_trapdoor.encrypted_value c)
  = payload_add (additive_trapdoor.encrypted_value a) sbc ->
  (ab <- additive_trapdoor.add N a b ;; additive_trapdoor.add N ab c)
  = (bc <- additive_trapdoor.add N b c ;; additive_trapdoor.add N a bc).
Proof.
  intros Hab Hbc H.
  destruct (Z.eq_dec (additive_trapdoor.key_fingerprint a)
                     (additive_trapdoor.key_fingerprint b)) as [Eab|Dab];
  destruct (Z.eq_dec (additive_trapdoor.key_fingerprint b)
                     (additive_trapdoor.key_fingerprint c)) as [Ebc|Dbc].
  - rewrite (add_same_key a b Eab), (add_same_key b c Ebc), Hab, Hbc.
    cbn [bind]. rewrite !add_same_key by (cbn; congruence).
    cbn [additive_trapdoor.hash additive_trapdoor.key_fingerprint
         additive_trapdoor.encrypted_value].
    now rewrite hxor_assoc, H.
  - rewrite (add_same_key a b Eab), (add_other_key b c Dbc), Hab.
    cbn [bind]. apply add_other_key. cbn. congruence.
  - rewrite (add_other_key a b Dab), (add_same_key b c Ebc), Hbc.
    cbn [bind]. symmetry. apply add_other_key. cbn. congruence.
  - now rewrite (add_other_key a b Dab), (add_other_key b c Dbc).
Qed.
End additive_laws.

(** X21: homomorphic addition on one key XORs the hashes, adds the
    payloads with [T]'s [operator+] and keeps the fingerprint.  It is
    commutative where the payload addition is; and where the payload
    sums [a + b] and [b + c] are defined and agree on [(a + b) + c] and
    [a + (b + c)], the two groupings of three additions give the same
    additive trapdoor or raise the same IncompatibleKey. *)
Theorem additive_addition_laws {T : Type} {HN : Numeric T} (N : nat)
  (a b c : operations.additive_trapdoor.t T) :
  (operations.additive_trapdoor.key_fingerprint a
     = operations.additive_trapdoor.key_fingerprint b ->
   operations.additive_trapdoor.add N a b
   = (sum <- payload_add (operations.additive_trapdoor.encrypted_value a)
                         (operations.additive_trapdoor.encrypted_value b) ;;
      Ok (operations.additive_trapdoor.make
            (hxor N (operations.additive_trapdoor.hash a)
                    (operations.additive_trapdoor.hash b))
            (operations.additive_trapdoor.key_fingerprint a) sum))) /\
  (payload_add (operations.additive_trapdoor.encrypted_value a)
               (operations.additive_trapdoor.encrypted_value b)
   = payload_add (operations.additive_trapdoor.encrypted_value b)
                 (operations.additive_trapdoor.encrypted_value a) ->
   operations.additive_trapdoor.add N a b
   = operations.additive_trapdoor.add N b a) /\
  (forall sab sbc : T,
      payload_add (operations.additive_trapdoor.encrypted_value a)
                  (operations.additive_trapdoor.encrypted_value b) = Ok sab ->
      payload_add (operations.additive_trapdoor.encrypted_value b)
                  (operations.additive_trapdoor.encrypted_value c) = Ok sbc ->
      payload_add sab (operations.additive_trapdoor.encrypted_value c)
      = payload_add (operations.additive_trapdoor.encrypted_value a) sbc ->
      (ab <- operations.additive_trapdoor.add N a b ;;
       operations.additive_trapdoor.add N ab c)
      = (bc <- operations.additive_trapdoor.add N b c ;;
         operations.additive_trapdoor.add N a bc)).
Proof.
  split; [apply add_same_key|]. split; [apply add_comm|].
  intros sab sbc. apply add_assoc.
Qed.

Lemma additive_addition_laws_witness :
  operations.additive_trapdoor.add (HN := int_numeric) 1
    (operations.additive_trapdoor.make [3] 7 10)
    (operations.additive_trapdoor.make [5] 7 20)
  = Ok (operations.additive_trapdoor.make [6] 7 30) /\
  (ab <- operations.additive_trapdoor.add (HN := int_numeric) 1
           (operations.additive_trapdoor.make [3] 7 10)
           (operations.additive_trapdoor.make [5] 7 20) ;;
   operations.additive_trapdoor.add (HN := int_numeric) 1 ab
     (operations.additive_trapdoor.make [9] 7 (-4)))
  = (bc <- operations.additive_trapdoor.add (HN := int_numeric) 1
             (operations.additive_trapdoor.make [5] 7 20)
             (operations.additive_trapdoor.make [9] 7 (-4)) ;;
     operations.additive_trapdoor.add (HN := int_numeric) 1
       (operations.additive_trapdoor.make [3] 7 10) bc).
Proof.
  destruct (additive_addition_laws (HN := int_numeric) 1
              (operations.additive_trapdoor.make [3] 7 10)
              (operations.additive_trapdoor.make [5] 7 20)
              (operations.additive_trapdoor.make [9] 7 (-4)))
    as (Hsame & _ & Hassoc).
  split.
  - rewrite Hsame by reflexivity. reflexivity.
  - apply (Hassoc 30 16); reflexivity.
Defined.

(** A [double] payload shows why the sums must agree: the two groupings
    of 0.1 + 0.2 + 0.3 carry different payloads. *)
Example double_payload_is_not_associative :
  let td (q : Q) := operations.additive_trapdoor.make [3] 7 (literal q) in
  (ab <- operations.additive_trapdoor.add (HN := double_numeric) 1
           (td (1 # 10)) (td (2 # 10)) ;;
   operations.additive_trapdoor.add (HN := double_numeric) 1 ab (td (3 # 10)))
  <> (bc <- operations.additive_trapdoor.add (HN := double_numeric) 1
              (td (2 # 10)) (td (3 # 10)) ;;
      operations.additive_trapdoor.add (HN := double_numeric) 1 (td (1 # 10)) bc).
Proof. cbv zeta. intros H. vm_compute in H. discriminate H. Qed.

Section scaling_laws.
Import operations.
Context {T : Type} {HN : Numeric T}.
Variable N : nat.

Lemma mul_value (t : additive_trapdoor.t T) (s : Z) :
  s <> int_min ->
  additive_trapdoor.mul N t s
  = (scaled_value <- payload_scale (additive_trapdoor.encrypted_value t) s ;;
     Ok (additive_trapdoor.make
           (Nat.iter (Z.to_nat (Z.abs s - 1))
                     (fun scaled_hash => hxor N scaled_hash (additive_trapdoor.hash t))
                     (additive_trapdoor.hash t))
           (additive_trapdoor.key_fingerprint t) scaled_value)).
Proof.
  intros D. unfold additive_trapdoor.mul.
  now destruct (Z.eqb_spec s int_min).
Qed.
End scaling_laws.

(** X22: scaling is repeated addition in the hash and the fingerprint,
    and in the payload wherever [T]'s arithmetic agrees: [t * 1] is [t]
    when [v * 1] is [v]; [t + t] is [t * 2] when [v + v] is [v * 2]; and
    for an [int] [n >= 1], [(t * n) + t] is [t * (n + 1)] when
    [v * n + v] is [v * (n + 1)].  [t * s] and [t * (-s)] have the same
    hash, and [t * 0] keeps the hash of [t], the loop not running. *)
Theorem scaling_is_repeated_addition {T : Type} {HN : Numeric T} (N : nat)
  (t : operations.additive_trapdoor.t T) :
  let v := operations.additive_trapdoor.encrypted_value t in
  (payload_scale v 1 = Ok v -> operations.additive_trapdoor.mul N t 1 = Ok t) /\
  (payload_add v v = payload_scale v 2 ->
   operations.additive_trapdoor.add N t t = operations.additive_trapdoor.mul N t 2) /\
  (forall (n : Z) (vn : T),
      1 <= n < int_max ->
      payload_scale v n = Ok vn ->
      payload_add vn v = payload_scale v (n + 1) ->
      (tn <- operations.additive_trapdoor.mul N t n ;;
       operations.additive_trapdoor.add N tn t)
      = operations.additive_trapdoor.mul N t (n + 1)) /\
  (forall (s : Z) (r r' : operations.additive_trapdoor.t T),
      int_min < s <= int_max ->
      operations.additive_trapdoor.mul N t s = Ok r ->
      operations.additive_trapdoor.mul N t (- s) = Ok r' ->
      operations.additive_trapdoor.hash r' = operations.additive_trapdoor.hash r) /\
  (forall r : operations.additive_trapdoor.t T,
      operations.additive_trapdoor.mul N t 0 = Ok r ->
      operations.additive_trapdoor.hash r = operations.additive_trapdoor.hash t).
Proof.
  destruct t as [h kf v]. cbv zeta.
  cbn [operations.additive_trapdoor.encrypted_value].
  split; [|split; [|split; [|split]]].
  - intros H. rewrite mul_value by (unfold int_min; lia).
    cbn [operations.additive_trapdoor.hash
         operations.additive_trapdoor.key_fingerprint
         operations.additive_trapdoor.encrypted_value].
    rewrite H. reflexivity.
  - intros H. rewrite mul_value by (unfold int_min; lia).
    rewrite add_same_key by reflexivity.
    cbn [operations.additive_trapdoor.hash
         operations.additive_trapdoor.key_fingerprint
         operations.additive_trapdoor.encrypted_value].
    rewrite H. reflexivity.
  - intros n vn Hn Hs Ha.
    rewrite !mul_value by (unfold int_min; lia).
    cbn [operations.additive_trapdoor.hash
         operations.additive_trapdoor.key_fingerprint
         operations.additive_trapdoor.encrypted_value].
    rewrite Hs. cbn [bind]. rewrite add_same_key by reflexivity.
    cbn [operations.additive_trapdoor.hash
         operations.additive_trapdoor.key_fingerprint
         operations.additive_trapdoor.encrypted_value].
    rewrite Ha.
    replace (Z.to_nat (Z.abs (n + 1) - 1)) with (S (Z.to_nat (Z.abs n - 1)))
      by lia.
    reflexivity.
  - intros s r r' Hs. rewrite !mul_value by (unfold int_min, int_max in *; lia).
    cbn [operations.additive_trapdoor.hash
         operations.additive_trapdoor.key_fingerprint
         operations.additive_trapdoor.encrypted_value].
    rewrite Z.abs_opp.
    destruct (payload_scale v s); cbn [bind]; try discriminate.
    destruct (payload_scale v (- s)); cbn [bind]; try discriminate.
    intros [= <-] [= <-]. reflexivity.
  - intros r. rewrite mul_value by (unfold int_min; lia).
    cbn [operations.additive_trapdoor.hash
         operations.additive_trapdoor.key_fingerprint
         operations.additive_trapdoor.encrypted_value].
    destruct (payload_scale v 0); cbn [bind]; try discriminate.
    intros [= <-]. reflexivity.
Qed.

Lemma scaling_is_repeated_addition_witness :
  (tn <- operations.additive_trapdoor.mul (HN := int_numeric) 1
           (operations.additive_trapdoor.make [3] 7 10) 2 ;;
   operations.additive_trapdoor.add (HN := int_numeric) 1 tn
     (operations.additive_trapdoor.make [3] 7 10))
  = Ok (operations.additive_trapdoor.make [3] 7 30).
Proof.
  rewrite (proj1 (proj2 (proj2 (scaling_is_repeated_addition
             (HN := int_numeric) 1
             (operations.additive_trapdoor.make [3] 7 10)))) 2 20);
    [reflexivity | unfold int_max; lia | reflexivity | reflexivity].
Defined.

(** ** Secure aggregation *)

Section aggregator_facts.
Import operations.
Context {T : Type} {HT : Hashable T} {HN : Numeric T}.
Variable N : nat.
Variable a : secure_aggregator.t.

(** [acc + x1 + ... + xn] with [T]'s [operator+], left to right. *)
Lemma payload_chain_stuck (rest : list T) (r : result T) :
  (forall v, r <> Ok v) ->
  fold_left (fun acc val => init <- acc ;; payload_add init val) rest r = r.
Proof.
  intros H. induction rest as [|x rest IH]; [reflexivity|].
  cbn [fold_left]. destruct r as [v| |]; [now elim (H v)|exact IH..].
Qed.

Lemma homomorphic_stuck (tds : list (additive_trapdoor.t T))
  (r : result (additive_trapdoor.t T)) :
  (forall v, r <> Ok v) ->
  fold_left (fun acc td => result <- acc ;; additive_trapdoor.add N result td)
            tds r = r.
Proof.
  intros H. induction tds as [|x tds IH]; [reflexivity|].
  cbn [fold_left]. destruct r as [v| |]; [now elim (H v)|exact IH..].
Qed.

Lemma homomorphic_fold (rest : list T) (h : hash_value) (v : T) :
  fold_left
    (fun acc td => result <- acc ;; additive_trapdoor.add N result td)
    (secure_aggregator.trapdoors a rest)
    (Ok (additive_trapdoor.make h
           (trapdoor_factory.key_fingerprint (secure_aggregator.factory_ a)) v))
  = (total <- fold_left (fun acc val => init <- acc ;; payload_add init val)
                        rest (Ok v) ;;
     Ok (additive_trapdoor.make
           (fold_left (hxor N)
              (map (fun val =>
                      derive (trapdoor_factory.key_ (secure_aggregator.factory_ a))
                             (std_hash val)) rest) h)
           (trapdoor_factory.key_fingerprint (secure_aggregator.factory_ a))
           total)).
Proof.
  revert h v. induction rest as [|x rest IH]; intros h v; [reflexivity|].
  cbn [secure_aggregator.trapdoors map fold_left bind].
  rewrite add_same_key by reflexivity.
  cbn [additive_trapdoor.of_trapdoor additive_trapdoor.hash
       additive_trapdoor.key_fingerprint additive_trapdoor.encrypted_value
       trapdoor_factory.create trapdoor.hash trapdoor.key_fingerprint].
  destruct (payload_add v x) as [s|e|] eqn:E; cbn [bind].
  - apply IH.
  - rewrite homomorphic_stuck, payload_chain_stuck by discriminate. reflexivity.
  - rewrite homomorphic_stuck, payload_chain_stuck by discriminate. reflexivity.
Qed.

Lemma homomorphic_sum_eq (first : T) (rest : list T) (total : T) :
  payload_add payload_zero first = Ok first ->
  secure_aggregator.accumulate (first :: rest) = Ok total ->
  secure_aggregator.homomorphic_sum N
    (secure_aggregator.trapdoors a (first :: rest))
  = Ok (additive_trapdoor.make
          (fold_left (hxor N)
             (map (fun val =>
                     derive (trapdoor_factory.key_ (secure_aggregator.factory_ a))
                            (std_hash val)) rest)
             (derive (trapdoor_factory.key_ (secure_aggregator.factory_ a))
                     (std_hash first)))
          (trapdoor_factory.key_fingerprint (secure_aggregator.factory_ a))
          total).
Proof.
  intros Hz Hs. unfold secure_aggregator.homomorphic_sum.
  cbn [secure_aggregator.trapdoors map].
  change (additive_trapdoor.of_trapdoor
            (trapdoor_factory.create (secure_aggregator.factory_ a) first) first)
    with (additive_trapdoor.make
            (derive (trapdoor_factory.key_ (secure_aggregator.factory_ a))
                    (std_hash first))
            (trapdoor_factory.key_fingerprint (secure_aggregator.factory_ a))
            first).
  rewrite (homomorphic_fold rest).
  unfold secure_aggregator.accumulate in Hs. cbn [fold_left bind] in Hs.
  rewrite Hz in Hs. now rewrite Hs.
Qed.

Lemma error_rate_of_sum (v : T) :
  error_rate (approx1 v (literal (1 # 1000))) = literal (1 # 1000).
Proof. vm_compute. reflexivity. Qed.
End aggregator_facts.

(** X23: on an empty collection [sum] and [average] return a zero with
    rates 0.  On a non-empty collection whose running total
    [T{} + v1 + ... + vn] is defined, with [T{} + v1] being [v1]: [sum]
    returns that total with false-positive rate 0.001, [average] returns
    the total converted to [double] and divided by the number of values,
    with the same rate, and the additive trapdoor that [sum] accumulates
    on the way carries the same total under the factory's fingerprint. *)
Theorem secure_aggregator_spec {T : Type} {HT : Hashable T} {HN : Numeric T}
  (N : nat) (a : operations.secure_aggregator.t) (values : list T) (total : T) :
  operations.secure_aggregator.sum N a (@nil T) = Ok (approx payload_zero d0 d0) /\
  operations.secure_aggregator.average N a (@nil T) = Ok (approx d0 d0 d0) /\
  (forall first rest,
      values = first :: rest ->
      payload_add payload_zero first = Ok first ->
      operations.secure_aggregator.accumulate values = Ok total ->
      operations.secure_aggregator.sum N a values
        = Ok (approx total (literal (1 # 1000)) d0) /\
      operations.secure_aggregator.average N a values
        = Ok (approx (ddiv (payload_to_double total)
                           (of_Z (Z.of_nat (List.length values))))
                     (literal (1 # 1000)) d0) /\
      exists td,
        operations.secure_aggregator.homomorphic_sum N
          (operations.secure_aggregator.trapdoors a values) = Ok td /\
        operations.additive_trapdoor.encrypted_value td = total /\
        operations.additive_trapdoor.key_fingerprint td
          = trapdoor_factory.key_fingerprint
              (operations.secure_aggregator.factory_ a)).
Proof.
  split; [reflexivity|]. split; [reflexivity|].
  intros first rest -> Hz Hs.
  assert (S : operations.secure_aggregator.sum N a (first :: rest)
              = Ok (approx total (literal (1 # 1000)) d0)).
  { unfold operations.secure_aggregator.sum.
    rewrite (homomorphic_sum_eq N a first rest total Hz Hs). cbn [bind].
    now rewrite Hs. }
  split; [exact S|]. split.
  - unfold operations.secure_aggregator.average. rewrite S. cbn [bind].
    unfold approx1. f_equal; try (f_equal; apply (error_rate_of_sum total)).
  - eexists. split; [apply (homomorphic_sum_eq N a first rest total Hz Hs)|].
    split; reflexivity.
Qed.

Lemma secure_aggregator_spec_witness :
  operations.secure_aggregator.sum (HT := hash_Z) (HN := int_numeric) 2
    (operations.secure_aggregator.make (sample_factory 2 7)) [10; 20; 30]
  = Ok (approx 60 (literal (1 # 1000)) d0) /\
  operations.secure_aggregator.average (HT := hash_Z) (HN := int_numeric) 2
    (operations.secure_aggregator.make (sample_factory 2 7)) [10; 20; 30]
  = Ok (approx (Fin 20) (literal (1 # 1000)) d0).
Proof.
  destruct (proj2 (proj2 (secure_aggregator_spec (HT := hash_Z)
              (HN := int_numeric) 2
              (operations.secure_aggregator.make (sample_factory 2 7))
              [10; 20; 30] 60)) 10 [20; 30] eq_refl eq_refl eq_refl)
    as (S & A & _).
  split; [exact S|]. rewrite A. vm_compute. reflexivity.
Defined.

(** An [unsigned] total wraps around, and an [int] total that overflows
    is undefined. *)
Example unsigned_sum_wraps :
  operations.secure_aggregator.sum (HT := hash_Z) (HN := unsigned_numeric) 2
    (operations.secure_aggregator.make (sample_factory 2 7)) [4294967295; 1]
  = Ok (approx 0 (literal (1 # 1000)) d0) /\
  operations.secure_aggregator.sum (HT := hash_Z) (HN := int_numeric) 2
    (operations.secure_aggregator.make (sample_factory 2 7)) [2147483647; 1]
  = Undefined.
Proof. split; reflexivity. Qed.

(** ** Threshold scheme: well-formed shares, n-of-n, other subsets *)

Section share_bytes.
Import operations.threshold_scheme.
Context {G : Type} (rand : G -> Z * G).
Variable N : nat.

Lemma land_255_is_byte (r : Z) : is_byte (Z.land r 255).
Proof.
  change 255 with (Z.ones 8). rewrite Z.land_ones by lia.
  unfold is_byte. change 256 with (2 ^ 8). apply Z.mod_pos_bound. lia.
Qed.

Lemma random_share_is_byte (n : nat) (g : G) :
  Forall is_byte (fst (random_share rand n g)).
Proof.
  revert g. induction n as [|n IH]; intros g; [constructor|].
  cbn [random_share]. destruct (rand g) as [r g1].
  specialize (IH g1). destruct (random_share rand n g1) as [rest g2].
  cbn in *. constructor; [apply land_255_is_byte | exact IH].
Qed.

Lemma random_shares_wf (count : nat) (g : G) :
  Forall (wf_hash N) (fst (random_shares rand N count g)).
Proof.
  revert g. induction count as [|c IH]; intros g; [constructor|].
  cbn [random_shares].
  pose proof (random_share_length rand N g) as L.
  pose proof (random_share_is_byte N g) as B.
  destruct (random_share rand N g) as [share g1].
  specialize (IH g1). destruct (random_shares rand N c g1) as [rest g2].
  cbn in *. constructor; [now split | exact IH].
Qed.

Lemma fold_hxor_wf (l : list hash_value) (h : hash_value) :
  wf_hash N h -> Forall (wf_hash N) l -> wf_hash N (fold_left (hxor N) l h).
Proof.
  intros Wh Wl. revert h Wh.
  induction Wl as [|x l [Lx Bx] Wl IH]; intros h [Lh Bh]; [now split|].
  cbn. apply IH. split; [apply hxor_length|].
  apply bytewise_is_byte; auto. intros u w. apply lxor_is_byte.
Qed.
End share_bytes.

(** X24: for [1 <= k <= n] and a byte-valued [N]-byte secret, every share
    that [create_shares] returns is a byte-valued [N]-byte word; and in an
    n-of-n scheme [reconstruct] on all the shares, in the order they were
    returned, gives back the secret's hash. *)
Theorem threshold_shares_are_words {G : Type} (rand : G -> Z * G) (N : nat)
  (k n : Z) (td : trapdoor.t) (g : G) (kf : Z) :
  1 <= k <= n -> n < size_max -> wf_hash N (trapdoor.hash td) ->
  let s := operations.threshold_scheme.make k n in
  let shares := fst (operations.threshold_scheme.create_shares rand N s td g) in
  Forall (wf_hash N) shares /\
  (k = n ->
   operations.threshold_scheme.reconstruct N s shares kf
   = Ok (trapdoor.make (trapdoor.hash td) kf)).
Proof.
  intros Hk Hn Wh. cbv zeta. rewrite create_shares_eq by easy.
  set (random := fst (operations.threshold_scheme.random_shares
                        rand N (Z.to_nat (n - 1)) g)).
  assert (Lr : List.length random = Z.to_nat (n - 1))
    by apply random_shares_length.
  assert (Wr : Forall (wf_hash N) random) by apply random_shares_wf.
  split.
  - apply Forall_app. split; [exact Wr|]. constructor; [|constructor].
    apply fold_hxor_wf; [exact Wh|].
    assert (W2 : Forall (wf_hash N) (firstn (Z.to_nat (k - 1)) random) /\
                 Forall (wf_hash N) (skipn (Z.to_nat (k - 1)) random))
      by (apply Forall_app; now rewrite firstn_skipn).
    apply W2.
  - intros ->. rewrite <- Lr, firstn_all.
    rewrite reconstruct_first_k.
    + rewrite xor_shares_cancel by apply Wh. reflexivity.
    + rewrite length_app, Lr. cbn. lia.
    + rewrite length_app. cbn. lia.
Qed.

Lemma threshold_shares_are_words_witness :
  operations.threshold_scheme.reconstruct 2
    (operations.threshold_scheme.make 3 3)
    (fst (operations.threshold_scheme.create_shares sample_rand 2
            (operations.threshold_scheme.make 3 3) (trapdoor.make [10; 20] 7) 1))
    7
  = Ok (trapdoor.make [10; 20] 7).
Proof.
  apply (proj2 (threshold_shares_are_words sample_rand 2 3 3
                  (trapdoor.make [10; 20] 7) 1 7
                  ltac:(lia) ltac:(unfold size_max; lia)
                  ltac:(split; [reflexivity
                               | repeat constructor; unfold is_byte; lia]))).
  reflexivity.
Defined.

(** X25: for [1 <= k < n] the first [k] shares are all random:
    [reconstruct] on them returns the XOR of those random shares, the same
    word whatever the secret was. *)
Theorem first_shares_ignore_the_secret {G : Type} (rand : G -> Z * G) (N : nat)
  (k n : Z) (td td' : trapdoor.t) (g : G) (kf : Z) :
  1 <= k < n -> n < size_max ->
  let s := operations.threshold_scheme.make k n in
  let random :=
    fst (operations.threshold_scheme.random_shares rand N (Z.to_nat (n - 1)) g) in
  firstn (Z.to_nat k)
    (fst (operations.threshold_scheme.create_shares rand N s td g))
    = firstn (Z.to_nat k) random /\
  operations.threshold_scheme.reconstruct N s
    (firstn (Z.to_nat k)
       (fst (operations.threshold_scheme.create_shares rand N s td g))) kf
  = Ok (trapdoor.make
          (fold_left (hxor N) (tl (firstn (Z.to_nat k) random))
                     (hd (zero_hash N) (firstn (Z.to_nat k) random)))
          kf) /\
  operations.threshold_scheme.reconstruct N s
    (firstn (Z.to_nat k)
       (fst (operations.threshold_scheme.create_shares rand N s td g))) kf
  = operations.threshold_scheme.reconstruct N s
      (firstn (Z.to_nat k)
         (fst (operations.threshold_scheme.create_shares rand N s td' g))) kf.
Proof.
  intros Hk Hn. cbv zeta.
  set (random := fst (operations.threshold_scheme.random_shares
                        rand N (Z.to_nat (n - 1)) g)).
  assert (Lr : List.length random = Z.to_nat (n - 1))
    by apply random_shares_length.
  assert (F : forall x : trapdoor.t,
             firstn (Z.to_nat k)
               (fst (operations.threshold_scheme.create_shares rand N
                       (operations.threshold_scheme.make k n) x g))
             = firstn (Z.to_nat k) random).
  { intros x. rewrite create_shares_eq by lia. fold random.
    rewrite firstn_app.
    replace (Z.to_nat k - List.length random)%nat with 0%nat by lia.
    cbn [firstn]. apply app_nil_r. }
  split; [apply F|]. rewrite !F. split; [|reflexivity].
  apply reconstruct_first_k.
  - rewrite length_firstn. cbn. lia.
  - rewrite length_firstn. lia.
Qed.

Lemma first_shares_ignore_the_secret_witness :
  operations.threshold_scheme.reconstruct 2
    (operations.threshold_scheme.make 3 5)
    (firstn 3 (fst (operations.threshold_scheme.create_shares sample_rand 2
                      (operations.threshold_scheme.make 3 5)
                      (trapdoor.make [10; 20] 7) 1))) 7
  = operations.threshold_scheme.reconstruct 2
      (operations.threshold_scheme.make 3 5)
      (firstn 3 (fst (operations.threshold_scheme.create_shares sample_rand 2
                        (operations.threshold_scheme.make 3 5)
                        (trapdoor.make [99; 1] 7) 1))) 7.
Proof.
  apply (proj2 (proj2 (first_shares_ignore_the_secret sample_rand 2 3 5
           (trapdoor.make [10; 20] 7) (trapdoor.make [99; 1] 7) 1 7
           ltac:(lia) ltac:(unfold size_max; lia)))).
Defined.

(** ** Threshold operation *)

Section threshold_operation_facts.

Lemma count_agreements (operation : trapdoor.t -> bool)
  (participants : list trapdoor.t) (acc : Z) :
  fold_left (fun agreements p => if operation p then agreements + 1 else agreements)
            participants acc
  = acc + Z.of_nat (List.length (filter operation participants)).
Proof.
  revert acc. induction participants as [|p ps IH]; intros acc; cbn.
  - lia.
  - rewrite IH. destruct (operation p); cbn [List.length]; lia.
Qed.

Lemma filter_length_le {A : Type} (g : A -> bool) (l : list A) :
  (List.length (filter g l) <= List.length l)%nat.
Proof.
  induction l as [|x l IH]; cbn; [lia|]. destruct (g x); cbn; lia.
Qed.

Lemma one_minus_ratio (a n : Z) :
  0 <= a <= n -> 1 <= n ->
  in_unit (dsub d1 (ddiv (of_Z a) (of_Z n))) = true.
Proof.
  intros Ha Hn. apply complement_in_unit. now apply ratio_in_unit.
Qed.

Lemma one_minus_one : dsub d1 d1 = d0.
Proof. vm_compute. reflexivity. Qed.

Lemma one_minus_zero : dsub d1 d0 = d1.
Proof. vm_compute. reflexivity. Qed.
End threshold_operation_facts.

(** X26: [threshold_operation] raises nothing.  With fewer participants
    than the threshold it answers (false, fpr 0, fnr 1).  Otherwise its
    value tells whether at least [threshold] participants satisfy the
    operation, its false-negative rate is 0 and its false-positive rate is
    [1.0 - agreeing / participants] as [double] computes it: there being
    a participant, a number of [[0, 1]] that is 0 when all agree and 1
    when none does. *)
Theorem threshold_operation_spec (s : operations.threshold_scheme.t)
  (participants : list trapdoor.t) (operation : trapdoor.t -> bool) :
  let n := Z.of_nat (List.length participants) in
  let agreeing := Z.of_nat (List.length (filter operation participants)) in
  (n < operations.threshold_scheme.threshold_ s ->
   operations.threshold_scheme.threshold_operation s participants operation
   = approx false d0 d1) /\
  (operations.threshold_scheme.threshold_ s <= n ->
   operations.threshold_scheme.threshold_operation s participants operation
   = approx (operations.threshold_scheme.threshold_ s <=? agreeing)
            (dsub d1 (ddiv (of_Z agreeing) (of_Z n))) d0) /\
  (operations.threshold_scheme.threshold_ s <= n -> 1 <= n ->
   valid_rates
     (operations.threshold_scheme.threshold_operation s participants operation)
   = true /\
   (agreeing = n ->
    false_positive_rate
      (operations.threshold_scheme.threshold_operation s participants operation)
    = d0) /\
   (agreeing = 0 ->
    false_positive_rate
      (operations.threshold_scheme.threshold_operation s participants operation)
    = d1)).
Proof.
  cbv zeta.
  assert (V : operations.threshold_scheme.threshold_ s
              <= Z.of_nat (List.length participants) ->
              operations.threshold_scheme.threshold_operation s participants
                operation
              = approx (operations.threshold_scheme.threshold_ s
                        <=? Z.of_nat (List.length (filter operation participants)))
                       (dsub d1 (ddiv (of_Z (Z.of_nat (List.length
                                                (filter operation participants))))
                                      (of_Z (Z.of_nat (List.length participants)))))
                       d0).
  { intros Hk. unfold operations.threshold_scheme.threshold_operation.
    destruct (Z.ltb_spec (Z.of_nat (List.length participants))
                         (operations.threshold_scheme.threshold_ s)); [lia|].
    now rewrite count_agreements, Z.add_0_l. }
  split; [|split].
  - intros H. unfold operations.threshold_scheme.threshold_operation.
    now apply Z.ltb_lt in H as ->.
  - exact V.
  - intros Hk Hn. rewrite (V Hk).
    pose proof (filter_length_le operation participants) as Hle.
    unfold valid_rates, approx. cbn [false_positive_rate false_negative_rate].
    split; [|split].
    + rewrite one_minus_ratio by lia. reflexivity.
    + intros ->. rewrite ddiv_self by exact Hn. apply one_minus_one.
    + intros ->. change (of_Z 0) with d0.
      rewrite ddiv_zero by exact Hn. apply one_minus_zero.
Qed.

Lemma threshold_operation_spec_witness :
  operations.threshold_scheme.threshold_operation
    (operations.threshold_scheme.make 2 3)
    [trapdoor.make [2] 7; trapdoor.make [3] 7; trapdoor.make [4] 7]
    (fun p => Z.even (byte_at (trapdoor.hash p) 0))
  = approx true (Fin (3002399751580331 # 9007199254740992)) d0 /\
  operations.threshold_scheme.threshold_operation
    (operations.threshold_scheme.make 2 3) [trapdoor.make [2] 7]
    (fun p => Z.even (byte_at (trapdoor.hash p) 0))
  = approx false d0 d1.
Proof.
  split.
  - rewrite (proj1 (proj2 (threshold_operation_spec
               (operations.threshold_scheme.make 2 3)
               [trapdoor.make [2] 7; trapdoor.make [3] 7; trapdoor.make [4] 7]
               (fun p => Z.even (byte_at (trapdoor.hash p) 0))))
               ltac:(simpl; lia)).
    vm_compute. reflexivity.
  - apply (proj1 (threshold_operation_spec
               (operations.threshold_scheme.make 2 3) [trapdoor.make [2] 7]
               (fun p => Z.even (byte_at (trapdoor.hash p) 0)))).
    simpl. lia.
Defined.

(** ** Compound trapdoors *)

Section compound_facts.
Variable N : nat.

Lemma fold_land_below_start (bs : list Z) (x : Z) :
  Z.land (fold_left Z.land bs x) x = fold_left Z.land bs x.
Proof.
  revert x. induction bs as [|b bs IH]; intros x; cbn.
  - apply Z.land_diag.
  - pose proof (IH (Z.land x b)) as H.
    set (F := fold_left Z.land bs (Z.land x b)) in *.
    rewrite <- H at 1. rewrite <- Z.land_assoc.
    replace (Z.land (Z.land x b) x) with (Z.land x b) by byte_bits.
    exact H.
Qed.

Lemma fold_land_below_member (bs : list Z) (x c : Z) :
  In c bs -> Z.land (fold_left Z.land bs x) c = fold_left Z.land bs x.
Proof.
  revert x. induction bs as [|b bs IH]; intros x Hin; [contradiction|].
  cbn. destruct Hin as [->|Hin]; [|now apply IH].
  pose proof (fold_land_below_start bs (Z.land x c)) as H.
  set (F := fold_left Z.land bs (Z.land x c)) in *.
  rewrite <- H at 1. rewrite <- Z.land_assoc.
  replace (Z.land (Z.land x c) c) with (Z.land x c) by byte_bits.
  exact H.
Qed.

Lemma byte_at_fold_hand (l : list hash_value) (h : hash_value) (i : nat) :
  (i < N)%nat ->
  byte_at (fold_left (hand N) l h) i
  = fold_left Z.land (map (fun x => byte_at x i) l) (byte_at h i).
Proof.
  intros Hi. revert h. induction l as [|x l IH]; intros h; [reflexivity|].
  cbn [fold_left map]. rewrite IH. unfold hand. now rewrite byte_at_bytewise.
Qed.
End compound_facts.

(** X27: [add_component] raises IncompatibleKey for a trapdoor of another
    key and appends it otherwise; [multiply] raises EmptyCompound exactly
    when there is no component; otherwise it returns, under the compound's
    fingerprint, the AND of the component hashes, a word whose set bits
    are set in every component. *)
Theorem compound_multiply_spec (N : nat) (c : operations.compound_trapdoor.t)
  (td : trapdoor.t) :
  (trapdoor.key_fingerprint td
     <> operations.compound_trapdoor.key_fingerprint_ c ->
   operations.compound_trapdoor.add_component c td = Throw IncompatibleKey) /\
  (trapdoor.key_fingerprint td
     = operations.compound_trapdoor.key_fingerprint_ c ->
   operations.compound_trapdoor.add_component c td
   = Ok (operations.compound_trapdoor.make
           (operations.compound_trapdoor.components_ c ++ [td])
           (operations.compound_trapdoor.key_fingerprint_ c))) /\
  (operations.compound_trapdoor.multiply N c = Throw EmptyCompound
   <-> operations.compound_trapdoor.components_ c = []) /\
  (forall first rest,
      operations.compound_trapdoor.components_ c = first :: rest ->
      let word := fold_left (hand N) (map trapdoor.hash rest)
                            (trapdoor.hash first) in
      operations.compound_trapdoor.multiply N c
      = Ok (trapdoor.make word
              (operations.compound_trapdoor.key_fingerprint_ c)) /\
      forall x, In x (first :: rest) ->
                heqb N (hand N word (trapdoor.hash x)) word = true).
Proof.
  split; [|split; [|split]].
  - intros D. unfold operations.compound_trapdoor.add_component.
    now apply Z.eqb_neq in D as ->.
  - intros E. unfold operations.compound_trapdoor.add_component.
    now rewrite E, Z.eqb_refl.
  - unfold operations.compound_trapdoor.multiply.
    destruct (operations.compound_trapdoor.components_ c); split;
      try reflexivity; discriminate.
  - intros first rest E word. subst word.
    unfold operations.compound_trapdoor.multiply. rewrite E. split.
    + f_equal. f_equal.
      rewrite (fold_left_indices
                 (fun result (x : trapdoor.t) => hand N result (trapdoor.hash x)))
        by (cbn; lia).
      cbn [skipn List.length Nat.sub]. rewrite Nat.sub_0_r, firstn_all.
      clear E. generalize (trapdoor.hash first).
      induction rest as [|y rest IH]; intros h; [reflexivity|].
      cbn [fold_left map]. apply IH.
    + intros x Hx. apply heqb_spec. intros i Hi.
      unfold hand at 1. rewrite byte_at_bytewise by exact Hi.
      rewrite byte_at_fold_hand by exact Hi.
      destruct Hx as [<-|Hx].
      * apply fold_land_below_start.
      * apply fold_land_below_member. rewrite map_map.
        apply (in_map (fun y => byte_at (trapdoor.hash y) i)), Hx.
Qed.

Lemma compound_multiply_spec_witness :
  operations.compound_trapdoor.multiply 1
    (operations.compound_trapdoor.make
       [trapdoor.make [14] 7; trapdoor.make [7] 7] 7)
  = Ok (trapdoor.make [6] 7) /\
  operations.compound_trapdoor.add_component
    (operations.compound_trapdoor.create 7) (trapdoor.make [14] 8)
  = Throw IncompatibleKey.
Proof.
  split.
  - apply (proj2 (proj2 (proj2 (compound_multiply_spec 1
             (operations.compound_trapdoor.make
                [trapdoor.make [14] 7; trapdoor.make [7] 7] 7)
             (trapdoor.make [] 0))))
             (trapdoor.make [14] 7) [trapdoor.make [7] 7] eq_refl).
  - apply (proj1 (compound_multiply_spec 1
             (operations.compound_trapdoor.create 7) (trapdoor.make [14] 8))).
    simpl. lia.
Defined.

(** ** Batch operations *)

Section batch_facts.
Import operations.
Variable N : nat.

Lemma equals_same_key (l r : trapdoor.t) :
  trapdoor.key_fingerprint l = trapdoor.key_fingerprint r ->
  trapdoor.equals N l r
  = Ok (approx (heqb N (trapdoor.hash l) (trapdoor.hash r))
               (pow2 (- trapdoor.hash_bits N)) d0).
Proof.
  intros E. unfold trapdoor.equals, trapdoor.compatible_with.
  now rewrite E, Z.eqb_refl.
Qed.

Lemma equals_other_key (l r : trapdoor.t) :
  trapdoor.key_fingerprint l <> trapdoor.key_fingerprint r ->
  trapdoor.equals N l r = Throw IncompatibleKey.
Proof.
  intros D. unfold trapdoor.equals, trapdoor.compatible_with.
  now apply Z.eqb_neq in D as ->.
Qed.

Lemma transform2_equals (left right : list trapdoor.t) :
  List.length left = List.length right ->
  (Forall (fun p => trapdoor.key_fingerprint (fst p)
                    = trapdoor.key_fingerprint (snd p))
          (combine left right) ->
   batch_operations.transform2 (trapdoor.equals N) left right
   = Ok (map (fun p => approx (heqb N (trapdoor.hash (fst p))
                                      (trapdoor.hash (snd p)))
                              (pow2 (- trapdoor.hash_bits N)) d0)
             (combine left right))) /\
  (Exists (fun p => trapdoor.key_fingerprint (fst p)
                    <> trapdoor.key_fingerprint (snd p))
          (combine left right) ->
   batch_operations.transform2 (trapdoor.equals N) left right
   = Throw IncompatibleKey).
Proof.
  revert right. induction left as [|l left IH]; intros [|r right] L;
    try discriminate.
  - split; [reflexivity | intros H; inversion H].
  - injection L as L. destruct (IH right L) as [IHok IHbad].
    cbn [combine batch_operations.transform2 map]. split.
    + intros H. inversion H as [|? ? Hp Hrest]; subst. cbn in Hp.
      rewrite equals_same_key by exact Hp. cbn [bind].
      now rewrite IHok.
    + intros H.
      destruct (Z.eq_dec (trapdoor.key_fingerprint l)
                         (trapdoor.key_fingerprint r)) as [E|D].
      * rewrite equals_same_key by exact E. cbn [bind].
        inversion H as [? ? Hp|? ? Hrest]; subst; [cbn in Hp; contradiction|].
        now rewrite IHbad.
      * now rewrite equals_other_key.
Qed.

Lemma transform1_contains (set : sets.boolean_set.t) (elements : list trapdoor.t) :
  (Forall (fun e => trapdoor.key_fingerprint e
                    = sets.boolean_set.key_fingerprint set) elements ->
   batch_operations.transform1 (sets.boolean_set.contains N set) elements
   = Ok (map (fun e =>
                approx (heqb N (hand N (sets.boolean_set.hash set)
                                       (trapdoor.hash e))
                             (trapdoor.hash e))
                       half d0)
             elements)) /\
  (Exists (fun e => trapdoor.key_fingerprint e
                    <> sets.boolean_set.key_fingerprint set) elements ->
   batch_operations.transform1 (sets.boolean_set.contains N set) elements
   = Throw IncompatibleKey).
Proof.
  induction elements as [|e elements [IHok IHbad]].
  - split; [reflexivity | intros H; inversion H].
  - cbn [batch_operations.transform1 map]. unfold sets.boolean_set.contains at 1 3.
    split.
    + intros H. inversion H as [|? ? Hp Hrest]; subst.
      rewrite Hp, Z.eqb_refl. cbn [negb bind]. now rewrite IHok.
    + intros H.
      destruct (Z.eqb_spec (trapdoor.key_fingerprint e)
                           (sets.boolean_set.key_fingerprint set)) as [E|D];
        cbn [negb bind]; [|reflexivity].
      inversion H as [? ? Hp|? ? Hrest]; subst; [contradiction|].
      now rewrite IHbad.
Qed.
End batch_facts.

(** X28: [batch_equals] raises SizeMismatch when the two vectors differ in
    length, whatever their keys; on vectors of one length it raises
    IncompatibleKey as soon as one pair has differing fingerprints, and
    otherwise returns one result per pair, the comparison of the two
    hashes with false-positive rate [std::pow(2.0, -8N)].  [batch_contains]
    likewise
    raises IncompatibleKey for an element of another key and otherwise
    returns one membership result per element. *)
Theorem batch_operations_spec (N : nat) (left right : list trapdoor.t)
  (set : sets.boolean_set.t) :
  (List.length left <> List.length right ->
   operations.batch_operations.batch_equals N left right = Throw SizeMismatch) /\
  (List.length left = List.length right ->
   (Forall (fun p => trapdoor.key_fingerprint (fst p)
                     = trapdoor.key_fingerprint (snd p))
           (combine left right) ->
    exists results,
      operations.batch_operations.batch_equals N left right = Ok results /\
      List.length results = List.length left /\
      results
      = map (fun p => approx (heqb N (trapdoor.hash (fst p))
                                     (trapdoor.hash (snd p)))
                             (pow2 (- trapdoor.hash_bits N)) d0)
            (combine left right)) /\
   (Exists (fun p => trapdoor.key_fingerprint (fst p)
                     <> trapdoor.key_fingerprint (snd p))
           (combine left right) ->
    operations.batch_operations.batch_equals N left right
    = Throw IncompatibleKey)) /\
  (Forall (fun e => trapdoor.key_fingerprint e
                    = sets.boolean_set.key_fingerprint set) left ->
   exists results,
     operations.batch_operations.batch_contains N set left = Ok results /\
     List.length results = List.length left /\
     map value results
     = map (fun e => heqb N (hand N (sets.boolean_set.hash set) (trapdoor.hash e))
                          (trapdoor.hash e)) left) /\
  (Exists (fun e => trapdoor.key_fingerprint e
                    <> sets.boolean_set.key_fingerprint set) left ->
   operations.batch_operations.batch_contains N set left = Throw IncompatibleKey).
Proof.
  unfold operations.batch_operations.batch_equals,
    operations.batch_operations.batch_contains.
  split; [|split; [|split]].
  - intros D. now apply Nat.eqb_neq in D as ->.
  - intros L. rewrite L, Nat.eqb_refl. cbn [negb].
    destruct (transform2_equals N left right L) as [Hok Hbad]. split.
    + intros H. eexists. split; [now apply Hok|]. split; [|reflexivity].
      rewrite length_map, length_combine. lia.
    + exact Hbad.
  - intros H. eexists. split; [now apply transform1_contains|].
    split; [now rewrite length_map|].
    rewrite map_map. reflexivity.
  - apply transform1_contains.
Qed.

Lemma batch_operations_spec_witness :
  operations.batch_operations.batch_equals 1
    [trapdoor.make [3] 7; trapdoor.make [4] 7] [trapdoor.make [3] 7]
  = Throw SizeMismatch /\
  operations.batch_operations.batch_equals 1
    [trapdoor.make [3] 7; trapdoor.make [4] 7]
    [trapdoor.make [3] 7; trapdoor.make [4] 8]
  = Throw IncompatibleKey /\
  exists results,
    operations.batch_operations.batch_equals 1
      [trapdoor.make [3] 7; trapdoor.make [4] 7]
      [trapdoor.make [3] 7; trapdoor.make [5] 7]
    = Ok results /\
    map value results = [true; false].
Proof.
  split; [|split].
  - apply (proj1 (batch_operations_spec 1
                    [trapdoor.make [3] 7; trapdoor.make [4] 7]
                    [trapdoor.make [3] 7] (sets.boolean_set.make [] 0))).
    simpl. lia.
  - apply (proj2 (proj1 (proj2 (batch_operations_spec 1
                    [trapdoor.make [3] 7; trapdoor.make [4] 7]
                    [trapdoor.make [3] 7; trapdoor.make [4] 8]
                    (sets.boolean_set.make [] 0))) eq_refl)).
    apply Exists_cons_tl, Exists_cons_hd. simpl. lia.
  - destruct (proj1 (proj1 (proj2 (batch_operations_spec 1
                    [trapdoor.make [3] 7; trapdoor.make [4] 7]
                    [trapdoor.make [3] 7; trapdoor.make [5] 7]
                    (sets.boolean_set.make [] 0))) eq_refl))
      as (results & E & _ & V).
    + repeat constructor.
    + exists results. split; [exact E|]. rewrite V. reflexivity.
Defined.

(** ** MinHash: signatures and estimates *)

Section signature_facts.
Import operations.minhash.
Context {T : Type} {HT : Hashable T} {HS : Hashable string}.
Variable N : nat.
Variable m : t.







End signature_facts.



Section estimate_facts.
Import operations.minhash.

Lemma count_loop_bounds (a b : list Z) (s n : nat) (acc : Z) :
  acc <= fold_left
           (fun matches i => if nth i a 0 =? nth i b 0 then matches + 1 else matches)
           (seq s n) acc
      <= acc + Z.of_nat n.
Proof.
  revert s acc. induction n as [|n IH]; intros s acc.
  - cbn. lia.
  - cbn [seq fold_left].
    destruct (nth s a 0 =? nth s b 0).
    + specialize (IH (S s) (acc + 1)). lia.
    + specialize (IH (S s) acc). lia.
Qed.

Lemma count_loop_sym (a b : list Z) (s n : nat) (acc : Z) :
  fold_left
    (fun matches i => if nth i a 0 =? nth i b 0 then matches + 1 else matches)
    (seq s n) acc
  = fold_left
      (fun matches i => if nth i b 0 =? nth i a 0 then matches + 1 else matches)
      (seq s n) acc.
Proof.
  revert s acc. induction n as [|n IH]; intros s acc; [reflexivity|].
  cbn [seq fold_left]. now rewrite (Z.eqb_sym (nth s a 0)), IH.
Qed.

End estimate_facts.

(** X30: [estimate_similarity] checks the key fingerprints first
    (IncompatibleKey) and the sizes second (SizeMismatch); it is symmetric
    in its two signatures; on signatures of one key and one non-zero size
    the similarity is the share of equal coordinates, a number of
    [[0, 1]]; and an engine with at least one hash function gives every
    non-empty signature similarity 1.0 with itself, with error 0. *)
Theorem minhash_estimate_spec (lm : libm) (m : operations.minhash.t)
  (sig_a sig_b : operations.minhash.signature) :
  (operations.minhash.key_fingerprint sig_a
     <> operations.minhash.key_fingerprint sig_b ->
   operations.minhash.estimate_similarity lm m sig_a sig_b
   = Throw IncompatibleKey) /\
  (operations.minhash.key_fingerprint sig_a
     = operations.minhash.key_fingerprint sig_b ->
   List.length (operations.minhash.values sig_a)
     <> List.length (operations.minhash.values sig_b) ->
   operations.minhash.estimate_similarity lm m sig_a sig_b = Throw SizeMismatch) /\
  operations.minhash.estimate_similarity lm m sig_a sig_b
    = operations.minhash.estimate_similarity lm m sig_b sig_a /\
  (operations.minhash.key_fingerprint sig_a
     = operations.minhash.key_fingerprint sig_b ->
   List.length (operations.minhash.values sig_a)
     = List.length (operations.minhash.values sig_b) ->
   (1 <= List.length (operations.minhash.values sig_a))%nat ->
   exists r,
     operations.minhash.estimate_similarity lm m sig_a sig_b = Ok r /\
     value r
     = ddiv (of_Z (operations.minhash.count_matches
                     (operations.minhash.values sig_a)
                     (operations.minhash.values sig_b)))
            (of_Z (Z.of_nat (List.length (operations.minhash.values sig_a)))) /\
     in_unit (value r) = true) /\
  (sqrt lm d0 = d0 -> 1 <= operations.minhash.num_hashes_ m ->
   (1 <= List.length (operations.minhash.values sig_a))%nat ->
   operations.minhash.estimate_similarity lm m sig_a sig_a
   = Ok (approx d1 d0 d0)).
Proof.
  unfold operations.minhash.estimate_similarity.
  split; [|split; [|split; [|split]]].
  - intros D. now apply Z.eqb_neq in D as ->.
  - intros E D. rewrite E, Z.eqb_refl. cbn [negb].
    now apply Nat.eqb_neq in D as ->.
  - rewrite (Z.eqb_sym (operations.minhash.key_fingerprint sig_b)).
    destruct (_ =? _); cbn [negb]; [|reflexivity].
    rewrite (Nat.eqb_sym (List.length (operations.minhash.values sig_b))).
    destruct (Nat.eqb_spec (List.length (operations.minhash.values sig_a))
                           (List.length (operations.minhash.values sig_b)))
      as [L|]; cbn [negb]; [|reflexivity].
    unfold operations.minhash.count_matches.
    rewrite count_loop_sym, L. reflexivity.
  - intros E L Hpos. rewrite E, Z.eqb_refl, L, Nat.eqb_refl. cbn [negb].
    eexists. split; [reflexivity|]. unfold approx1, approx. cbn [value].
    rewrite <- L. split; [reflexivity|].
    apply ratio_in_unit; [|lia].
    unfold operations.minhash.count_matches.
    pose proof (count_loop_bounds (operations.minhash.values sig_a)
                  (operations.minhash.values sig_b) 0
                  (List.length (operations.minhash.values sig_a)) 0).
    lia.
  - intros Hsqrt Hk Hpos. rewrite Z.eqb_refl, Nat.eqb_refl. cbn [negb].
    rewrite count_matches_same, ddiv_self by lia.
    rewrite one_times_zero.
    now rewrite ddiv_zero, Hsqrt.
Qed.

Lemma minhash_estimate_spec_witness :
  operations.minhash.estimate_similarity sample_libm
    (operations.minhash.make (sample_factory 4 7) 2)
    (operations.minhash.make_signature [5; 9] 7)
    (operations.minhash.make_signature [5; 9] 7)
  = Ok (approx d1 d0 d0) /\
  operations.minhash.estimate_similarity sample_libm
    (operations.minhash.make (sample_factory 4 7) 2)
    (operations.minhash.make_signature [5; 9] 7)
    (operations.minhash.make_signature [5] 7)
  = Throw SizeMismatch.
Proof.
  pose proof (minhash_estimate_spec sample_libm
                (operations.minhash.make (sample_factory 4 7) 2)
                (operations.minhash.make_signature [5; 9] 7)
                (operations.minhash.make_signature [5] 7))
    as (_ & Hsize & _ & _ & Hself).
  split.
  - apply Hself; [reflexivity | simpl; lia | simpl; lia].
  - apply Hsize; [reflexivity | simpl; lia].
Defined.
